(** * Grimrold: a shallow embedding of the orchestration core

    The development follows the JavaScript sources:
    - [core/grimoire.js]            -> modules [Grimoire] (the Dispatcher),
                                       [GrimoireApi], [GrimoireTurns],
                                       [GrimoireWired],
    - [utils/asyncUtils.js]         -> modules [Retry], [ParallelLimit],
                                       [Debounce], [Series], [Memoize],
                                       [Throttle], [Semaphore] (the
                                       concurrency toolkit),
    - [core/localModels.js] and
      [core/local-model-manager.js] -> modules [LocalModels], [LocalRunner],
                                       [LocalModelsApi],
    - [core/modelManager.js]        -> modules [ModelManager],
                                       [ModelManagerApi], [ModelManagerInit],
    - [middleware/errorHandler.js]  -> module [ErrorHandler].

    An asynchronous function is modelled run to completion where the
    property concerns one call, and as a transition system over the turns of
    the event loop where it concerns interleavings. *)

From Stdlib Require Import ZArith QArith List Ascii String Lia Lqa Bool.
From stdpp Require Import gmap strings list pretty sorting.
Import ListNotations.
Local Open Scope Z_scope.
Local Open Scope nat_scope.

(** ** JavaScript values shared by the modules *)

(** What a [throw] can carry, as far as the modelled code looks at it: an
    object with a [message] property (an [Error]), or [undefined]. *)
Inductive JsThrown : Type :=
| JsError (message : string)
| JsUndefined.

(** The outcome of awaiting a call: a value or a thrown exception. *)
Inductive Completion (A : Type) : Type :=
| Returns (a : A)
| Throws (e : JsThrown).
Arguments Returns {A} a.
Arguments Throws {A} e.

(** The double-quote character (code 34). *)
Definition dquote : string := String (ascii_of_nat 34) EmptyString.

(** The message of the [TypeError] raised by reading property [p] of
    [undefined]. *)
Definition typeError_undefined (p : string) : string :=
  "Cannot read properties of undefined (reading '" +:+ p +:+ "')".

(** * The Dispatcher: core/grimoire.js *)
Module Grimoire.

Inductive Role : Type := user | assistant | system.

#[global] Instance Role_eq_dec : EqDecision Role.
Proof. solve_decision. Defined.

Definition role_string (r : Role) : string :=
  match r with user => "user" | assistant => "assistant" | system => "system" end.

(** Free-form metadata objects: property name to value, in insertion order. *)
Inductive MetaVal : Type :=
| MStr (s : string)
| MNum (q : Q).
Definition Meta : Type := list (string * MetaVal).

(** [{...a, ...b}]: a property of [b] overrides the property of that name
    in [a], which keeps its place; the other properties of [b] follow in
    their order. *)
Definition spread (a b : Meta) : Meta :=
  map (fun kv => (fst kv,
                  default (snd kv)
                          (snd <$> find (fun kv' => String.eqb (fst kv) (fst kv')) b))) a ++
  filter (fun kv => negb (existsb (fun kv' => String.eqb (fst kv) (fst kv')) a)) b.

#[global] Arguments spread : simpl never.

Definition lookup_meta (k : string) (m : Meta) : option MetaVal :=
  snd <$> find (fun kv => String.eqb k (fst kv)) m.

(** A model descriptor as the Dispatcher reads it: [id], [name],
    [provider]. *)
Record Model : Type := {
  model_id : string;
  model_name : string;
  model_provider : option string;
  model_parameters : Meta
}.

(** The [error] property of an error record. *)
Record ErrorInfo : Type := {
  error_message : string;
  error_stack : option string
}.

Record Message : Type := {
  msg_id : string;
  msg_role : Role;
  msg_content : string;
  msg_timestamp : Z;
  msg_metadata : option Meta;
  msg_isError : bool;
  msg_error : option ErrorInfo
}.

Record Conversation : Type := {
  conv_id : string;
  conv_model : Model;
  conv_messages : list Message;
  conv_metadata : Meta;
  conv_createdAt : Z;
  conv_updatedAt : Z
}.

(** The [options] argument of [createConversation], [processMessage] and
    [askGrimoire]. *)
Record Options : Type := {
  opt_conversationId : option string;
  opt_modelId : option string;
  opt_userAgent : option string;
  opt_ipAddress : option string;
  opt_metadata : option Meta
}.

Definition no_options : Options :=
  {| opt_conversationId := None; opt_modelId := None; opt_userAgent := None;
     opt_ipAddress := None; opt_metadata := None |}.

(** What [prepareMessages] hands to a backend. *)
Record Prepared : Type := {
  p_role : string;
  p_content : string;
  p_name : option MetaVal
}.

(** The value [processMessage] resolves with. *)
Record Reply : Type := {
  r_response : string;
  r_conversationId : string;
  r_model : string;
  r_messageId : string;
  r_timestamp : Z;
  r_metadata : Meta
}.

(** The collaborators of the Dispatcher.  Time stamps are kept as
    milliseconds since the epoch ([toISOString] renders them, [new Date(s)]
    reads them back); [uuidv4] and the clock are streams indexed by the
    number of reads made so far; [development] is
    [process.env.NODE_ENV === 'development'] and [stack_of] the stack trace
    of an error with a given message.  The three remote clients stand for
    [modelManager.getClient(p)] followed by the provider call and the
    extraction of the text ([None] is [undefined]). *)
Record Env : Type := {
  uuidv4 : nat -> string;
  Date_now : nat -> Z;
  development : bool;
  stack_of : string -> string;
  registry : gmap string Model;
  openai_content : list Prepared -> Model -> Options -> Completion (option string);
  google_text : list Prepared -> Model -> Options -> Completion (option string);
  huggingface_generated_text : list Prepared -> Model -> Options -> Completion (option string)
}.

(** The Grimoire object: the conversation map, the default model id and the
    two read counters of the streams above. *)
Record State : Type := {
  conversations : gmap string Conversation;
  defaultModel : string;
  uuid_reads : nat;
  clock_reads : nat
}.

Definition constructor (default_model_env : option string) : State :=
  {| conversations := ∅;
     defaultModel := match default_model_env with
                     | Some s => if String.eqb s EmptyString then "default" else s
                     | None => "default"
                     end;
     uuid_reads := 0; clock_reads := 0 |}.

Definition set_conversations (f : gmap string Conversation -> gmap string Conversation)
    (st : State) : State :=
  {| conversations := f (conversations st); defaultModel := defaultModel st;
     uuid_reads := uuid_reads st; clock_reads := clock_reads st |}.

Section Dispatcher.
Context (env : Env).

(** A computation over the Grimoire state that returns or throws. *)
Definition M (A : Type) : Type := State -> Completion A * State.

Definition ret {A} (a : A) : M A := fun st => (Returns a, st).
Definition throw {A} (e : JsThrown) : M A := fun st => (Throws e, st).
Definition bind {A B} (m : M A) (k : A -> M B) : M B :=
  fun st => match m st with
            | (Returns a, st') => k a st'
            | (Throws e, st') => (Throws e, st')
            end.
Definition try_catch {A} (m : M A) (h : JsThrown -> M A) : M A :=
  fun st => match m st with
            | (Returns a, st') => (Returns a, st')
            | (Throws e, st') => h e st'
            end.
Definition lift {A} (c : Completion A) : M A := fun st => (c, st).

Notation "'do' x <- m ;; k" := (bind m (fun x => k))
  (at level 10, x name, m at level 99, k at level 200, only parsing).

(** [uuidv4()] *)
Definition new_uuid : M string :=
  fun st => (Returns (uuidv4 env (uuid_reads st)),
             {| conversations := conversations st; defaultModel := defaultModel st;
                uuid_reads := S (uuid_reads st); clock_reads := clock_reads st |}).

(** [new Date()] / [Date.now()] *)
Definition now : M Z :=
  fun st => (Returns (Date_now env (clock_reads st)),
             {| conversations := conversations st; defaultModel := defaultModel st;
                uuid_reads := uuid_reads st; clock_reads := S (clock_reads st) |}).

Definition get_conversations : M (gmap string Conversation) :=
  fun st => (Returns (conversations st), st).

Definition modify_conversations
    (f : gmap string Conversation -> gmap string Conversation) : M unit :=
  fun st => (Returns tt, set_conversations f st).

(** Modelled from the spec: [modelManager.getModel], which grimoire.js calls
    and tests/modelManager.test.js exercises but which the ModelManager class
    of core/modelManager.js does not define.  It resolves an id in the
    registry of loaded model descriptors and throws ['Model not found'] for
    an unknown id. *)
Definition getModel (modelId : string) : M Model :=
  match registry env !! modelId with
  | Some m => ret m
  | None => throw (JsError "Model not found")
  end.

(** [a || b] on an optional string: [undefined] and the empty string are falsy. *)
Definition truthy (o : option string) : option string :=
  match o with
  | Some s => if String.eqb s EmptyString then None else Some s
  | None => None
  end.

Definition opt_meta (k : string) (o : option string) : Meta :=
  match o with Some s => [(k, MStr s)] | None => [] end.

(** grimoire.js, lines 55-74. *)
Definition createConversation (modelId : option string) (options : Options)
    : M Conversation :=
  do conversationId <- match truthy (opt_conversationId options) with
                    | Some i => ret i
                    | None => new_uuid
                    end ;;
  do model <- match truthy modelId with
           | Some m => getModel m
           | None => (fun st => getModel (defaultModel st) st)
           end ;;
  do createdAt <- now ;;
  do updatedAt <- now ;;
  let conversation :=
    {| conv_id := conversationId;
       conv_model := model;
       conv_messages := [];
       conv_metadata :=
         spread (opt_meta "userAgent" (opt_userAgent options) ++
                 opt_meta "ipAddress" (opt_ipAddress options))
                (default [] (opt_metadata options));
       conv_createdAt := createdAt;
       conv_updatedAt := updatedAt |} in
  do _ <- modify_conversations (insert conversationId conversation) ;;
  ret conversation.

(** [v || undefined] on a metadata value: the empty string and [0] are falsy. *)
Definition truthy_meta (v : option MetaVal) : option MetaVal :=
  match v with
  | Some (MStr s) => if String.eqb s EmptyString then None else v
  | Some (MNum q) => if Qeq_bool q 0 then None else v
  | None => None
  end.

(** grimoire.js, lines 170-176. *)
Definition prepareMessages (messages : list Message) : list Prepared :=
  map (fun msg => {| p_role := role_string (msg_role msg);
                     p_content := msg_content msg;
                     p_name := match msg_metadata msg with
                               | Some md => truthy_meta (lookup_meta "username" md)
                               | None => None
                               end |}) messages.

(** grimoire.js, lines 178-189: [content || 'No response generated']. *)
Definition generateWithOpenAI (messages : list Prepared) (model : Model)
    (options : Options) : Completion (option string) :=
  match openai_content env messages model options with
  | Returns c => Returns (Some (default "No response generated" (truthy c)))
  | Throws e => Throws e
  end.

(** grimoire.js, lines 191-209. *)
Definition generateWithGoogle (messages : list Prepared) (model : Model)
    (options : Options) : Completion (option string) :=
  google_text env messages model options.

(** grimoire.js, lines 211-223. *)
Definition generateWithHuggingFace (messages : list Prepared) (model : Model)
    (options : Options) : Completion (option string) :=
  huggingface_generated_text env messages model options.

(** grimoire.js, lines 225-229.  [messages[messages.length - 1]] is
    [undefined] on an empty list, and reading its [content] throws. *)
Definition generateWithDefault (messages : list Prepared) (model : Model)
    (options : Options) : Completion (option string) :=
  match last (A := Prepared) messages with
  | Some lastMessage =>
      Returns (Some ("Model " +:+ dquote +:+ model_id model +:+ dquote +:+
                     " received: " +:+ p_content lastMessage))
  | None => Throws (JsError (typeError_undefined "content"))
  end.

(** grimoire.js, lines 149-168.  The [catch] reads [error.message], which
    itself throws when [error] is [undefined]. *)
Definition generateResponse (conversation : Conversation) (options : Options)
    : Completion (option string) :=
  let model := conv_model conversation in
  let messages := prepareMessages (conv_messages conversation) in
  let attempt :=
    match model_provider model with
    | Some p =>
        if String.eqb p "openai" then generateWithOpenAI messages model options
        else if String.eqb p "google" then generateWithGoogle messages model options
        else if String.eqb p "huggingface"
             then generateWithHuggingFace messages model options
        else generateWithDefault messages model options
    | None => generateWithDefault messages model options
    end in
  match attempt with
  | Returns r => Returns r
  | Throws (JsError m) => Throws (JsError ("Failed to generate response: " +:+ m))
  | Throws JsUndefined => Throws (JsError (typeError_undefined "message"))
  end.

(** [conversation.messages.push(m); conversation.updatedAt = ...] *)
Definition push_message (m : Message) (updatedAt : Z) (c : Conversation)
    : Conversation :=
  {| conv_id := conv_id c; conv_model := conv_model c;
     conv_messages := conv_messages c ++ [m];
     conv_metadata := conv_metadata c;
     conv_createdAt := conv_createdAt c;
     conv_updatedAt := updatedAt |}.

(** The same, on the conversation object stored under [conversationId]. *)
Definition push (conversationId : string) (m : Message) : M unit :=
  do updatedAt <- now ;;
  modify_conversations (alter (push_message m updatedAt) conversationId).

(** The conversation object the local variable [conversation] refers to. *)
Definition the_conversation (conversationId : string) : M Conversation :=
  fun st => match conversations st !! conversationId with
            | Some c => (Returns c, st)
            | None => (Throws (JsError (typeError_undefined "messages")), st)
            end.

(** grimoire.js, lines 76-147. *)
Definition processMessage (conversationId : string) (message : string)
    (options : Options) : M Reply :=
  do convs <- get_conversations ;;
  match convs !! conversationId with
  | None => throw (JsError "Conversation not found")
  | Some _ =>
      do uid <- new_uuid ;;
      do ts <- now ;;
      let userMessage :=
        {| msg_id := uid; msg_role := user; msg_content := message;
           msg_timestamp := ts;
           msg_metadata := Some (default [] (opt_metadata options));
           msg_isError := false; msg_error := None |} in
      do _ <- push conversationId userMessage ;;
      try_catch
        (do startTime <- now ;;
         do conversation <- the_conversation conversationId ;;
         do response <- lift (generateResponse conversation options) ;;
         do endTime <- now ;;
         do aid <- new_uuid ;;
         do ats <- now ;;
         match response with
         | None => throw (JsError (typeError_undefined "length"))
         | Some text =>
             let assistantMessage :=
               {| msg_id := aid; msg_role := assistant; msg_content := text;
                  msg_timestamp := ats;
                  msg_metadata :=
                    Some (spread
                            [("model", MStr (model_id (conv_model conversation)));
                             ("processingTimeMs", MNum (inject_Z (endTime - startTime)));
                             ("tokens", MNum (Z.of_nat (String.length text) # 4))]
                            (default [] (opt_metadata options)));
                  msg_isError := false; msg_error := None |} in
             do _ <- push conversationId assistantMessage ;;
             ret {| r_response := msg_content assistantMessage;
                    r_conversationId := conversationId;
                    r_model := model_id (conv_model conversation);
                    r_messageId := msg_id assistantMessage;
                    r_timestamp := msg_timestamp assistantMessage;
                    r_metadata := default [] (msg_metadata assistantMessage) |}
         end)
        (fun error =>
           do eid <- new_uuid ;;
           match error with
           | JsUndefined => throw (JsError (typeError_undefined "message"))
           | JsError m =>
               do ets <- now ;;
               let errorMessage :=
                 {| msg_id := eid; msg_role := system;
                    msg_content := "Error: " +:+ m;
                    msg_timestamp := ets;
                    msg_metadata := None;
                    msg_isError := true;
                    msg_error :=
                      Some {| error_message := m;
                              error_stack := if development env
                                             then Some (stack_of env m) else None |} |} in
               do _ <- push conversationId errorMessage ;;
               throw error
           end)
  end.

(** grimoire.js, lines 246-252. *)
Definition getConversation (conversationId : string) (st : State) : option Conversation :=
  conversations st !! conversationId.

Definition deleteConversation (conversationId : string) : M bool :=
  fun st => (Returns (bool_decide (is_Some (conversations st !! conversationId))),
             set_conversations (delete conversationId) st).

(** grimoire.js, lines 35-53: drop the conversations last updated more than
    [maxAgeHours] ago; returns how many were removed. *)
Definition cleanupOldConversations (maxAgeHours : Z) : M nat :=
  do t <- now ;;
  let maxAgeMs := (maxAgeHours * 60 * 60 * 1000)%Z in
  let old (c : Conversation) := (maxAgeMs <? t - conv_updatedAt c)%Z in
  do convs <- get_conversations ;;
  do _ <- modify_conversations (filter (fun kv => old (snd kv) = false)) ;;
  ret (size (filter (fun kv => old (snd kv) = true) convs)).

(** The operations that touch the conversation map, as a caller issues
    them one after the other. *)
Inductive Call : Type :=
| CreateConversation (modelId : option string) (options : Options)
| ProcessMessage (conversationId message : string) (options : Options)
| DeleteConversation (conversationId : string)
| CleanupOldConversations (maxAgeHours : Z).

Definition exec (c : Call) (st : State) : State :=
  match c with
  | CreateConversation modelId options => snd (createConversation modelId options st)
  | ProcessMessage conversationId message options =>
      snd (processMessage conversationId message options st)
  | DeleteConversation conversationId => snd (deleteConversation conversationId st)
  | CleanupOldConversations maxAgeHours => snd (cleanupOldConversations maxAgeHours st)
  end.

Definition run (cs : list Call) (st : State) : State :=
  fold_left (fun s c => exec c s) cs st.

(** [n] calls of [processMessage] on one conversation id. *)
Definition process_all (id : string) (inputs : list (string * Options)) : list Call :=
  map (fun i => ProcessMessage id (fst i) (snd i)) inputs.

(** What one call of [processMessage] on a stored conversation [c] does:
    the conversation gains a user record holding the text and then one
    record that is an assistant reply when the call returns, or a system
    record marked [isError] when it throws; no other conversation changes. *)
Definition appends_user_and_reply (st : State) (id text : string)
    (opts : Options) (c : Conversation) : Prop :=
  exists u r c' out st',
    processMessage id text opts st = (out, st') /\
    conversations st' = <[id := c']> (conversations st) /\
    conv_messages c' = conv_messages c ++ [u; r] /\
    (msg_role u = user /\ msg_content u = text /\ msg_isError u = false) /\
    ((exists reply, out = Returns reply /\ msg_role r = assistant /\
        msg_isError r = false /\ r_response reply = msg_content r)
     \/ (exists m, out = Throws (JsError m) /\ msg_role r = system /\
        msg_isError r = true /\ msg_content r = "Error: " +:+ m)).

End Dispatcher.

(** Every stored conversation holds an even number of messages. *)
Definition all_even (st : State) : Prop :=
  forall id c, conversations st !! id = Some c ->
               Nat.Even (length (conv_messages c)).


(** The number of messages recorded for a conversation id (0 if absent). *)
Definition message_count (conversationId : string) (st : State) : nat :=
  match conversations st !! conversationId with
  | Some c => length (conv_messages c)
  | None => 0
  end.

(** Modelled from the spec: the descriptor loaded from models/default.json,
    as the README and tests/modelManager.test.js show it (id [default], name
    [Default Model], no provider). *)
Definition default_model : Model :=
  {| model_id := "default"; model_name := "Default Model";
     model_provider := None;
     model_parameters := [("temperature", MNum (7 # 10));
                          ("max_tokens", MNum (inject_Z 1500));
                          ("top_p", MNum (inject_Z 1))] |}.

(** A concrete environment for examples: one registered model, a clock that
    advances by one millisecond per read, remote clients that are down. *)
Definition example_env : Env :=
  {| uuidv4 := fun n => "uuid-" +:+ String.concat EmptyString (repeat "i" n);
     Date_now := fun n => (1700000000000 + Z.of_nat n)%Z;
     development := false;
     stack_of := fun m => "Error: " +:+ m;
     registry := {[ "default" := default_model ]};
     openai_content := fun _ _ _ => Throws (JsError "connect ECONNREFUSED");
     google_text := fun _ _ _ => Throws (JsError "connect ECONNREFUSED");
     huggingface_generated_text := fun _ _ _ => Throws (JsError "connect ECONNREFUSED") |}.

(** A model whose provider is unreachable in [example_env]. *)
Definition remote_model : Model :=
  {| model_id := "gpt"; model_name := "gpt-4"; model_provider := Some "openai";
     model_parameters := [] |}.

Definition example_conversation (m : Model) : Conversation :=
  {| conv_id := "c1"; conv_model := m; conv_messages := [];
     conv_metadata := []; conv_createdAt := 0; conv_updatedAt := 0 |}.

Definition example_state (m : Model) : State :=
  {| conversations := {[ "c1" := example_conversation m ]};
     defaultModel := "default"; uuid_reads := 0; clock_reads := 0 |}.

End Grimoire.
(** * The concurrency toolkit: utils/asyncUtils.js *)

(** ** withRetry *)
Module Retry.

(** What a run of [withRetry] does that an observer can see: it invokes the
    task, and it sleeps ([setTimeout]) for a number of milliseconds. *)
Inductive Event : Type :=
| Invoke (attempt : Z)
| Sleep (ms : Q).

(** asyncUtils.js, line 1: [const { logger } = require('../core/logger')].
    core/logger.js ends in [module.exports = logger], and the logger has no
    property [logger]: the binding is [undefined] ([None]). *)
Definition logger : option unit := None.

Section WithRetry.
Context {A : Type}.
(** [asyncFunc k] is the outcome of the [k]-th invocation of the task and
    [Math_random k] the number drawn after the [k]-th attempt has failed;
    [maxRetries] is an integer and [initialDelay] a number of
    milliseconds. *)
Context (asyncFunc : Z -> Completion A) (maxRetries : Z) (initialDelay : Q)
        (shouldRetry : JsThrown -> bool) (Math_random : Z -> Q).

(** [initialDelay * Math.pow(2, attempt - 1)] *)
Definition delay (attempt : Z) : Q := (initialDelay * 2 ^ (attempt - 1))%Q.

(** [Math.random() * 1000] *)
Definition jitter (attempt : Z) : Q := (Math_random attempt * 1000)%Q.

(** The [for] loop of asyncUtils.js, lines 172-195, entered at its test
    [attempt <= maxRetries], followed by [throw lastError] (line 197).
    [fuel] bounds the number of iterations.  The call [logger.warn(...)]
    reads [warn] of the binding [logger] before it builds its arguments,
    and throws a [TypeError] out of the [catch] block when the binding is
    [undefined]; building the arguments reads [error.message], which throws
    a [TypeError] when the task has rejected with [undefined]. *)
Fixpoint loop (fuel : nat) (attempt : Z) (lastError : JsThrown)
    (trace : list Event) : option (Completion A * list Event) :=
  match fuel with
  | O => None
  | S fuel' =>
      if (attempt <=? maxRetries)%Z then
        match asyncFunc attempt with
        | Returns a => Some (Returns a, trace ++ [Invoke attempt])
        | Throws error =>
            if negb (shouldRetry error) || (attempt =? maxRetries)%Z
            then Some (Throws error, trace ++ [Invoke attempt])
            else
              match logger with
              | None =>
                  Some (Throws (JsError (typeError_undefined "warn")),
                        trace ++ [Invoke attempt])
              | Some _ =>
                  match error with
                  | JsUndefined =>
                      Some (Throws (JsError (typeError_undefined "message")),
                            trace ++ [Invoke attempt])
                  | JsError _ =>
                      loop fuel' (attempt + 1)%Z error
                           (trace ++ [Invoke attempt;
                                      Sleep (delay attempt + jitter attempt)])
                  end
              end
        end
      else Some (Throws lastError, trace)
  end.

(** asyncUtils.js, lines 169-198: [let lastError;] leaves it [undefined]. *)
Definition withRetry : option (Completion A * list Event) :=
  loop (S (Z.to_nat maxRetries)) 1%Z JsUndefined [].

End WithRetry.

(** The attempts made, in order. *)
Definition invocations (trace : list Event) : list Z :=
  flat_map (fun ev => match ev with Invoke k => [k] | Sleep _ => [] end) trace.

(** The sleeps made, in order. *)
Definition sleeps (trace : list Event) : list Q :=
  flat_map (fun ev => match ev with Invoke _ => [] | Sleep ms => [ms] end) trace.

(** A task that always fails, and a source of randomness stuck at 0. *)
Definition always_fails (k : Z) : Completion unit := Throws (JsError "boom").
Definition always_retry (e : JsThrown) : bool := true.
Definition no_jitter (k : Z) : Q := 0%Q.

(** A task that fails twice and then succeeds. *)
Definition fails_twice (k : Z) : Completion string :=
  if (k <=? 2)%Z then Throws (JsError "ETIMEDOUT") else Returns "done".

End Retry.
(** ** parallelLimit *)
Module ParallelLimit.

(** Where the async function is suspended: at [await Promise.race(executing)]
    inside the loop (with the state of the race promise and the entries of
    [tasks.entries()] not yet visited), at the final [Promise.all(results)]
    (with the first rejection it has seen), or not at all because it has
    settled. *)
Inductive Mode (A : Type) : Type :=
| AwaitRace (race : option (Completion unit)) (rest : list nat)
| AwaitAll (rejection : option JsThrown)
| Done (result : Completion (list A)).
Arguments AwaitRace {A} race rest.
Arguments AwaitAll {A} rejection.
Arguments Done {A} result.

(** The promises [p] and [e] of iteration [i] are both named [i].
    [results] and [executing] are the two arrays, [in_flight] the tasks that
    have been handed to the microtask queue and have not settled, [settled]
    the outcome of every [p] that has. *)
Record State (A : Type) : Type := {
  results : list nat;
  executing : list nat;
  in_flight : list nat;
  settled : gmap nat (Completion A);
  mode : Mode A
}.
Arguments results {A} s.
Arguments executing {A} s.
Arguments in_flight {A} s.
Arguments settled {A} s.
Arguments mode {A} s.

(** [a[i] = x] for [i <= a.length]. *)
Definition array_set {X : Type} (i : nat) (x : X) (a : list X) : list X :=
  if i <? length a then <[i := x]> a else a ++ [x].

(** [a.indexOf(x)] *)
Fixpoint indexOf (x : nat) (a : list nat) : option nat :=
  match a with
  | [] => None
  | y :: a' => if Nat.eqb y x then Some 0 else S <$> indexOf x a'
  end.

(** [a.splice(a.indexOf(x), 1)]: with [indexOf] at -1 the start counts from
    the end and the last element goes. *)
Definition splice_own (x : nat) (a : list nat) : list nat :=
  match indexOf x a with
  | Some k => delete k a
  | None => removelast a
  end.

Section Run.
Context {A : Type}.
(** [tasks !! i] is the outcome with which task [i] settles once started;
    when it settles is up to the scheduler. *)
Context (tasks : list (Completion A)) (concurrency : Z).

Definition limited : bool := (concurrency <=? Z.of_nat (length tasks))%Z.

(** The first promise of [ids] that has settled, with its outcome. *)
Definition first_settled (ids : list nat) (done : gmap nat (Completion A))
    : option (Completion unit) :=
  match find (fun i => bool_decide (is_Some (done !! i))) ids with
  | Some i =>
      match done !! i with
      | Some (Throws err) => Some (Throws err)
      | _ => Some (Returns tt)
      end
  | None => None
  end.

Definition has_rejected (done : gmap nat (Completion A)) (i : nat) : bool :=
  match done !! i with Some (Throws _) => true | _ => false end.

(** The first promise of [ids] that has rejected, with its error. *)
Definition first_rejected (ids : list nat) (done : gmap nat (Completion A))
    : option JsThrown :=
  match find (has_rejected done) ids with
  | Some i => match done !! i with Some (Throws err) => Some err | _ => None end
  | None => None
  end.

Definition set_mode (m : Mode A) (st : State A) : State A :=
  {| results := results st; executing := executing st; in_flight := in_flight st;
     settled := settled st; mode := m |}.

(** asyncUtils.js, lines 210-224: the loop over the entries still to visit,
    run until the function suspends.  An iteration creates [p] (the task is
    queued to start), stores it in [results], and below the limit test
    creates [e], pushes it and awaits the race when [executing] is full. *)
Fixpoint loop (rest : list nat) (st : State A) : State A :=
  match rest with
  | [] => set_mode (AwaitAll (first_rejected (results st) (settled st))) st
  | index :: rest' =>
      let st1 := {| results := array_set index index (results st);
                    executing := executing st;
                    in_flight := in_flight st ++ [index];
                    settled := settled st; mode := mode st |} in
      if limited then
        let st2 := {| results := results st1;
                      executing := executing st1 ++ [index];
                      in_flight := in_flight st1;
                      settled := settled st1; mode := mode st1 |} in
        if (concurrency <=? Z.of_nat (length (executing st2)))%Z
        then set_mode (AwaitRace (first_settled (executing st2) (settled st2)) rest') st2
        else loop rest' st2
      else loop rest' st1
  end.

(** asyncUtils.js, lines 206-225, up to the first suspension. *)
Definition parallelLimit : State A :=
  loop (seq 0 (length tasks))
       {| results := []; executing := []; in_flight := []; settled := ∅;
          mode := AwaitAll None |}.

(** Task [j] settles: [p] takes its outcome; when it fulfils, the callback
    of [e] splices [e] out of [executing]; the promise the function awaits
    hears of it. *)
Definition settle (j : nat) (st : State A) : State A :=
  match tasks !! j with
  | None => st
  | Some outcome =>
      let raced := bool_decide (j ∈ executing st) in
      {| results := results st;
         executing := match outcome with
                      | Returns _ => if limited then splice_own j (executing st)
                                     else executing st
                      | Throws _ => executing st
                      end;
         in_flight := filter (fun i => i <> j) (in_flight st);
         settled := <[j := outcome]> (settled st);
         mode := match mode st, outcome with
                 | AwaitRace None rest, Returns _ =>
                     if raced then AwaitRace (Some (Returns tt)) rest else mode st
                 | AwaitRace None rest, Throws err =>
                     if raced then AwaitRace (Some (Throws err)) rest else mode st
                 | AwaitAll None, Throws err => AwaitAll (Some err)
                 | m, _ => m
                 end |}
  end.

(** The values [Promise.all(results)] fulfils with, if every promise of
    [results] has fulfilled. *)
Definition all_values (st : State A) : option (list A) :=
  mapM (fun i => match settled st !! i with
                 | Some (Returns v) => Some v
                 | _ => None
                 end) (results st).

(** The awaited promise has settled. *)
Definition can_resume (st : State A) : bool :=
  match mode st with
  | AwaitRace (Some _) _ => true
  | AwaitAll (Some _) => true
  | AwaitAll None => bool_decide (is_Some (all_values st))
  | _ => false
  end.

(** The function takes up again after its [await]. *)
Definition resume (st : State A) : State A :=
  match mode st with
  | AwaitRace (Some (Returns _)) rest => loop rest st
  | AwaitRace (Some (Throws err)) _ => set_mode (Done (Throws err)) st
  | AwaitAll (Some err) => set_mode (Done (Throws err)) st
  | AwaitAll None =>
      match all_values st with
      | Some vs => set_mode (Done (Returns vs)) st
      | None => st
      end
  | _ => st
  end.

(** What can happen next: the function resumes, or a task in flight
    settles. *)
Inductive Action : Type :=
| Resume
| Settle (j : nat).

Definition enabled (st : State A) : list Action :=
  (if can_resume st then [Resume] else []) ++ map Settle (in_flight st).

Definition perform (a : Action) (st : State A) : State A :=
  match a with
  | Resume => resume st
  | Settle j => settle j st
  end.

(** One turn of the event loop; [choice] picks among the enabled actions. *)
Definition step (choice : nat) (st : State A) : State A :=
  match enabled st !! (choice mod length (enabled st)) with
  | Some a => perform a st
  | None => st
  end.

(** The state after the turns picked by a schedule. *)
Definition exec (schedule : list nat) (st : State A) : State A :=
  fold_left (fun s choice => step choice s) schedule st.

(** The value a task fulfils with. *)
Definition value_of (c : Completion A) : option A :=
  match c with Returns v => Some v | Throws _ => None end.

(** The state after the iteration for [index]: lines 211-216. *)
Definition launch (index : nat) (st : State A) : State A :=
  {| results := array_set index index (results st);
     executing := if limited then executing st ++ [index] else executing st;
     in_flight := in_flight st ++ [index];
     settled := settled st; mode := mode st |}.

(** What holds of the arrays and promises at all times: [results] holds the
    promises of the iterations made so far, the tasks in flight are the
    launched ones that have not settled, every settled promise carries the
    outcome of its task, and [executing] holds the [e] of every launched
    task that has not fulfilled. *)
Record Core (st : State A) : Prop := {
  core_results : results st = seq 0 (length (results st));
  core_launched : length (results st) <= length tasks;
  core_in_flight_NoDup : NoDup (in_flight st);
  core_in_flight : forall j, j ∈ in_flight st <->
                             j < length (results st) /\ settled st !! j = None;
  core_settled : forall j o, settled st !! j = Some o ->
                             tasks !! j = Some o /\ j < length (results st);
  core_executing_NoDup : NoDup (executing st);
  core_executing : forall j, j ∈ executing st <->
                             limited = true /\ j < length (results st) /\
                             forall v, settled st !! j <> Some (Returns v)
}.

(** The entries still to visit. *)
Definition entries_left (st : State A) : list nat :=
  seq (length (results st)) (length tasks - length (results st)).

(** The synchronous code is about to visit the entries [rest]:
    [executing] has room for one more. *)
Definition Looping (rest : list nat) (st : State A) : Prop :=
  Core st /\ rest = entries_left st /\
  (Z.of_nat (length (executing st)) < concurrency)%Z.

(** What the mode of a suspended or settled function tells. *)
Definition mode_ok (st : State A) : Prop :=
  match mode st with
  | AwaitRace race rest =>
      rest = entries_left st /\
      match race with
      | None => (forall j, j ∈ executing st -> settled st !! j = None) /\
                executing st <> []
      | Some (Returns _) => (Z.of_nat (length (executing st)) < concurrency)%Z
      | Some (Throws err) => exists j, tasks !! j = Some (Throws err)
      end
  | AwaitAll rejection =>
      length (results st) = length tasks /\
      match rejection with
      | None => forall j err, settled st !! j <> Some (Throws err)
      | Some err => exists j, tasks !! j = Some (Throws err)
      end
  | Done (Returns vs) => mapM value_of tasks = Some vs
  | Done (Throws err) => exists j, tasks !! j = Some (Throws err)
  end.

(** What holds in every state between two turns of the event loop. *)
Definition Inv (st : State A) : Prop :=
  Core st /\ (Z.of_nat (length (executing st)) <= concurrency)%Z /\ mode_ok st.

(** A bound on the number of turns still to come. *)
Definition measure (st : State A) : nat :=
  match mode st with
  | AwaitRace _ rest => 3 * length rest + 2 * length (in_flight st) + 2
  | AwaitAll _ => 2 * length (in_flight st) + 1
  | Done _ => 0
  end.

End Run.

End ParallelLimit.
(** ** debounce *)
Module Debounce.

Section Debounced.
(** [X] is the type of argument lists of [func], [R] of its results; [wait]
    is in milliseconds, as are all times. *)
Context {X R : Type} (wait : nat).

(** A live timer set by [setTimeout(later, wait)]: when it is due, and the
    arguments its closure [later] has captured. *)
Record Timer : Type := {
  deadline : nat;
  timer_args : X
}.

(** The closure state of one debounced function ([timeout],
    [resolveFuncs]), and what has come of it: the promises handed to
    callers are numbered in call order, [invoked] lists the argument lists
    [func] has been called with, [awaiting] holds for each call of [func]
    that has not settled the [currentResolveFuncs] of its [later], and
    [promises] the outcome of every caller's promise that has settled. *)
Record State : Type := {
  timeout : option Timer;
  resolveFuncs : list nat;
  callers : nat;
  invoked : list X;
  awaiting : gmap nat (list nat);
  promises : gmap nat (Completion R)
}.

(** asyncUtils.js, lines 248-250. *)
Definition debounce : State :=
  {| timeout := None; resolveFuncs := []; callers := 0; invoked := [];
     awaiting := ∅; promises := ∅ |}.

(** asyncUtils.js, lines 252-274: a call at time [t].  [clearTimeout]
    cancels the live timer; the caller's [resolve] is pushed; a new timer
    is set whose [later] holds this call's arguments. *)
Definition call (t : nat) (args : X) (st : State) : State :=
  {| timeout := Some {| deadline := t + wait; timer_args := args |};
     resolveFuncs := resolveFuncs st ++ [callers st];
     callers := S (callers st);
     invoked := invoked st;
     awaiting := awaiting st;
     promises := promises st |}.

(** asyncUtils.js, lines 254-260: the timer callback [later], up to its
    [await]: it takes over the resolvers queued so far and calls [func]
    with the arguments of its own call. *)
Definition later (timer : Timer) (st : State) : State :=
  {| timeout := None;
     resolveFuncs := [];
     callers := callers st;
     invoked := invoked st ++ [timer_args timer];
     awaiting := <[length (invoked st) := resolveFuncs st]> (awaiting st);
     promises := promises st |}.

(** The event loop looks at the timers at time [t]: a live timer runs if it
    is due, never before. *)
Definition tick (t : nat) (st : State) : State :=
  match timeout st with
  | Some timer => if deadline timer <=? t then later timer st else st
  | None => st
  end.

(** [r(result)] and [r(Promise.reject(error))]: the promise takes the
    outcome unless it has settled already. *)
Definition resolve_with (outcome : Completion R) (ps : gmap nat (Completion R))
    (r : nat) : gmap nat (Completion R) :=
  match ps !! r with
  | Some _ => ps
  | None => <[r := outcome]> ps
  end.

(** asyncUtils.js, lines 260-264: the [k]-th call of [func] settles, and
    [later] passes the outcome to each of its resolvers. *)
Definition settle (k : nat) (outcome : Completion R) (st : State) : State :=
  match awaiting st !! k with
  | Some currentResolveFuncs =>
      {| timeout := timeout st;
         resolveFuncs := resolveFuncs st;
         callers := callers st;
         invoked := invoked st;
         awaiting := delete k (awaiting st);
         promises := fold_left (resolve_with outcome) currentResolveFuncs (promises st) |}
  | None => st
  end.

Inductive Event : Type :=
| Call (t : nat) (args : X)
| Tick (t : nat)
| Settled (k : nat) (outcome : Completion R).

Definition step (ev : Event) (st : State) : State :=
  match ev with
  | Call t args => call t args st
  | Tick t => tick t st
  | Settled k outcome => settle k outcome st
  end.

Definition run (evs : list Event) (st : State) : State :=
  fold_left (fun s ev => step ev s) evs st.

(** A burst: a first call, then calls that each come less than [wait]
    after the call before them, with the event loop free to look at the
    timers at any time in between.  [Burst t args n evs] says that [evs]
    is a burst of [n] calls whose last call was made at time [t] with
    arguments [args]. *)
Inductive Burst : nat -> X -> nat -> list Event -> Prop :=
| burst_first t args : Burst t args 1 [Call t args]
| burst_call t args n evs t' args' :
    Burst t args n evs -> t <= t' -> t' < t + wait ->
    Burst t' args' (S n) (evs ++ [Call t' args'])
| burst_tick t args n evs t' :
    Burst t args n evs -> t' < t + wait ->
    Burst t args n (evs ++ [Tick t']).

End Debounced.

Arguments Timer : clear implicits.
Arguments State : clear implicits.
Arguments Event : clear implicits.

End Debounce.
(** * JavaScript string operations used on process output *)
Module JsString.

(** Captured output is a sequence of code units; the ones below 256 are
    enough for the delimiter and for white space. *)
Definition lit (s : string) : list ascii := list_ascii_of_string s.

(** [s.startsWith(p)] *)
Fixpoint starts_with (p s : list ascii) : bool :=
  match p, s with
  | [], _ => true
  | a :: p', b :: s' => Ascii.eqb a b && starts_with p' s'
  | _ :: _, [] => false
  end.

(** [s.split(sep)] for a non-empty separator: the string is scanned from
    the left; where [sep] matches, the piece read so far is closed and the
    scan jumps over the match ([skip] counts the code units of the match
    still to jump over, [cur] is the open piece, reversed). *)
Fixpoint split_go (sep : list ascii) (skip : nat) (cur s : list ascii)
    : list (list ascii) :=
  match s with
  | [] => [rev cur]
  | c :: s' =>
      match skip with
      | S k => split_go sep k cur s'
      | O =>
          if starts_with sep s
          then rev cur :: split_go sep (length sep - 1) [] s'
          else split_go sep 0 (c :: cur) s'
      end
  end.

Definition split (sep s : list ascii) : list (list ascii) := split_go sep 0 [] s.

(** [array.pop()]: the last element, [undefined] on an empty array. *)
Definition pop (pieces : list (list ascii)) : option (list ascii) := last pieces.

(** White space and line terminators among the code units below 256: tab,
    line feed, vertical tab, form feed, carriage return, space, no-break
    space. *)
Definition is_space (c : ascii) : bool :=
  existsb (Nat.eqb (nat_of_ascii c)) [9; 10; 11; 12; 13; 32; 160].

Fixpoint trimStart (s : list ascii) : list ascii :=
  match s with
  | c :: s' => if is_space c then trimStart s' else s
  | [] => []
  end.

(** [s.trim()] *)
Definition trim (s : list ascii) : list ascii := rev (trimStart (rev (trimStart s))).

(** [path.dirname(p)] for a path with a directory part: [p] without its
    last component. *)
Fixpoint drop_component (s : list ascii) : list ascii :=
  match s with
  | c :: s' => if Ascii.eqb c "/" then s' else drop_component s'
  | [] => []
  end.

Definition dirname (p : string) : string :=
  string_of_list_ascii (rev (drop_component (rev (lit p)))).

(** The components of a path that count: [normalizeString] of Node's
    [path] module, for the separator [/].  Empty components and [.] go; a
    [..] takes away the component before it, stays when there is none to
    take (or only [..]) and the path is relative, and goes when the path
    is absolute.  [kept] holds the components kept so far, last first. *)
Fixpoint normalize_go (absolute : bool) (kept rest : list (list ascii))
    : list (list ascii) :=
  match rest with
  | [] => rev kept
  | part :: rest' =>
      if starts_with part [] || (starts_with part (lit ".") && starts_with (lit ".") part)
      then normalize_go absolute kept rest'
      else if starts_with part (lit "..") && starts_with (lit "..") part
      then match kept with
           | top :: kept' =>
               if starts_with top (lit "..") && starts_with (lit "..") top
               then normalize_go absolute (part :: kept) rest'
               else normalize_go absolute kept' rest'
           | [] => if absolute then normalize_go absolute [] rest'
                   else normalize_go absolute [part] rest'
           end
      else normalize_go absolute (part :: kept) rest'
  end.

Fixpoint join_with (sep : list ascii) (pieces : list (list ascii)) : list ascii :=
  match pieces with
  | [] => []
  | [piece] => piece
  | piece :: pieces' => piece ++ sep ++ join_with sep pieces'
  end.

(** [path.join(...parts)] on a POSIX platform: the parts that are not
    empty, joined with [/] and normalised. *)
Definition path_join (parts : list string) : string :=
  let joined :=
    join_with (lit "/")
      (List.filter (fun part => negb (starts_with part [])) (map lit parts)) in
  match joined with
  | [] => "."
  | _ =>
      let absolute := starts_with (lit "/") joined in
      let trailing := starts_with (lit "/") (rev joined) in
      match join_with (lit "/") (normalize_go absolute [] (split (lit "/") joined)) with
      | [] => if absolute then "/" else if trailing then "./" else "."
      | body =>
          string_of_list_ascii
            ((if absolute then lit "/" else []) ++ body ++
             (if trailing then lit "/" else []))
      end
  end.

(** [sep] occurs somewhere in [s]. *)
Fixpoint occurs (sep s : list ascii) : bool :=
  starts_with sep s || match s with [] => false | _ :: s' => occurs sep s' end.

(** No proper non-empty suffix of [sep] is a prefix of [sep]: two
    occurrences of [sep] never overlap. *)
Definition unbordered (sep : list ascii) : bool :=
  forallb (fun j => negb (starts_with (drop j sep) sep)) (seq 1 (length sep - 1)).

End JsString.

(** * The local process runner of core/localModels.js *)
Module LocalModels.
Import JsString.

(** A registered model.  [setupModels] stores the configuration with
    [path], [command] and [args] added; it gives the object no [id]
    property, so [model.id] is [undefined] ([None]) for the models it
    registers. *)
Record Model : Type := {
  id : option string;
  name : string;
  modelFile : string;
  path : string;
  command : string;
  args : list string
}.

Record RunOptions : Type := {
  temperature : option string;
  max_tokens : option string
}.

(** [x || d] on an optional string: [undefined] and the empty string are falsy. *)
Definition or_default (x : option string) (d : string) : string :=
  match x with
  | Some s => if String.eqb s EmptyString then d else s
  | None => d
  end.

(** Process handles. *)
Definition Pid : Type := nat.

(** The role delimiter the close handler looks for. *)
Definition delimiter : list ascii := lit "assistant:".

Definition code_string (code : option Z) : string :=
  match code with Some z => pretty z | None => "null" end.

(** localModels.js, lines 218-226: the handler of the process's [close]
    event, applied to the exit code ([None] is [null]: killed by a signal)
    and the standard output captured so far. *)
Definition on_close (code : option Z) (output : list ascii)
    : Completion (list ascii) :=
  match code with
  | Some 0%Z =>
      match pop (split delimiter output) with
      | Some response => Returns (trim response)
      | None => Throws (JsError (typeError_undefined "trim"))
      end
  | _ => Throws (JsError ("Model process exited with code " +:+ code_string code))
  end.

(** A request in flight: the promise returned by [runModel], the process it
    spawned and listens to, and the output captured so far. *)
Record Request : Type := {
  req_model : Model;
  req_process : Pid;
  req_output : list ascii
}.

(** One [spawn] call. *)
Record Spawn : Type := {
  spawn_command : string;
  spawn_args : list string;
  spawn_cwd : string
}.

(** The manager object and the promises it has handed out. *)
Record State : Type := {
  processes : gmap (option string) Pid;
  in_flight : list Request;
  settled : list (Pid * Completion (list ascii));
  spawned : list Spawn;
  killed : list Pid
}.

Definition initial : State :=
  {| processes := ∅; in_flight := []; settled := []; spawned := []; killed := [] |}.

(** The handle the next [spawn] returns. *)
Definition next_pid (st : State) : Pid := length (spawned st).

(** localModels.js, lines 193-235.  The promise executor runs
    synchronously: it spawns the process, installs the listeners and stores
    the handle under [model.id]. *)
Definition runModel (llamaCppPath : string) (model : Model) (prompt : string)
    (options : RunOptions) (st : State) : State :=
  let process := next_pid st in
  {| processes := <[id model := process]> (processes st);
     in_flight := in_flight st ++
                  [{| req_model := model; req_process := process; req_output := [] |}];
     settled := settled st;
     spawned := spawned st ++
                [{| spawn_command := path_join [llamaCppPath; "build"; "bin"; command model];
                    spawn_args := args model ++
                                  ["--prompt"; prompt;
                                   "--temp"; or_default (temperature options) "0.7";
                                   "--n-predict"; or_default (max_tokens options) "2048"];
                    spawn_cwd := dirname (path model) |}];
     killed := killed st |}.

(** What the event loop delivers to the manager. *)
Inductive Event : Type :=
| RunModel (model : Model) (prompt : string) (options : RunOptions)
| Stdout (process : Pid) (data : list ascii)
| Close (process : Pid) (code : option Z)
| Failed (process : Pid) (message : string)
| Cleanup.

Definition is_process (p : Pid) (r : Request) : bool := Nat.eqb (req_process r) p.

Definition settle (p : Pid) (outcome : list ascii -> Completion (list ascii))
    (st : State) : State :=
  {| processes := processes st;
     in_flight := filter (fun r => is_process p r = false) (in_flight st);
     settled := settled st ++
                map (fun r => (p, outcome (req_output r)))
                    (filter (fun r => is_process p r = true) (in_flight st));
     spawned := spawned st;
     killed := killed st |}.

Definition step (llamaCppPath : string) (ev : Event) (st : State) : State :=
  match ev with
  | RunModel model prompt options => runModel llamaCppPath model prompt options st
  | Stdout p data =>
      {| processes := processes st;
         in_flight := map (fun r => if is_process p r
                                    then {| req_model := req_model r;
                                            req_process := req_process r;
                                            req_output := req_output r ++ data |}
                                    else r) (in_flight st);
         settled := settled st; spawned := spawned st; killed := killed st |}
  | Close p code => settle p (on_close code) st
  | Failed p message => settle p (fun _ => Throws (JsError message)) st
  | Cleanup =>
      {| processes := ∅; in_flight := in_flight st; settled := settled st;
         spawned := spawned st;
         killed := killed st ++ map snd (map_to_list (processes st)) |}
  end.

Definition run (llamaCppPath : string) (evs : list Event) (st : State) : State :=
  fold_left (fun s ev => step llamaCppPath ev s) evs st.

(** The property the specification text asks for: the handle tracked for
    the model of every request in flight is that request's own process. *)
Definition handles_kept (st : State) : Prop :=
  forall r, In r (in_flight st) ->
            processes st !! id (req_model r) = Some (req_process r).

(** ... and a second request for a model that is busy has no process of
    its own yet. *)
Definition one_process_per_model (st : State) : Prop :=
  forall r1 r2, In r1 (in_flight st) -> In r2 (in_flight st) ->
                id (req_model r1) = id (req_model r2) ->
                req_process r1 = req_process r2.

(** The model [setupModels] registers for [mistral]. *)
Definition mistral : Model :=
  {| id := None; name := "Mistral 7B";
     modelFile := "mistral-7b-instruct-v0.1.Q4_K_M.gguf";
     path := "models/mistral/mistral-7b-instruct-v0.1.Q4_K_M.gguf";
     command := "./main";
     args := ["-m"; "models/mistral/mistral-7b-instruct-v0.1.Q4_K_M.gguf";
              "--ctx-size"; "4096"; "--temp"; "0.7"] |}.

(** The same model had it been given its key as [id]. *)
Definition mistral_with_id : Model :=
  {| id := Some "mistral"; name := name mistral; modelFile := modelFile mistral;
     path := path mistral; command := command mistral; args := args mistral |}.

Definition default_options : RunOptions :=
  {| temperature := None; max_tokens := None |}.

(** The text the specification takes as the reply: what follows the last
    occurrence of the delimiter, when there is one. *)
Definition stated_extraction (output : list ascii)
    (result : Completion (list ascii)) : Prop :=
  (forall before reply,
     output = before ++ delimiter ++ reply -> occurs delimiter reply = false ->
     result = Returns reply) /\
  (occurs delimiter output = false -> exists e, result = Throws e).

End LocalModels.
(** * The local model manager of core/local-model-manager.js *)
Module LocalRunner.
Import JsString.

(** Errors of the model managers: an [ApiError] with its HTTP status and
    code, or a plain [Error]. *)
Inductive Error : Type :=
| ApiError (statusCode : Z) (message : string) (code : string)
| PlainError (message : string).

Definition message_of (e : Error) : string :=
  match e with ApiError _ m _ => m | PlainError m => m end.

Inductive Result (A : Type) : Type :=
| Resolved (a : A)
| Rejected (e : Error).
Arguments Resolved {A} a.
Arguments Rejected {A} e.

Record ModelConfig : Type := {
  name : string;
  model : string;
  path : string;
  args : list string
}.

(** [path.join(a, b)] on plain components. *)
Definition join (a b : string) : string := a +:+ "/" +:+ b.

Inductive Status : Type := ready | not_installed | error.

Definition status_string (s : Status) : string :=
  match s with ready => "ready" | not_installed => "not_installed" | error => "error" end.

(** An entry of [listModels]. *)
Record ModelInfo : Type := {
  info_id : string;
  info_name : string;
  info_status : Status;
  info_path : string;
  info_modelFile : string;
  info_error : option string
}.

Record Options : Type := {
  temperature : option Q;
  top_p : option Q;
  max_tokens : option Q;
  repeat_penalty : option Q
}.

Definition no_options : Options :=
  {| temperature := None; top_p := None; max_tokens := None; repeat_penalty := None |}.

Record Spawn : Type := {
  spawn_command : string;
  spawn_args : list string;
  spawn_cwd : string
}.

(** How a spawned process ends: it closes with an exit code after writing
    to its two output streams, or it cannot be started. *)
Inductive ProcessEnd : Type :=
| Closed (code : option Z) (stdout stderr : list ascii)
| StartFailed (message : string) (stderr : list ascii).

(** The machine the manager runs on.  [fs_access p] is [None] when [p] is
    accessible and the message of the rejection otherwise;
    [number_string] is [String(x)]; [replace_model_path arg p] is
    [arg.replace(/\$\{MODEL_PATH\}/g, p)]. *)
Record Env : Type := {
  cwd : string;
  win32 : bool;
  fs_access : string -> option string;
  number_string : Q -> string;
  replace_model_path : string -> string -> string;
  process_end : Spawn -> ProcessEnd
}.

(** The names every object inherits from [Object.prototype]: a property
    read [this.models[k]] finds a value under them as well. *)
Definition inherited_names : list string :=
  ["constructor"; "toString"; "toLocaleString"; "valueOf"; "hasOwnProperty";
   "isPrototypeOf"; "propertyIsEnumerable"; "__proto__"; "__defineGetter__";
   "__defineSetter__"; "__lookupGetter__"; "__lookupSetter__"].

(** What [this.models[modelId]] evaluates to. *)
Inductive Property : Type :=
| Own (m : ModelConfig)
| Inherited
| Missing.

Section Manager.
Context (env : Env).

Definition modelsDir : string := join (cwd env) "models".
Definition binDir : string := join (cwd env) "bin".
Definition binaryName : string := if win32 env then "main.exe" else "main".
Definition binaryPath : string := join binDir binaryName.

(** local-model-manager.js, lines 13-38, in insertion order. *)
Definition models : list (string * ModelConfig) :=
  [("deepseek-coder",
    {| name := "DeepSeek Coder";
       model := "deepseek-coder-33b-instruct.Q4_K_M.gguf";
       path := join modelsDir "deepseek-coder";
       args := ["-m"; "deepseek-coder-33b-instruct.Q4_K_M.gguf";
                "--ctx-size"; "4096"; "--temp"; "0.7"; "--top-p"; "0.9";
                "--repeat_penalty"; "1.1"] |});
   ("mistral",
    {| name := "Mistral 7B";
       model := "mistral-7b-instruct-v0.1.Q4_K_M.gguf";
       path := join modelsDir "mistral";
       args := ["-m"; "mistral-7b-instruct-v0.1.Q4_K_M.gguf";
                "--ctx-size"; "4096"; "--temp"; "0.7"; "--top-p"; "0.9";
                "--repeat_penalty"; "1.1"] |})].

Definition own_model (modelId : string) : option ModelConfig :=
  snd <$> find (fun kv => String.eqb (fst kv) modelId) models.

Definition get_model (modelId : string) : Property :=
  match own_model modelId with
  | Some m => Own m
  | None => if existsb (String.eqb modelId) inherited_names then Inherited else Missing
  end.

(** local-model-manager.js, lines 41-59.  For an inherited property the
    [path.join] of two [undefined] throws inside the [try]. *)
Definition checkModel (modelId : string) : Result bool :=
  match get_model modelId with
  | Missing => Rejected (PlainError ("Model " +:+ modelId +:+ " not found"))
  | Inherited => Resolved false
  | Own m =>
      match fs_access env binaryPath with
      | Some _ => Resolved false
      | None =>
          match fs_access env (join (path m) (model m)) with
          | Some _ => Resolved false
          | None => Resolved true
          end
      end
  end.

(** local-model-manager.js, lines 65-93. *)
Definition listModels : list ModelInfo :=
  map (fun kv =>
         let m := snd kv in
         let modelPath := join (path m) (model m) in
         let failure :=
           match fs_access env modelPath with
           | Some msg => Some msg
           | None => fs_access env binaryPath
           end in
         {| info_id := fst kv; info_name := name m;
            info_status := match failure with None => ready | Some _ => error end;
            info_path := path m; info_modelFile := model m;
            info_error := match failure with
                          | Some msg => if String.eqb msg EmptyString then None else Some msg
                          | None => None
                          end |}) models.

(** [x || d] on an optional number: [undefined] and [0] are falsy. *)
Definition or_number (x : option Q) (d : Q) : Q :=
  match x with
  | Some q => if Qeq_bool q 0 then d else q
  | None => d
  end.

(** local-model-manager.js, lines 146-152: the handler of [close]. *)
Definition on_close (code : option Z) (output errorOutput : list ascii)
    : Result (list ascii) :=
  match code with
  | Some 0%Z => Resolved (trim output)
  | _ => Rejected (PlainError
           ("Model process exited with code " +:+
            match code with Some z => pretty z | None => "null" end +:+
            String (ascii_of_nat 10) (string_of_list_ascii errorOutput)))
  end.

(** local-model-manager.js, lines 95-168, over the list of processes
    spawned so far.  [process_end] gives what the [data] handlers have
    collected when the process ends; their echo of every chunk to the
    streams of the child (lines 131 and 136, where the local [process]
    hides the global one) is not part of the model. *)
Definition generateResponse (modelId prompt : string) (options : Options)
    (spawned : list Spawn) : Result (list ascii) * list Spawn :=
  match get_model modelId with
  | Missing =>
      (Rejected (PlainError
         ("Model " +:+ modelId +:+ " not found. Available models: " +:+
          String.concat ", " (map fst models))), spawned)
  | found =>
      match checkModel modelId with
      | Rejected e => (Rejected e, spawned)
      | Resolved false =>
          let status :=
            match find (fun m => String.eqb (info_id m) modelId) listModels with
            | Some m => status_string (info_status m)
            | None => "not_found"
            end in
          (Rejected (PlainError
             ("Model " +:+ modelId +:+ " is not available (status: " +:+ status +:+
              "). Run setup first.")), spawned)
      | Resolved true =>
          match found with
          | Own m =>
              let modelPath := join (path m) (model m) in
              let args :=
                args m ++
                ["--temp"; number_string env (or_number (temperature options) (7 # 10));
                 "--top-p"; number_string env (or_number (top_p options) (9 # 10));
                 "--repeat_penalty";
                 number_string env (or_number (repeat_penalty options) (11 # 10));
                 "-p"; prompt] in
              let processedArgs :=
                map (fun arg => if String.eqb arg "-m" then arg
                                else replace_model_path env arg modelPath) args in
              let process := {| spawn_command := binaryPath;
                                spawn_args := processedArgs;
                                spawn_cwd := path m |} in
              (match process_end env process with
               | Closed code output errorOutput => on_close code output errorOutput
               | StartFailed message errorOutput =>
                   Rejected (PlainError
                     ("Failed to start model process: " +:+ message +:+
                      String (ascii_of_nat 10) (string_of_list_ascii errorOutput)))
               end,
               spawned ++ [process])
          | _ => (Rejected (PlainError
                    ("Error generating response: " +:+ typeError_undefined "path")),
                  spawned)
          end
      end
  end.

End Manager.

(** The object that local-model-manager.js exports (line 171) has the
    methods [checkModel], [listModels] and [generateResponse] and no
    [initialize]: the call [this.localModelManager.initialize()] of
    modelManager.js, line 31, throws a [TypeError] with this message inside
    the [try] of line 27. *)
Definition initialize : option string :=
  Some "this.localModelManager.initialize is not a function".

End LocalRunner.

(** * The model manager of core/modelManager.js *)
Module ModelManager.
Import LocalRunner.

(** The manager object and the processes spawned on its behalf. *)
Record State : Type := {
  initialized : bool;
  spawned : list Spawn
}.

(** modelManager.js, lines 7-11. *)
Definition constructor : State := {| initialized := false; spawned := [] |}.

Section Manager.
(** [initialize_failure] is the message of the error with which
    [localModelManager.initialize()] fails, if it does;
    [LocalRunner.initialize] is what it is for the local manager under
    core/. *)
Context (env : Env) (initialize_failure : option string).

(** modelManager.js, lines 17-63. *)
Definition initializeModels (st : State) : Result unit * State :=
  if initialized st then (Resolved tt, st)
  else
    match initialize_failure with
    | Some _ =>
        (Rejected (ApiError 500 "Failed to initialize model manager" "MODEL_INIT_ERROR"),
         st)
    | None =>
        (Resolved tt, {| initialized := true; spawned := spawned st |})
    end.

(** modelManager.js, lines 69-74. *)
Definition listModels (st : State) : Result (list ModelInfo) * State :=
  match initializeModels st with
  | (Resolved _, st') => (Resolved (LocalRunner.listModels env), st')
  | (Rejected e, st') => (Rejected e, st')
  end.

(** The [catch] of modelManager.js, lines 151-169: an [ApiError] is thrown
    again, anything else is wrapped. *)
Definition rethrow (modelId : string) (e : Error) : Error :=
  match e with
  | ApiError _ _ _ => e
  | PlainError m =>
      ApiError 500 ("Error generating response from model " +:+ modelId +:+ ": " +:+ m)
               "GENERATION_ERROR"
  end.

(** modelManager.js, lines 98-170. *)
Definition generateResponse (modelId prompt : string) (options : Options)
    (st : State) : Result (list ascii) * State :=
  match initializeModels st with
  | (Rejected e, st1) => (Rejected e, st1)
  | (Resolved _, st1) =>
      match listModels st1 with
      | (Rejected e, st2) => (Rejected (rethrow modelId e), st2)
      | (Resolved availableModels, st2) =>
          match find (fun m => String.eqb (info_id m) modelId) availableModels with
          | None =>
              (Rejected (ApiError 404
                 ("Model " +:+ dquote +:+ modelId +:+ dquote +:+ " not found")
                 "MODEL_NOT_FOUND"), st2)
          | Some modelInfo =>
              match info_status modelInfo with
              | ready =>
                  match LocalRunner.generateResponse env modelId prompt
                          {| temperature := temperature options;
                             top_p := top_p options;
                             max_tokens := max_tokens options;
                             repeat_penalty := repeat_penalty options |}
                          (spawned st2) with
                  | (Resolved response, sp) =>
                      (Resolved response, {| initialized := initialized st2; spawned := sp |})
                  | (Rejected e, sp) =>
                      (Rejected (rethrow modelId e),
                       {| initialized := initialized st2; spawned := sp |})
                  end
              | status =>
                  (Rejected (ApiError 503
                     ("Model " +:+ dquote +:+ modelId +:+ dquote +:+
                      " is not available (status: " +:+ status_string status +:+ ")")
                     "MODEL_NOT_AVAILABLE"), st2)
              end
          end
      end
  end.

End Manager.

(** The readiness [listModels] reports for an id. *)
Definition readiness (env : Env) (modelId : string) : option Status :=
  info_status <$> find (fun m => String.eqb (info_id m) modelId) (LocalRunner.listModels env).

End ModelManager.
(** * The rest of the Dispatcher: core/grimoire.js *)
Module GrimoireApi.
Import Grimoire.

Section Api.
Context (env : Env).

(** The user record of a [processMessage] call made in state [st]:
    grimoire.js, lines 84-90. *)
Definition user_record (st : State) (text : string) (opts : Options) : Message :=
  {| msg_id := uuidv4 env (uuid_reads st); msg_role := user; msg_content := text;
     msg_timestamp := Date_now env (clock_reads st);
     msg_metadata := Some (default [] (opt_metadata opts));
     msg_isError := false; msg_error := None |}.

(** grimoire.js, lines 232-243: the compatibility entry point.  It uses the
    conversation named by [options.conversationId] when that id is truthy
    and stored, and otherwise creates one from the same options (so a
    truthy id that is not stored names the new conversation). *)
Definition askGrimoire (message : string) (options : Options) : M string :=
  fun st =>
    let existing :=
      match truthy (opt_conversationId options) with
      | Some i => conversations st !! i
      | None => None
      end in
    match match existing with
          | Some conversation => (Returns conversation, st)
          | None => createConversation env (opt_modelId options) options st
          end with
    | (Throws e, st1) => (Throws e, st1)
    | (Returns conversation, st1) =>
        match processMessage env (conv_id conversation) message options st1 with
        | (Returns reply, st2) => (Returns (r_response reply), st2)
        | (Throws e, st2) => (Throws e, st2)
        end
    end.

End Api.

(** The comparator of [listConversations],
    [new Date(b.updatedAt) - new Date(a.updatedAt)], is negative when [a]
    was updated after [b]. *)
Definition newer (a b : Conversation) : bool :=
  (conv_updatedAt b <? conv_updatedAt a)%Z.

(** [array.sort(compare)] is a stable sort; by insertion: [c] goes in front
    of the first element it is not older than, so that it stays in front of
    the elements of equal date that came after it. *)
Fixpoint insert_by_date (c : Conversation) (sorted : list Conversation)
    : list Conversation :=
  match sorted with
  | [] => [c]
  | d :: sorted' => if newer d c then d :: insert_by_date c sorted'
                    else c :: sorted
  end.

Definition sort_by_date (values : list Conversation) : list Conversation :=
  foldr insert_by_date [] values.

(** [array.slice(0, limit)]: a negative [limit] counts from the end. *)
Definition slice_to {X : Type} (limit : Z) (a : list X) : list X :=
  if (limit <? 0)%Z
  then take (Z.to_nat (Z.max (Z.of_nat (length a) + limit) 0)) a
  else take (Z.to_nat limit) a.

(** grimoire.js, lines 254-258, on [Array.from(this.conversations.values())],
    the stored conversations in the order in which their ids were first
    set. *)
Definition listConversations (values : list Conversation) (limit : Z)
    : list Conversation :=
  slice_to limit (sort_by_date values).

(** [a] was updated no earlier than [b]. *)
Definition not_older (a b : Conversation) : Prop :=
  (conv_updatedAt b <= conv_updatedAt a)%Z.

(** Every conversation is stored under its own [id]. *)
Definition well_keyed (st : State) : Prop :=
  forall i c, conversations st !! i = Some c -> conv_id c = i.

End GrimoireApi.
(** * The rest of the concurrency toolkit: utils/asyncUtils.js *)

(** ** series *)
Module Series.

Section Tasks.
(** A task is an async function of no arguments: called and awaited in the
    world [W], it leaves a world behind and returns a value or throws. *)
Context {W A : Type}.

Definition Task : Type := W -> Completion A * W.

(** asyncUtils.js, lines 235-237: the [for] loop, with [results] as it
    stands when the loop reaches [tasks]. *)
Fixpoint loop (tasks : list Task) (results : list A) (w : W)
    : Completion (list A) * W :=
  match tasks with
  | [] => (Returns results, w)
  | task :: rest =>
      match task w with
      | (Returns result, w') => loop rest (results ++ [result]) w'
      | (Throws error, w') => (Throws error, w')
      end
  end.

(** asyncUtils.js, lines 232-240. *)
Definition series (tasks : list Task) : W -> Completion (list A) * W :=
  loop tasks [].

End Tasks.

(** A task that writes its name in a log and answers with it, and one that
    writes its name and fails. *)
Definition logs (name : string) : @Task (list string) string :=
  fun log => (Returns name, log ++ [name]).

Definition fails (name : string) : @Task (list string) string :=
  fun log => (Throws (JsError name), log ++ [name]).

End Series.

(** ** memoize *)
Module Memoize.

Section Memoized.
(** [X] is the type of argument lists of [func], [R] of its results, [K]
    of the cache keys that [resolver] makes of argument lists (strings, for
    the default [JSON.stringify]). *)
Context {X K R : Type} `{Countable K} (resolver : X -> K).

(** The [cache] of one memoized function, and what has come of it:
    [requests] lists the argument lists of the calls made, the promise of
    the [i]-th call is number [i]; [invoked] lists the argument lists
    [func] has been called with; [awaiting] gives for each call of [func]
    that has not settled the caller that awaits it; [promises] holds the
    outcome of every caller's promise that has settled. *)
Record State : Type := {
  cache : gmap K R;
  requests : list X;
  invoked : list X;
  awaiting : gmap nat nat;
  promises : gmap nat (Completion R)
}.

(** asyncUtils.js, lines 333-334. *)
Definition memoize : State :=
  {| cache := ∅; requests := []; invoked := []; awaiting := ∅; promises := ∅ |}.

(** asyncUtils.js, lines 336-344: a call, up to its [await].  A cached key
    is answered from the cache; otherwise [func] is called. *)
Definition call (args : X) (st : State) : State :=
  let caller := length (requests st) in
  match cache st !! resolver args with
  | Some result =>
      {| cache := cache st;
         requests := requests st ++ [args];
         invoked := invoked st;
         awaiting := awaiting st;
         promises := <[caller := Returns result]> (promises st) |}
  | None =>
      {| cache := cache st;
         requests := requests st ++ [args];
         invoked := invoked st ++ [args];
         awaiting := <[length (invoked st) := caller]> (awaiting st);
         promises := promises st |}
  end.

(** asyncUtils.js, lines 344-350: the [k]-th call of [func] settles.  A
    result is stored under the key of that call's arguments and returned;
    an error is thrown on and nothing is stored. *)
Definition settle (k : nat) (outcome : Completion R) (st : State) : State :=
  match awaiting st !! k, invoked st !! k with
  | Some caller, Some args =>
      {| cache := match outcome with
                  | Returns result => <[resolver args := result]> (cache st)
                  | Throws _ => cache st
                  end;
         requests := requests st;
         invoked := invoked st;
         awaiting := delete k (awaiting st);
         promises := <[caller := outcome]> (promises st) |}
  | _, _ => st
  end.

Inductive Event : Type :=
| Call (args : X)
| Settled (k : nat) (outcome : Completion R).

Definition step (ev : Event) (st : State) : State :=
  match ev with
  | Call args => call args st
  | Settled k outcome => settle k outcome st
  end.

Definition run (evs : list Event) (st : State) : State :=
  fold_left (fun s ev => step ev s) evs st.

(** No call of [func] for the key [key] is waiting to settle. *)
Definition quiet (key : K) (st : State) : Prop :=
  forall k args, is_Some (awaiting st !! k) -> invoked st !! k = Some args ->
                 resolver args <> key.

(** Every pending call of [func] is awaited by the caller that made it. *)
Definition linked (st : State) : Prop :=
  forall k caller, awaiting st !! k = Some caller ->
    exists args, invoked st !! k = Some args /\ requests st !! caller = Some args.

(** What a cached key keeps true from a state with [n0] requests and the
    calls [calls0] of [func] for that key: the entry, no pending call for
    the key, no further call of [func] for it, and the cached value as the
    answer to every request for it from number [n0] on. *)
Definition settled_key (key : K) (v : R) (n0 : nat) (calls0 : list X)
    (st : State) : Prop :=
  cache st !! key = Some v /\ quiet key st /\ linked st /\
  filter (fun a => resolver a = key) (invoked st) = calls0 /\
  forall c args, n0 <= c -> requests st !! c = Some args ->
                 resolver args = key -> promises st !! c = Some (Returns v).

End Memoized.

Arguments State : clear implicits.
Arguments State _ _ _ {_ _}.
Arguments Event : clear implicits.

End Memoize.

(** ** throttle *)
Module Throttle.

Section Throttled.
(** [X] is the type of argument lists of [func], [R] of its results;
    [limit] is in milliseconds, as are all times. *)
Context {X R : Type} (limit : nat).

(** The closure state of one throttled function ([inThrottle],
    [lastResult], [waiting], by the number of the caller's promise), and
    what has come of it: [invoked] lists the calls of [func] with the time
    of each; [awaiting] gives for each call of [func] that has not settled
    the caller whose [process] awaits it; [timers] holds the deadlines of
    the live timers; [promises] the outcome of every caller's promise that
    has settled ([None] is [undefined]). *)
Record State : Type := {
  inThrottle : bool;
  lastResult : option R;
  waiting : list nat;
  callers : nat;
  invoked : list (nat * X);
  awaiting : gmap nat nat;
  timers : list nat;
  promises : gmap nat (Completion (option R))
}.

(** asyncUtils.js, lines 283-286. *)
Definition throttle : State :=
  {| inThrottle := false; lastResult := None; waiting := []; callers := 0;
     invoked := []; awaiting := ∅; timers := []; promises := ∅ |}.

(** [resolve(v)] and [reject(e)]: the promise takes the outcome unless it
    has settled already. *)
Definition settle_promise (outcome : Completion (option R))
    (ps : gmap nat (Completion (option R))) (r : nat)
    : gmap nat (Completion (option R)) :=
  match ps !! r with
  | Some _ => ps
  | None => <[r := outcome]> ps
  end.

(** asyncUtils.js, lines 288-299: a call at time [t], up to the [await] in
    [process].  In the throttle period the caller is queued; otherwise the
    period starts and [func] is called. *)
Definition call (t : nat) (args : X) (st : State) : State :=
  if inThrottle st
  then {| inThrottle := inThrottle st; lastResult := lastResult st;
          waiting := waiting st ++ [callers st];
          callers := S (callers st);
          invoked := invoked st; awaiting := awaiting st;
          timers := timers st; promises := promises st |}
  else {| inThrottle := true; lastResult := lastResult st;
          waiting := waiting st;
          callers := S (callers st);
          invoked := invoked st ++ [(t, args)];
          awaiting := <[length (invoked st) := callers st]> (awaiting st);
          timers := timers st; promises := promises st |}.

(** asyncUtils.js, lines 298-318: the [k]-th call of [func] settles at time
    [t].  A result is kept in [lastResult] and resolves the caller, and a
    timer is set; an error rejects the queued callers and the caller, and
    [inThrottle] is left as it is. *)
Definition settle (t k : nat) (outcome : Completion R) (st : State) : State :=
  match awaiting st !! k with
  | Some caller =>
      match outcome with
      | Returns result =>
          {| inThrottle := inThrottle st; lastResult := Some result;
             waiting := waiting st; callers := callers st;
             invoked := invoked st; awaiting := delete k (awaiting st);
             timers := timers st ++ [t + limit];
             promises := settle_promise (Returns (Some result)) (promises st) caller |}
      | Throws error =>
          {| inThrottle := inThrottle st; lastResult := lastResult st;
             waiting := []; callers := callers st;
             invoked := invoked st; awaiting := delete k (awaiting st);
             timers := timers st;
             promises :=
               settle_promise (Throws error)
                 (fold_left (settle_promise (Throws error)) (waiting st) (promises st))
                 caller |}
      end
  | None => st
  end.

(** asyncUtils.js, lines 303-311: the timer callback. *)
Definition later (st : State) : State :=
  {| inThrottle := false; lastResult := lastResult st;
     waiting := []; callers := callers st;
     invoked := invoked st; awaiting := awaiting st;
     timers := timers st;
     promises :=
       fold_left (settle_promise (Returns (lastResult st))) (waiting st) (promises st) |}.

(** The event loop looks at the timers at time [t]: the timers that are
    due run, in the order in which they were set, never before. *)
Definition tick (t : nat) (st : State) : State :=
  let due := List.filter (fun d => d <=? t) (timers st) in
  let live := List.filter (fun d => negb (d <=? t)) (timers st) in
  fold_left (fun s _ => later s) due
    {| inThrottle := inThrottle st; lastResult := lastResult st;
       waiting := waiting st; callers := callers st;
       invoked := invoked st; awaiting := awaiting st;
       timers := live; promises := promises st |}.

Inductive Event : Type :=
| Call (t : nat) (args : X)
| Settled (t k : nat) (outcome : Completion R)
| Tick (t : nat).

Definition time_of (ev : Event) : nat :=
  match ev with
  | Call t _ => t
  | Settled t _ _ => t
  | Tick t => t
  end.

Definition step (ev : Event) (st : State) : State :=
  match ev with
  | Call t args => call t args st
  | Settled t k outcome => settle t k outcome st
  | Tick t => tick t st
  end.

Definition run (evs : list Event) (st : State) : State :=
  fold_left (fun s ev => step ev s) evs st.

(** The events come in the order of their times. *)
Definition chronological (evs : list Event) : Prop :=
  StronglySorted le (map time_of evs).

(** Any two successive calls of [func] are at least [limit] apart. *)
Definition spaced (calls : list (nat * X)) : Prop :=
  forall i t1 a1 t2 a2,
    calls !! i = Some (t1, a1) -> calls !! S i = Some (t2, a2) -> t1 + limit <= t2.

(** The number of [Call] events in a list of events. *)
Definition calls_in (evs : list Event) : nat :=
  length (List.filter (fun ev => match ev with Call _ _ => true | _ => false end) evs).

(** The shape of the states a throttled function goes through: outside the
    throttle period nothing is pending; a live timer and a pending call of
    [func] exclude each other, and there is at most one of either. *)
Definition shape (st : State) : Prop :=
  (inThrottle st = false -> awaiting st = ∅ /\ timers st = []) /\
  (timers st <> [] -> awaiting st = ∅) /\
  length (timers st) <= 1 /\
  (forall k c, awaiting st !! k = Some c -> awaiting st = {[k := c]}).

(** In the throttle period with nothing to end it: no call of [func] is
    pending and no timer is live. *)
Definition closed (st : State) : Prop :=
  inThrottle st = true /\ awaiting st = ∅ /\ timers st = [].

(** What the times of a state obey at time [now]: the calls of [func] are
    spaced and not in the future, the throttle period has not ended before
    [limit] has passed since the last call, and no live timer is due
    before that. *)
Definition on_time (now : nat) (st : State) : Prop :=
  spaced (invoked st) /\
  (forall t a, last (invoked st) = Some (t, a) -> t <= now) /\
  (inThrottle st = false ->
   forall t a, last (invoked st) = Some (t, a) -> t + limit <= now) /\
  (forall d t a, d ∈ timers st -> last (invoked st) = Some (t, a) -> t + limit <= d).

End Throttled.

Arguments State : clear implicits.
Arguments Event : clear implicits.

End Throttle.

(** ** createSemaphore *)
Module Semaphore.

Section Sem.
(** [R] is the type of the results of the functions given to [run]. *)
Context {R : Type} (maxConcurrent : Z).

(** The closure state of one semaphore ([running], [queue], a waiting
    [resolve] by the number of its call of [run]), and where the calls of
    [run] stand: [calls] counts them; [admissions] lists those whose
    [acquire] has resolved, in that order; [pending] holds those among them
    whose [await acquire()] has not resumed yet, [inside] those whose [fn]
    is executing; [promises] the outcome of every call that has ended. *)
Record State : Type := {
  running : Z;
  queue : list nat;
  calls : nat;
  admissions : list nat;
  pending : gset nat;
  inside : gset nat;
  promises : gmap nat (Completion R)
}.

(** asyncUtils.js, lines 359-361. *)
Definition createSemaphore : State :=
  {| running := 0; queue := []; calls := 0; admissions := [];
     pending := ∅; inside := ∅; promises := ∅ |}.

(** asyncUtils.js, lines 363-372, for the call of [run] number [id]. *)
Definition acquire (id : nat) (st : State) : State :=
  if (running st <? maxConcurrent)%Z
  then {| running := running st + 1; queue := queue st; calls := calls st;
          admissions := admissions st ++ [id];
          pending := {[id]} ∪ pending st; inside := inside st;
          promises := promises st |}
  else {| running := running st; queue := queue st ++ [id]; calls := calls st;
          admissions := admissions st;
          pending := pending st; inside := inside st;
          promises := promises st |}.

(** asyncUtils.js, lines 374-381. *)
Definition release (st : State) : State :=
  let running' := (running st - 1)%Z in
  match queue st with
  | next :: rest =>
      if (running' <? maxConcurrent)%Z
      then {| running := running' + 1; queue := rest; calls := calls st;
              admissions := admissions st ++ [next];
              pending := {[next]} ∪ pending st; inside := inside st;
              promises := promises st |}
      else {| running := running'; queue := queue st; calls := calls st;
              admissions := admissions st;
              pending := pending st; inside := inside st;
              promises := promises st |}
  | [] => {| running := running'; queue := queue st; calls := calls st;
             admissions := admissions st;
             pending := pending st; inside := inside st;
             promises := promises st |}
  end.

(** asyncUtils.js, lines 383-384: a new call of [run], up to its
    [await acquire()]. *)
Definition call (st : State) : State :=
  acquire (calls st)
    {| running := running st; queue := queue st; calls := S (calls st);
       admissions := admissions st; pending := pending st; inside := inside st;
       promises := promises st |}.

(** asyncUtils.js, lines 384-386: the call number [id] resumes after
    [await acquire()] and calls [fn]. *)
Definition enter (id : nat) (st : State) : State :=
  if decide (id ∈ pending st)
  then {| running := running st; queue := queue st; calls := calls st;
          admissions := admissions st;
          pending := pending st ∖ {[id]}; inside := {[id]} ∪ inside st;
          promises := promises st |}
  else st.

(** asyncUtils.js, lines 386-389: the [fn] of the call number [id] settles;
    [finally] releases, and the call ends as [fn] did. *)
Definition leave (id : nat) (outcome : Completion R) (st : State) : State :=
  if decide (id ∈ inside st)
  then release
         {| running := running st; queue := queue st; calls := calls st;
            admissions := admissions st;
            pending := pending st; inside := inside st ∖ {[id]};
            promises := <[id := outcome]> (promises st) |}
  else st.

Inductive Event : Type :=
| Run
| Enter (id : nat)
| Leave (id : nat) (outcome : Completion R).

Definition step (ev : Event) (st : State) : State :=
  match ev with
  | Run => call st
  | Enter id => enter id st
  | Leave id outcome => leave id outcome st
  end.

Definition run (evs : list Event) (st : State) : State :=
  fold_left (fun s ev => step ev s) evs st.

(** What the semaphore keeps true: [running] counts the calls that hold a
    slot, never more than [maxConcurrent] of them; a call waits only while
    every slot is held; the calls are let in in the order in which they
    came. *)
Definition fair (st : State) : Prop :=
  running st = Z.of_nat (size (pending st) + size (inside st)) /\
  pending st ## inside st /\
  (running st <= Z.max 0 maxConcurrent)%Z /\
  (queue st <> [] -> (maxConcurrent <= running st)%Z) /\
  admissions st ++ queue st = seq 0 (calls st) /\
  (forall id, id ∈ pending st ∪ inside st -> id ∈ admissions st).

End Sem.

Arguments State : clear implicits.
Arguments Event : clear implicits.

End Semaphore.
(** * Registration and generation in core/localModels.js *)
Module LocalModelsApi.
Import JsString LocalModels.

(** The line feed. *)
Definition newline : string := String (ascii_of_nat 10) EmptyString.

(** A chat message as [generateResponse] receives it. *)
Record ChatMessage : Type := {
  role : string;
  content : string
}.

(** localModels.js, lines 186-188. *)
Definition formatPrompt (messages : list ChatMessage) : string :=
  String.concat newline (map (fun m => role m +:+ ": " +:+ content m) messages)
  +:+ newline +:+ "assistant:".

(** The object [generateResponse] returns: its [model] and the [role] and
    [content] of the message of its one choice. *)
Record Response : Type := {
  resp_model : string;
  resp_role : string;
  resp_content : list ascii
}.

(** localModels.js, lines 164-180: what [generateResponse] makes of the
    outcome of [runModel].  The [catch] reads [error.message]. *)
Definition respond (modelId : string) (outcome : Completion (list ascii))
    : LocalRunner.Result Response :=
  match outcome with
  | Returns response =>
      LocalRunner.Resolved
        {| resp_model := modelId; resp_role := "assistant"; resp_content := response |}
  | Throws (JsError _) =>
      LocalRunner.Rejected
        (LocalRunner.ApiError 500 "Failed to generate response" "GENERATION_ERROR")
  | Throws JsUndefined =>
      LocalRunner.Rejected (LocalRunner.PlainError (typeError_undefined "message"))
  end.

(** localModels.js, lines 155-164: [generateResponse] up to its [await].
    It refuses a model that is not registered, and otherwise runs the model
    on the formatted prompt; the result is the error thrown at once, if
    any, and the state of the manager. *)
Definition generateResponse (llamaCppPath : string) (models : gmap string Model)
    (modelId : string) (messages : list ChatMessage) (options : RunOptions)
    (st : State) : option LocalRunner.Error * State :=
  match models !! modelId with
  | None =>
      (Some (LocalRunner.ApiError 404 ("Model " +:+ modelId +:+ " not found")
               "MODEL_NOT_FOUND"), st)
  | Some model => (None, runModel llamaCppPath model (formatPrompt messages) options st)
  end.

(** An entry of [modelConfigs], as far as [setupModels] and [runModel]
    read it. *)
Record Config : Type := {
  cfg_name : string;
  cfg_modelFile : string;
  cfg_downloadUrl : string;
  cfg_args : list string
}.

(** localModels.js, lines 17-34, in insertion order. *)
Definition modelConfigs : list (string * Config) :=
  [("deepseek-coder",
    {| cfg_name := "DeepSeek Coder";
       cfg_modelFile := "deepseek-coder-33b-instruct.Q4_K_M.gguf";
       cfg_downloadUrl := "https://huggingface.co/TheBloke/deepseek-coder-33B-instruct-GGUF/resolve/main/deepseek-coder-33b-instruct.Q4_K_M.gguf";
       cfg_args := ["-m"; "deepseek-coder-33b-instruct.Q4_K_M.gguf";
                    "--ctx-size"; "4096"; "--temp"; "0.7"] |});
   ("mistral",
    {| cfg_name := "Mistral 7B";
       cfg_modelFile := "mistral-7b-instruct-v0.1.Q4_K_M.gguf";
       cfg_downloadUrl := "https://huggingface.co/TheBloke/Mistral-7B-Instruct-v0.1-GGUF/resolve/main/mistral-7b-instruct-v0.1.Q4_K_M.gguf";
       cfg_args := ["-m"; "mistral-7b-instruct-v0.1.Q4_K_M.gguf";
                    "--ctx-size"; "4096"; "--temp"; "0.7"] |})].

(** The machine [setupModels] runs on: each operation gives [None] when it
    succeeds and the message of its error otherwise. *)
Record Env : Type := {
  modelsPath : string;
  win32 : bool;
  mkdir : string -> option string;
  fs_access : string -> option string;
  downloadModel : string -> string -> option string
}.

Section Setup.
Context (env : Env).

(** localModels.js, lines 115-120: the object stored for a model. *)
Definition registration (config : Config) (modelPath : string) : Model :=
  {| id := None;
     name := cfg_name config;
     modelFile := cfg_modelFile config;
     path := modelPath;
     command := if win32 env then "main.exe" else "./main";
     args := map (fun arg => if String.eqb arg (cfg_modelFile config)
                             then modelPath else arg) (cfg_args config) |}.

(** localModels.js, lines 98-125: one turn of the loop of [setupModels].
    An error is caught and logged, and the model is left out. *)
Definition setupModel (models : gmap string Model) (entry : string * Config)
    : gmap string Model :=
  let (modelId, config) := entry in
  let modelDir := LocalRunner.join (modelsPath env) modelId in
  match mkdir env modelDir with
  | Some _ => models
  | None =>
      let modelPath := LocalRunner.join modelDir (cfg_modelFile config) in
      match fs_access env modelPath with
      | None => <[modelId := registration config modelPath]> models
      | Some _ =>
          match downloadModel env (cfg_downloadUrl config) modelPath with
          | None => <[modelId := registration config modelPath]> models
          | Some _ => models
          end
      end
  end.

(** localModels.js, lines 96-127, from the empty [models] of the
    constructor. *)
Definition setupModels : gmap string Model :=
  fold_left setupModel modelConfigs ∅.

(** The model of a [RunModel] event is one that [setupModels] has
    registered. *)
Definition runs_registered (ev : Event) : Prop :=
  match ev with
  | RunModel model _ _ => exists modelId, setupModels !! modelId = Some model
  | _ => True
  end.

End Setup.

(** A machine on which everything is in place. *)
Definition example_env : Env :=
  {| modelsPath := "models"; win32 := false;
     mkdir := fun _ => None; fs_access := fun _ => None;
     downloadModel := fun _ _ => None |}.

End LocalModelsApi.
(** * The rest of the model manager: core/modelManager.js *)
Module ModelManagerApi.
Import LocalRunner ModelManager.

Section Api.
Context (env : Env) (initialize_failure : option string).

(** modelManager.js, lines 81-86. *)
Definition isModelAvailable (modelId : string) (st : State) : Result bool * State :=
  match initializeModels initialize_failure st with
  | (Resolved _, st') => (checkModel env modelId, st')
  | (Rejected e, st') => (Rejected e, st')
  end.

(** The calls made on a manager, and the manager they leave. *)
Inductive Request : Type :=
| InitializeModels
| ListModels
| IsModelAvailable (modelId : string)
| GenerateResponse (modelId prompt : string) (options : Options).

Definition step (r : Request) (st : State) : State :=
  match r with
  | InitializeModels => snd (initializeModels initialize_failure st)
  | ListModels => snd (ModelManager.listModels env initialize_failure st)
  | IsModelAvailable modelId => snd (isModelAvailable modelId st)
  | GenerateResponse modelId prompt options =>
      snd (ModelManager.generateResponse env initialize_failure modelId prompt options st)
  end.

Definition run (requests : list Request) (st : State) : State :=
  fold_left (fun s r => step r s) requests st.

End Api.

(** The four errors of the model manager, by status and code. *)
Definition manager_error (e : Error) : Prop :=
  exists message,
    e = ApiError 500 message "MODEL_INIT_ERROR" \/
    e = ApiError 404 message "MODEL_NOT_FOUND" \/
    e = ApiError 503 message "MODEL_NOT_AVAILABLE" \/
    e = ApiError 500 message "GENERATION_ERROR".

End ModelManagerApi.
(** * The Dispatcher turn by turn: core/grimoire.js

    [processMessage] is an async function: it runs up to
    [await this.generateResponse(...)], and takes up again in a later turn
    of the event loop; other calls can run in between.  Its local variable
    [conversation] refers to the conversation object it found in the map at
    the start, whatever happens to the map afterwards.  Here the
    conversation objects live in a heap and the map holds references. *)
Module GrimoireTurns.
Import Grimoire.

(** A call of [processMessage] suspended at its [await]: the object its
    [conversation] refers to, its arguments, its [startTime], and what the
    promise of [generateResponse], called on the messages as they were at
    the start, settles with. *)
Record Pending : Type := {
  pend_conversation : nat;
  pend_conversationId : string;
  pend_options : Options;
  pend_startTime : Z;
  pend_response : Completion (option string)
}.

(** The Grimoire object with the heap of conversation objects: [stored] is
    [this.conversations], from id to reference; [pending] holds the
    suspended calls of [processMessage] by the number of the call,
    [outcomes] what the promise of every call that has ended has settled
    with. *)
Record State : Type := {
  objects : list Conversation;
  stored : gmap string nat;
  default_model_id : string;
  uuids : nat;
  clocks : nat;
  pending : gmap nat Pending;
  calls : nat;
  outcomes : gmap nat (Completion Reply)
}.

Definition constructor (default_model_env : option string) : State :=
  {| objects := []; stored := ∅;
     default_model_id := defaultModel (Grimoire.constructor default_model_env);
     uuids := 0; clocks := 0; pending := ∅; calls := 0; outcomes := ∅ |}.

(** The Grimoire object as the calls that run to completion see it: the
    map from id to conversation. *)
Definition view (st : State) : Grimoire.State :=
  {| conversations := omap (fun ref => objects st !! ref) (stored st);
     defaultModel := default_model_id st;
     uuid_reads := uuids st; clock_reads := clocks st |}.

Definition set_objects (f : list Conversation -> list Conversation) (st : State) : State :=
  {| objects := f (objects st); stored := stored st;
     default_model_id := default_model_id st; uuids := uuids st; clocks := clocks st;
     pending := pending st; calls := calls st; outcomes := outcomes st |}.

Definition set_stored (f : gmap string nat -> gmap string nat) (st : State) : State :=
  {| objects := objects st; stored := f (stored st);
     default_model_id := default_model_id st; uuids := uuids st; clocks := clocks st;
     pending := pending st; calls := calls st; outcomes := outcomes st |}.

Definition set_pending (f : gmap nat Pending -> gmap nat Pending) (st : State) : State :=
  {| objects := objects st; stored := stored st;
     default_model_id := default_model_id st; uuids := uuids st; clocks := clocks st;
     pending := f (pending st); calls := calls st; outcomes := outcomes st |}.

(** The promise of the call number [call] settles. *)
Definition settle (call : nat) (outcome : Completion Reply) (st : State) : State :=
  {| objects := objects st; stored := stored st;
     default_model_id := default_model_id st; uuids := uuids st; clocks := clocks st;
     pending := pending st; calls := calls st;
     outcomes := <[call := outcome]> (outcomes st) |}.

Section Turns.
Context (env : Env).

(** [uuidv4()] *)
Definition read_uuid (st : State) : string * State :=
  (uuidv4 env (uuids st),
   {| objects := objects st; stored := stored st;
      default_model_id := default_model_id st; uuids := S (uuids st);
      clocks := clocks st;
      pending := pending st; calls := calls st; outcomes := outcomes st |}).

(** [new Date()] / [Date.now()] *)
Definition read_clock (st : State) : Z * State :=
  (Date_now env (clocks st),
   {| objects := objects st; stored := stored st;
      default_model_id := default_model_id st; uuids := uuids st;
      clocks := S (clocks st);
      pending := pending st; calls := calls st; outcomes := outcomes st |}).

(** [conversation.messages.push(m); conversation.updatedAt = ...] on the
    object [conversation] refers to. *)
Definition push_object (conversation : nat) (m : Message) (st : State) : State :=
  let (updatedAt, st1) := read_clock st in
  set_objects (alter (push_message m updatedAt) conversation) st1.

(** grimoire.js, lines 55-74: a new object is made and the map refers to
    it under the id, in place of what it referred to before. *)
Definition createConversation (modelId : option string) (options : Options)
    (st : State) : Completion Conversation * State :=
  let (conversationId, st1) :=
    match truthy (opt_conversationId options) with
    | Some i => (i, st)
    | None => read_uuid st
    end in
  match registry env !! default (default_model_id st1) (truthy modelId) with
  | None => (Throws (JsError "Model not found"), st1)
  | Some model =>
      let (createdAt, st2) := read_clock st1 in
      let (updatedAt, st3) := read_clock st2 in
      let conversation :=
        {| conv_id := conversationId;
           conv_model := model;
           conv_messages := [];
           conv_metadata :=
             spread (opt_meta "userAgent" (opt_userAgent options) ++
                     opt_meta "ipAddress" (opt_ipAddress options))
                    (default [] (opt_metadata options));
           conv_createdAt := createdAt;
           conv_updatedAt := updatedAt |} in
      (Returns conversation,
       set_stored (insert conversationId (length (objects st3)))
         (set_objects (fun heap => heap ++ [conversation]) st3))
  end.

(** grimoire.js, lines 76-98: [processMessage] up to its [await].  The
    call is number [calls st]. *)
Definition start (conversationId message : string) (options : Options)
    (st : State) : State :=
  let call := calls st in
  let st0 := {| objects := objects st; stored := stored st;
                default_model_id := default_model_id st; uuids := uuids st;
                clocks := clocks st;
                pending := pending st; calls := S (calls st);
                outcomes := outcomes st |} in
  match stored st !! conversationId with
  | None => settle call (Throws (JsError "Conversation not found")) st0
  | Some conversation =>
      let (uid, st1) := read_uuid st0 in
      let (ts, st2) := read_clock st1 in
      let userMessage :=
        {| msg_id := uid; msg_role := user; msg_content := message;
           msg_timestamp := ts;
           msg_metadata := Some (default [] (opt_metadata options));
           msg_isError := false; msg_error := None |} in
      let st3 := push_object conversation userMessage st2 in
      let (startTime, st4) := read_clock st3 in
      set_pending
        (insert call
           {| pend_conversation := conversation;
              pend_conversationId := conversationId;
              pend_options := options;
              pend_startTime := startTime;
              pend_response :=
                match objects st4 !! conversation with
                | Some c => generateResponse env c options
                | None => Throws (JsError (typeError_undefined "messages"))
                end |}) st4
  end.

(** grimoire.js, lines 126-146: the [catch] of [processMessage]. *)
Definition fail (call : nat) (p : Pending) (error : JsThrown) (st : State) : State :=
  let (eid, st1) := read_uuid st in
  match error with
  | JsUndefined => settle call (Throws (JsError (typeError_undefined "message"))) st1
  | JsError m =>
      let (ets, st2) := read_clock st1 in
      let errorMessage :=
        {| msg_id := eid; msg_role := system;
           msg_content := "Error: " +:+ m;
           msg_timestamp := ets;
           msg_metadata := None;
           msg_isError := true;
           msg_error :=
             Some {| error_message := m;
                     error_stack := if development env
                                    then Some (stack_of env m) else None |} |} in
      settle call (Throws error) (push_object (pend_conversation p) errorMessage st2)
  end.

(** grimoire.js, lines 98-146: the call number [call] takes up again after
    its [await]. *)
Definition finish (call : nat) (st : State) : State :=
  match pending st !! call with
  | None => st
  | Some p =>
      let st0 := set_pending (delete call) st in
      match pend_response p with
      | Throws error => fail call p error st0
      | Returns response =>
          let (endTime, st1) := read_clock st0 in
          let (aid, st2) := read_uuid st1 in
          let (ats, st3) := read_clock st2 in
          match response, objects st3 !! pend_conversation p with
          | Some text, Some conversation =>
              let assistantMessage :=
                {| msg_id := aid; msg_role := assistant; msg_content := text;
                   msg_timestamp := ats;
                   msg_metadata :=
                     Some (spread
                             [("model", MStr (model_id (conv_model conversation)));
                              ("processingTimeMs",
                               MNum (inject_Z (endTime - pend_startTime p)));
                              ("tokens", MNum (Z.of_nat (String.length text) # 4))]
                             (default [] (opt_metadata (pend_options p))));
                   msg_isError := false; msg_error := None |} in
              settle call
                (Returns {| r_response := msg_content assistantMessage;
                            r_conversationId := pend_conversationId p;
                            r_model := model_id (conv_model conversation);
                            r_messageId := msg_id assistantMessage;
                            r_timestamp := msg_timestamp assistantMessage;
                            r_metadata := default [] (msg_metadata assistantMessage) |})
                (push_object (pend_conversation p) assistantMessage st3)
          | None, Some _ => fail call p (JsError (typeError_undefined "length")) st3
          | _, None => fail call p (JsError (typeError_undefined "model")) st3
          end
      end
  end.

(** grimoire.js, lines 250-252. *)
Definition deleteConversation (conversationId : string) (st : State) : bool * State :=
  (bool_decide (is_Some (stored st !! conversationId)),
   set_stored (delete conversationId) st).

(** grimoire.js, lines 35-53. *)
Definition cleanupOldConversations (maxAgeHours : Z) (st : State) : nat * State :=
  let (t, st1) := read_clock st in
  let maxAgeMs := (maxAgeHours * 60 * 60 * 1000)%Z in
  let old (ref : nat) :=
    match objects st1 !! ref with
    | Some c => (maxAgeMs <? t - conv_updatedAt c)%Z
    | None => false
    end in
  (size (filter (fun kv => old (snd kv) = true) (stored st1)),
   set_stored (filter (fun kv => old (snd kv) = false)) st1).

(** What a turn of the event loop can bring. *)
Inductive Event : Type :=
| Create (modelId : option string) (options : Options)
| Start (conversationId message : string) (options : Options)
| Finish (call : nat)
| Delete (conversationId : string)
| Cleanup (maxAgeHours : Z).

Definition step (ev : Event) (st : State) : State :=
  match ev with
  | Create modelId options => snd (createConversation modelId options st)
  | Start conversationId message options => start conversationId message options st
  | Finish call => finish call st
  | Delete conversationId => snd (deleteConversation conversationId st)
  | Cleanup maxAgeHours => snd (cleanupOldConversations maxAgeHours st)
  end.

Definition run (evs : list Event) (st : State) : State :=
  fold_left (fun s ev => step ev s) evs st.

End Turns.

(** The number of suspended calls whose [conversation] is the object
    [ref]. *)
Definition waiting_on (ref : nat) (st : State) : nat :=
  size (filter (fun kp => pend_conversation (snd kp) = ref) (pending st)).

(** The heap is in order: the map refers to objects of the heap, to each
    under one id only; a suspended call is one of the calls made, refers to
    an object of the heap, and its response is not the error [undefined]. *)
Definition well_formed (st : State) : Prop :=
  (forall id ref, stored st !! id = Some ref -> ref < length (objects st)) /\
  (forall id1 id2 ref, stored st !! id1 = Some ref -> stored st !! id2 = Some ref ->
                       id1 = id2) /\
  (forall call p, pending st !! call = Some p ->
     call < calls st /\ pend_conversation p < length (objects st) /\
     pend_response p <> Throws JsUndefined).

(** Every object holds two messages for each call on it that has ended and
    one for each call on it that is suspended. *)
Definition balanced (st : State) : Prop :=
  forall ref c, objects st !! ref = Some c ->
    Nat.Even (length (conv_messages c) + waiting_on ref st).

(** The turns of calls that do not overlap: every [processMessage] ends
    before the next call is made.  [n] is the number of the next call of
    [processMessage]. *)
Fixpoint turns_of (n : nat) (cs : list Call) : list Event :=
  match cs with
  | [] => []
  | CreateConversation modelId options :: cs' => Create modelId options :: turns_of n cs'
  | ProcessMessage conversationId message options :: cs' =>
      Start conversationId message options :: Finish n :: turns_of (S n) cs'
  | DeleteConversation conversationId :: cs' => Delete conversationId :: turns_of n cs'
  | CleanupOldConversations maxAgeHours :: cs' => Cleanup maxAgeHours :: turns_of n cs'
  end.

(** Options that name the conversation to create. *)
Definition options_for (conversationId : string) : Options :=
  {| opt_conversationId := Some conversationId; opt_modelId := None;
     opt_userAgent := None; opt_ipAddress := None; opt_metadata := None |}.

End GrimoireTurns.
(** * The error middleware: middleware/errorHandler.js

    [ApiError], which the model managers and the concurrency toolkit
    throw, and the Express error handler that turns an error into the
    response. *)
Module ErrorHandler.

(** [err.code]: a string, or a number as MongoDB gives it. *)
Inductive Code : Type :=
| CodeStr (s : string)
| CodeNum (n : Z).

(** An entry of the [details] of a Joi error. *)
Record JoiDetail : Type := {
  d_message : string;
  d_path : string;
  d_type : string;
  d_context : string
}.

Record JoiError : Type := {
  joi_message : string;
  joi_details : list JoiDetail
}.

(** What the handler tells errors apart by before it looks at their name:
    [isCelebrateError(err)], with the entries of [err.details]; [err
    instanceof ValidationError], with [err.details]; neither. *)
Inductive Kind : Type :=
| Celebrate (segments : list (string * JoiError))
| Joi (details : list JoiDetail)
| Other.

(** An error as the handler reads it.  [details] is [None] when
    [err.details] is [undefined] or falsy, [isOperational] is [false] when
    the property is missing; [statusCode] is the property [ApiError]
    sets. *)
Record Err : Type := {
  kind : Kind;
  name : string;
  message : string;
  code : option Code;
  details : option string;
  isOperational : bool;
  stack : option string;
  statusCode : option Z;
  keyValue : option (list (string * string))
}.

(** errorHandler.js, lines 119-131: [new ApiError(statusCode, message,
    code, details)], with the stack the runtime captures. *)
Definition ApiError (statusCode : Z) (message : string) (code : option string)
    (details : option string) (stack : string) : Err :=
  {| kind := Other;
     name := "Error";
     message := message;
     code := Some (CodeStr match code with
                           | Some c => if String.eqb c EmptyString
                                       then "INTERNAL_SERVER_ERROR" else c
                           | None => "INTERNAL_SERVER_ERROR"
                           end);
     details := details;
     isOperational := true;
     stack := Some stack;
     statusCode := Some statusCode;
     keyValue := None |}.

(** An entry of [details.validation]. *)
Record ValidationEntry : Type := {
  v_segment : option string;
  v_message : string;
  v_details : list JoiDetail
}.

(** The [details] of a response. *)
Inductive Details : Type :=
| Carried (payload : string)
| Validation (validation : list ValidationEntry)
| Duplicate (field value : option string).

(** What [res.status(statusCode).json(...)] sends; [success] is always
    [false]. *)
Record Response : Type := {
  status : Z;
  error_code : Code;
  error_message : string;
  error_details : option Details;
  error_stack : option string;
  timestamp : Z
}.

(** [err.code || 'INTERNAL_SERVER_ERROR'] *)
Definition or_internal (c : option Code) : Code :=
  match c with
  | Some (CodeStr s) =>
      if String.eqb s EmptyString then CodeStr "INTERNAL_SERVER_ERROR" else CodeStr s
  | Some (CodeNum n) => if (n =? 0)%Z then CodeStr "INTERNAL_SERVER_ERROR" else CodeNum n
  | None => CodeStr "INTERNAL_SERVER_ERROR"
  end.

Definition is_duplicate_key (err : Err) : bool :=
  String.eqb (name err) "MongoError" &&
  match code err with Some (CodeNum n) => (n =? 11000)%Z | _ => false end.

(** errorHandler.js, lines 16-107, on an error and [res.statusCode];
    [production] is [process.env.NODE_ENV === 'production'] and [now] the
    time of the response.  [Object.keys(err.keyValue)] throws when the
    duplicate key error carries no [keyValue]. *)
Definition errorHandler (production : bool) (now : Z) (err : Err) (res_statusCode : Z)
    : Completion Response :=
  let statusCode := if (res_statusCode =? 200)%Z then 500%Z else res_statusCode in
  let thrown := Carried <$> details err in
  let classified : Completion (Z * Code * string * option Details) :=
    match kind err with
    | Celebrate segments =>
        Returns (400%Z, CodeStr "VALIDATION_ERROR", "Validation failed",
                 Some (Validation
                         (map (fun entry =>
                                 {| v_segment := Some (fst entry);
                                    v_message := joi_message (snd entry);
                                    v_details := joi_details (snd entry) |})
                              segments)))
    | Joi ds =>
        Returns (400%Z, CodeStr "VALIDATION_ERROR", "Validation failed",
                 Some (Validation [{| v_segment := None; v_message := message err;
                                      v_details := ds |}]))
    | Other =>
        if String.eqb (name err) "CastError"
        then Returns (400%Z, CodeStr "INVALID_INPUT", "Invalid ID format", thrown)
        else if String.eqb (name err) "JsonWebTokenError"
        then Returns (401%Z, CodeStr "UNAUTHORIZED", "Invalid token", thrown)
        else if String.eqb (name err) "TokenExpiredError"
        then Returns (401%Z, CodeStr "TOKEN_EXPIRED", "Token has expired", thrown)
        else if is_duplicate_key err
        then match keyValue err with
             | None => Throws (JsError "Cannot convert undefined or null to object")
             | Some kv =>
                 let field := fst <$> head kv in
                 Returns (409%Z, CodeStr "DUPLICATE_KEY",
                          default "undefined" field +:+ " already exists",
                          Some (Duplicate field
                                  (field ≫= fun f =>
                                     snd <$> find (fun e => String.eqb (fst e) f) kv)))
             end
        else Returns (statusCode, or_internal (code err), message err, thrown)
    end in
  match classified with
  | Throws e => Throws e
  | Returns (statusCode', errorCode, message', details') =>
      let hidden := production && negb (isOperational err) in
      Returns {| status := statusCode';
                 error_code := errorCode;
                 error_message := if hidden then "Something went wrong" else message';
                 error_details := if hidden then None else details';
                 error_stack := if production then None else stack err;
                 timestamp := now |}
  end.

(** An error of the model manager as thrown: the [ApiError] with its
    [details] and stack, or the plain [Error]. *)
Definition thrown_by_manager (e : LocalRunner.Error) (details : option string)
    (stack : string) : Err :=
  match e with
  | LocalRunner.ApiError statusCode message code =>
      ApiError statusCode message (Some code) details stack
  | LocalRunner.PlainError message =>
      {| kind := Other; name := "Error"; message := message; code := None;
         details := None; isOperational := false; stack := Some stack;
         statusCode := None; keyValue := None |}
  end.

End ErrorHandler.
(** * Initialization shared between callers: core/modelManager.js *)
Module ModelManagerInit.
Import LocalRunner.

(** The manager object ([initialized], [initializationPromise], a promise
    by its number) and what has come of the calls of [initializeModels]:
    [started] counts the promises made, each of which has called
    [localModelManager.initialize()] once; [settled] holds the outcome of
    the promises that have settled; [joined] gives for a promise that is
    pending the callers that were handed it; the calls are numbered, and
    [outcomes] holds what the promise of every call that has settled has
    settled with. *)
Record State : Type := {
  initialized : bool;
  initializationPromise : option nat;
  started : nat;
  settled : gmap nat (Result unit);
  joined : gmap nat (list nat);
  callers : nat;
  outcomes : gmap nat (Result unit)
}.

(** modelManager.js, lines 7-11. *)
Definition constructor : State :=
  {| initialized := false; initializationPromise := None; started := 0;
     settled := ∅; joined := ∅; callers := 0; outcomes := ∅ |}.

(** modelManager.js, lines 50-56: the error of the [catch], without its
    [details] (the message and the stack of the cause), which [Error] does
    not carry. *)
Definition init_error : Error :=
  ApiError 500 "Failed to initialize model manager" "MODEL_INIT_ERROR".

(** The caller is handed the promise [promise]. *)
Definition hand (promise caller : nat) (st : State) : State :=
  match settled st !! promise with
  | Some outcome =>
      {| initialized := initialized st;
         initializationPromise := initializationPromise st;
         started := started st; settled := settled st; joined := joined st;
         callers := callers st;
         outcomes := <[caller := outcome]> (outcomes st) |}
  | None =>
      {| initialized := initialized st;
         initializationPromise := initializationPromise st;
         started := started st; settled := settled st;
         joined := <[promise := default [] (joined st !! promise) ++ [caller]]>
                     (joined st);
         callers := callers st;
         outcomes := outcomes st |}
  end.

(** modelManager.js, lines 17-63: a call of [initializeModels], up to the
    first [await] of the promise it makes, if it makes one.  [throws] tells
    how the local manager's [initialize] would behave if called now: it
    throws at once ([true]) or returns a promise ([false]).  When it
    throws, the async function that was to await it runs through its
    [catch] and its [finally] before [initializationPromise] is assigned
    the promise, which has rejected by then. *)
Definition call (throws : bool) (st : State) : State :=
  let caller := callers st in
  let st0 := {| initialized := initialized st;
                initializationPromise := initializationPromise st;
                started := started st; settled := settled st; joined := joined st;
                callers := S (callers st);
                outcomes := outcomes st |} in
  if initialized st
  then {| initialized := initialized st0;
          initializationPromise := initializationPromise st0;
          started := started st0; settled := settled st0; joined := joined st0;
          callers := callers st0;
          outcomes := <[caller := Resolved tt]> (outcomes st0) |}
  else match initializationPromise st with
       | Some promise => hand promise caller st0
       | None =>
           let promise := started st in
           hand promise caller
             {| initialized := initialized st0;
                initializationPromise := Some promise;
                started := S (started st0);
                settled := if throws then <[promise := Rejected init_error]> (settled st0)
                           else settled st0;
                joined := joined st0;
                callers := callers st0;
                outcomes := outcomes st0 |}
       end.

Definition settle_all (outcome : Result unit) (waiting : list nat)
    (outcomes : gmap nat (Result unit)) : gmap nat (Result unit) :=
  fold_left (fun os caller => <[caller := outcome]> os) waiting outcomes.

(** modelManager.js, lines 27-59: the pending promise number [promise]
    runs to its end: [failure] is the message of the error with which the
    promise of the local manager's [initialize] has rejected, if it has.
    [finally] clears [initializationPromise]. *)
Definition settle (promise : nat) (failure : option string) (st : State) : State :=
  match settled st !! promise, joined st !! promise with
  | None, Some waiting =>
      let outcome := match failure with
                     | None => Resolved tt
                     | Some _ => Rejected init_error
                     end in
      {| initialized := match failure with None => true | Some _ => initialized st end;
         initializationPromise := None;
         started := started st;
         settled := <[promise := outcome]> (settled st);
         joined := delete promise (joined st);
         callers := callers st;
         outcomes := settle_all outcome waiting (outcomes st) |}
  | _, _ => st
  end.

Inductive Event : Type :=
| Call (throws : bool)
| Settled (promise : nat) (failure : option string).

Definition step (ev : Event) (st : State) : State :=
  match ev with
  | Call throws => call throws st
  | Settled promise failure => settle promise failure st
  end.

Definition run (evs : list Event) (st : State) : State :=
  fold_left (fun s ev => step ev s) evs st.

(** The number of events in which an initialization fails. *)
Definition rejections (evs : list Event) : nat :=
  length (List.filter (fun ev => match ev with
                                 | Settled _ (Some _) => true
                                 | Call throws => throws
                                 | _ => false
                                 end) evs).

(** The manager is in order: the promise it holds is the last one made; it
    is pending with callers, or it has rejected and stays; nothing is
    pending once the manager holds no promise, and it holds none once it is
    initialized. *)
Definition in_order (st : State) : Prop :=
  match initializationPromise st with
  | Some promise =>
      initialized st = false /\ S promise = started st /\
      ((settled st !! promise = None /\
        exists waiting, joined st = {[promise := waiting]} /\ waiting <> []) \/
       (settled st !! promise = Some (Rejected init_error) /\ joined st = ∅))
  | None => joined st = ∅
  end /\
  (forall promise, is_Some (settled st !! promise) -> promise < started st).

(** The manager holds a promise that has rejected. *)
Definition stuck (st : State) : Prop :=
  exists promise, initializationPromise st = Some promise /\
                  settled st !! promise = Some (Rejected init_error).

End ModelManagerInit.
(** * The Dispatcher on the model manager of core/modelManager.js *)
Module GrimoireWired.
Import Grimoire.

Section Wired.
Context (env : Env).

(** [modelManager.getModel(modelId)], grimoire.js, line 57.  [modelManager]
    is what core/modelManager.js exports (grimoire.js, line 1;
    modelManager.js, line 173): the class [ModelManager], whose methods
    are [initializeModels], [listModels], [isModelAvailable] and
    [generateResponse].  Neither the class nor its prototype has a
    property [getModel], so the call throws a [TypeError]. *)
Definition getModel (modelId : string) : M Model :=
  throw (JsError "modelManager.getModel is not a function").

(** grimoire.js, lines 55-74, on that [getModel]. *)
Definition createConversation (modelId : option string) (options : Options)
    : M Conversation :=
  bind (match truthy (opt_conversationId options) with
        | Some i => ret i
        | None => new_uuid env
        end) (fun conversationId =>
  bind (match truthy modelId with
        | Some m => getModel m
        | None => (fun st => getModel (defaultModel st) st)
        end) (fun model =>
  bind (now env) (fun createdAt =>
  bind (now env) (fun updatedAt =>
  let conversation :=
    {| conv_id := conversationId;
       conv_model := model;
       conv_messages := [];
       conv_metadata :=
         spread (opt_meta "userAgent" (opt_userAgent options) ++
                 opt_meta "ipAddress" (opt_ipAddress options))
                (default [] (opt_metadata options));
       conv_createdAt := createdAt;
       conv_updatedAt := updatedAt |} in
  bind (modify_conversations (insert conversationId conversation)) (fun _ =>
  ret conversation))))).

End Wired.
End GrimoireWired.
(** * Properties of the Dispatcher *)
Section GrimoireFacts.
Import Grimoire.
Context (env : Env).

Lemma generateResponse_throws_error c o e :
  generateResponse env c o = Throws e -> exists m, e = JsError m.
Proof.
  unfold generateResponse.
  destruct (match model_provider (conv_model c) with Some _ => _ | None => _ end)
    as [r|[m|]]; intros H; inversion H; eauto.
Qed.

Lemma alter_alter_present (f g : Conversation -> Conversation)
    (m : gmap string Conversation) (i : string) (c : Conversation) :
  m !! i = Some c -> alter f i (alter g i m) = <[i := f (g c)]> m.
Proof.
  intros H. apply map_eq. intros j.
  destruct (decide (i = j)) as [->|Hne].
  - rewrite lookup_insert_eq, !lookup_alter_eq, H. reflexivity.
  - rewrite lookup_insert_ne, !lookup_alter_ne by assumption. reflexivity.
Qed.

(** One call on a known conversation: the outcome, the two records appended
    and the rest of the map. *)
Lemma processMessage_present st id text opts c :
  conversations st !! id = Some c ->
  exists u r c' out st',
    processMessage env id text opts st = (out, st') /\
    conversations st' = <[id := c']> (conversations st) /\
    conv_messages c' = conv_messages c ++ [u; r] /\
    (msg_role u = user /\ msg_content u = text /\ msg_isError u = false) /\
    ((exists reply, out = Returns reply /\ msg_role r = assistant /\
        msg_isError r = false /\ r_response reply = msg_content r /\
        r_conversationId reply = id /\
        exists t, generateResponse env (push_message u t c) opts
                    = Returns (Some (r_response reply)))
     \/ (exists m, out = Throws (JsError m) /\ msg_role r = system /\
        msg_isError r = true /\ msg_content r = "Error: " +:+ m)).
Proof.
  intros H.
  unfold processMessage, bind, get_conversations. cbn. rewrite H. cbn.
  unfold try_catch, bind. cbn.
  unfold the_conversation. cbn. rewrite lookup_alter_eq, H. cbn.
  unfold lift.
  destruct (generateResponse env _ opts) as [[reply|]|e] eqn:G; cbn.
  - eexists _, _, _, _, _. split; [reflexivity|]. cbn.
    split; [apply alter_alter_present; exact H|]. cbn.
    split; [rewrite <- app_assoc; reflexivity|].
    split; [auto|]. left. eexists. repeat split. eexists. exact G.
  - eexists _, _, _, _, _. split; [reflexivity|]. cbn.
    split; [apply alter_alter_present; exact H|]. cbn.
    split; [rewrite <- app_assoc; reflexivity|].
    split; [auto|]. right. eexists. repeat split.
  - destruct (generateResponse_throws_error _ _ _ G) as [m ->]. cbn.
    eexists _, _, _, _, _. split; [reflexivity|]. cbn.
    split; [apply alter_alter_present; exact H|]. cbn.
    split; [rewrite <- app_assoc; reflexivity|].
    split; [auto|]. right. eexists. repeat split.
Qed.

Lemma processMessage_absent st id text opts :
  conversations st !! id = None ->
  processMessage env id text opts st = (Throws (JsError "Conversation not found"), st).
Proof.
  intros H. unfold processMessage, bind, get_conversations. cbn.
  rewrite H. reflexivity.
Qed.

Lemma createConversation_conversations modelId options st :
  conversations (snd (createConversation env modelId options st)) = conversations st
  \/ exists i c, conv_messages c = [] /\
       conversations (snd (createConversation env modelId options st))
         = <[i := c]> (conversations st).
Proof.
  unfold createConversation, bind.
  destruct (truthy (opt_conversationId options)) as [i|]; cbn;
    (destruct (truthy modelId) as [m|]; cbn; unfold getModel;
     [destruct (registry env !! m) | destruct (registry env !! defaultModel st)];
     cbn; first [left; reflexivity
                | right; eexists _, _; split; [|reflexivity]; reflexivity]).
Qed.

Lemma exec_all_even call st : all_even st -> all_even (exec env call st).
Proof.
  intros Hev. destruct call as [modelId options|id text opts|id|age];
    unfold exec, all_even.
  - destruct (createConversation_conversations modelId options st) as [->|(i & c & Hc & ->)];
      [exact Hev|].
    intros j c'. rewrite lookup_insert. case_decide.
    + intros [= <-]. rewrite Hc. exists 0. reflexivity.
    + apply Hev.
  - destruct (conversations st !! id) as [c|] eqn:H.
    + destruct (processMessage_present st id text opts c H)
        as (u & r & c' & out & st' & -> & Hst & Hm & _). cbn. rewrite Hst.
      intros j c''. rewrite lookup_insert. case_decide.
      * intros [= <-]. rewrite Hm, length_app. cbn.
        destruct (Hev _ _ H) as [k ->]. exists (S k). lia.
      * apply Hev.
    + rewrite (processMessage_absent _ _ _ _ H). exact Hev.
  - cbn. intros j c. destruct (decide (id = j)) as [->|Hne].
    + rewrite lookup_delete_eq. discriminate.
    + rewrite lookup_delete_ne by assumption. apply Hev.
  - cbn. intros j c. rewrite map_lookup_filter_Some. intros [Hj _]. revert Hj. apply Hev.
Qed.

Lemma run_all_even calls st : all_even st -> all_even (run env calls st).
Proof.
  revert st. induction calls as [|call calls IH]; intros st Hev; [exact Hev|].
  apply IH, exec_all_even, Hev.
Qed.

Lemma processMessage_count st id text opts :
  is_Some (conversations st !! id) ->
  is_Some (conversations (exec env (ProcessMessage id text opts) st) !! id) /\
  message_count id (exec env (ProcessMessage id text opts) st) = message_count id st + 2.
Proof.
  intros [c H]. unfold exec.
  destruct (processMessage_present st id text opts c H)
    as (u & r & c' & out & st' & -> & Hst & Hm & _). cbn.
  unfold message_count. rewrite Hst, lookup_insert_eq, H, Hm, length_app. cbn.
  split; [eauto | lia].
Qed.

Lemma process_all_count id inputs st :
  is_Some (conversations st !! id) ->
  message_count id (run env (process_all id inputs) st)
    = message_count id st + 2 * length inputs.
Proof.
  revert st. induction inputs as [|[t o] inputs IH]; intros st Hs; [cbn; lia|].
  destruct (processMessage_count st id t o Hs) as [Hs' Hc].
  change (run env (process_all id ((t, o) :: inputs)) st)
    with (run env (process_all id inputs) (exec env (ProcessMessage id t o) st)).
  rewrite (IH _ Hs'), Hc. cbn [length]. lia.
Qed.

(** C1. For a conversation id present in the store, a call of
    [processMessage] appends exactly one user message and exactly one
    further message, an assistant message when it succeeds and a system
    message marked [isError] when it fails (the user message is recorded in
    both cases); [n] calls add [2 * n] messages, and in every state reached
    from a new Grimoire through its operations each conversation holds an
    even number of messages. *)
Theorem processMessage_appends_user_and_reply st id text opts c :
  conversations st !! id = Some c ->
  appends_user_and_reply env st id text opts c /\
  (forall inputs,
     message_count id (run env (process_all id inputs) st)
       = message_count id st + 2 * length inputs) /\
  (forall d calls j, Nat.Even (message_count j (run env calls (constructor d)))).
Proof.
  intros H. split; [|split].
  - destruct (processMessage_present st id text opts c H)
      as (u & r & c' & out & st' & Hp & Hst & Hm & Hu & [Hr|Hr]);
      exists u, r, c', out, st'; repeat (split; [assumption|]).
    + left. destruct Hr as (reply & ? & ? & ? & ? & _). eauto 10.
    + right. exact Hr.
  - intros inputs. apply process_all_count. eauto.
  - intros d calls j. unfold message_count.
    destruct (conversations (run env calls (constructor d)) !! j) as [cj|] eqn:Hj.
    + eapply run_all_even; [|exact Hj]. intros i ci. cbn.
      rewrite lookup_empty. discriminate.
    + exists 0. reflexivity.
Qed.

(** C8. For a conversation id that is not in the store, [processMessage]
    throws the error [Conversation not found] and the whole Grimoire state
    is what it was: no conversation is created, no message is appended, no
    [updatedAt] moves, and neither the clock nor the id generator is read. *)
Theorem processMessage_unknown_id_is_atomic st id text opts :
  conversations st !! id = None ->
  processMessage env id text opts st
    = (Throws (JsError "Conversation not found"), st).
Proof. apply processMessage_absent. Qed.

(** C2, at the failing input. On the model manager of core/modelManager.js
    every call of [createConversation] throws the [TypeError] of the call
    [modelManager.getModel], once it has chosen the conversation id, and
    stores nothing.  So [createConversation] with the model id [default]
    on a new Grimoire returns no conversation, and [processMessage] with
    the text [Hello] then finds no conversation, whatever id it is
    given. *)
Theorem createConversation_throws_at_getModel :
  (forall modelId options st,
     exists st',
       GrimoireWired.createConversation env modelId options st
         = (Throws (JsError "modelManager.getModel is not a function"), st') /\
       conversations st' = conversations st) /\
  (exists st',
     GrimoireWired.createConversation env (Some "default") no_options (constructor None)
       = (Throws (JsError "modelManager.getModel is not a function"), st') /\
     conversations st' = ∅ /\
     forall id, processMessage env id "Hello" no_options st'
                = (Throws (JsError "Conversation not found"), st')).
Proof.
  split.
  - intros modelId options st. unfold GrimoireWired.createConversation, bind.
    destruct (truthy (opt_conversationId options)) as [i|]; cbn;
      destruct (truthy modelId) as [m|]; cbn; eexists; split; reflexivity.
  - eexists. split; [reflexivity|]. split; [reflexivity|].
    intros id. apply processMessage_absent. reflexivity.
Qed.

End GrimoireFacts.

(** The history test of tests/grimoire.test.js, on a model manager that
    resolves the default model: two messages sent to a new conversation
    leave four records, user and assistant in turn. *)
Example conversation_history_after_two_messages :
  let st0 := Grimoire.run Grimoire.example_env
               [Grimoire.CreateConversation None Grimoire.no_options]
               (Grimoire.constructor None) in
  let st := Grimoire.run Grimoire.example_env
              [Grimoire.ProcessMessage "uuid-" "Hello" Grimoire.no_options;
               Grimoire.ProcessMessage "uuid-" "How are you?" Grimoire.no_options] st0 in
  (map Grimoire.msg_role <$> (Grimoire.conv_messages <$> Grimoire.conversations st !! "uuid-"))
  = Some [Grimoire.user; Grimoire.assistant; Grimoire.user; Grimoire.assistant].
Proof. vm_compute. reflexivity. Qed.

(** A provider that cannot be reached leaves an error record. *)
Example unreachable_provider_leaves_error_record :
  let st := Grimoire.run Grimoire.example_env
              [Grimoire.ProcessMessage "c1" "Hello" Grimoire.no_options]
              (Grimoire.example_state Grimoire.remote_model) in
  (map (fun m => (Grimoire.msg_role m, Grimoire.msg_isError m, Grimoire.msg_content m))
     <$> (Grimoire.conv_messages <$> Grimoire.conversations st !! "c1"))
  = Some [(Grimoire.user, false, "Hello");
          (Grimoire.system, true,
           "Error: Failed to generate response: connect ECONNREFUSED")].
Proof. vm_compute. reflexivity. Qed.

Lemma processMessage_appends_user_and_reply_witness :
  Grimoire.conversations (Grimoire.example_state Grimoire.remote_model) !! "c1"
    = Some (Grimoire.example_conversation Grimoire.remote_model) /\
  Grimoire.appends_user_and_reply Grimoire.example_env
    (Grimoire.example_state Grimoire.remote_model) "c1" "Hello"
    Grimoire.no_options (Grimoire.example_conversation Grimoire.remote_model).
Proof.
  split; [vm_compute; reflexivity|].
  apply (processMessage_appends_user_and_reply Grimoire.example_env
           (Grimoire.example_state Grimoire.remote_model) "c1" "Hello"
           Grimoire.no_options (Grimoire.example_conversation Grimoire.remote_model)).
  vm_compute; reflexivity.
Defined.

Lemma processMessage_unknown_id_is_atomic_witness :
  Grimoire.conversations (Grimoire.example_state Grimoire.default_model) !! "unknown-id"
    = None /\
  Grimoire.processMessage Grimoire.example_env "unknown-id" "Hello" Grimoire.no_options
      (Grimoire.example_state Grimoire.default_model)
    = (Throws (JsError "Conversation not found"),
       Grimoire.example_state Grimoire.default_model).
Proof.
  split; [vm_compute; reflexivity|].
  apply (processMessage_unknown_id_is_atomic Grimoire.example_env).
  vm_compute; reflexivity.
Defined.

(** * Properties of withRetry *)
Section RetryFacts.
Import Retry.

Section Run.
Context {A : Type}.
Context (asyncFunc : Z -> Completion A) (maxRetries : Z) (initialDelay : Q)
        (shouldRetry : JsThrown -> bool) (Math_random : Z -> Q).

(** With [maxRetries >= 1] the run ends with its first attempt: with the
    value of the task, with its error when [shouldRetry] refuses it or no
    retry is left, and otherwise at the call [logger.warn]. *)
Lemma withRetry_first_attempt :
  (1 <= maxRetries)%Z ->
  withRetry asyncFunc maxRetries initialDelay shouldRetry Math_random
  = Some (match asyncFunc 1%Z with
          | Returns v => Returns v
          | Throws e =>
              if negb (shouldRetry e) || (1 =? maxRetries)%Z then Throws e
              else Throws (JsError (typeError_undefined "warn"))
          end, [Invoke 1]).
Proof.
  intros Hmax. unfold withRetry. cbn [loop].
  destruct (Z.leb_spec 1 maxRetries) as [_|Hlt]; [|lia].
  destruct (asyncFunc 1%Z) as [v|e]; [reflexivity|].
  destruct (negb (shouldRetry e) || (1 =? maxRetries)%Z); reflexivity.
Qed.

Lemma withRetry_no_attempt :
  (maxRetries <= 0)%Z ->
  withRetry asyncFunc maxRetries initialDelay shouldRetry Math_random
    = Some (Throws JsUndefined, []).
Proof.
  intros Hmax. unfold withRetry.
  replace (Z.to_nat maxRetries) with 0%nat by lia. cbn.
  destruct (Z.leb_spec 1 maxRetries); [lia|reflexivity].
Qed.

(** C10. With [maxRetries <= 0] the task is never invoked and [withRetry]
    throws [undefined]: the loop body is not entered and [lastError] was
    never assigned. *)
Theorem withRetry_no_attempts_throws_undefined :
  (maxRetries <= 0)%Z ->
  withRetry asyncFunc maxRetries initialDelay shouldRetry Math_random
    = Some (Throws JsUndefined, []).
Proof.
  intros Hmax. unfold withRetry.
  replace (Z.to_nat maxRetries) with 0%nat by lia. cbn.
  destruct (Z.leb_spec 1 maxRetries); [lia|reflexivity].
Qed.

End Run.

(** C3, at the failing input: a task that always fails, [maxRetries = 3],
    [initialDelay = 100] and a [shouldRetry] that accepts every error.
    [withRetry] invokes the task once and throws the [TypeError] of the
    call [logger.warn]: it does not sleep, it makes no second attempt, and
    what it throws is not the error of the task. *)
Theorem withRetry_throws_at_the_warning :
  exists out trace,
    withRetry always_fails 3 (inject_Z 100) always_retry no_jitter = Some (out, trace) /\
    invocations trace = [1%Z] /\
    sleeps trace = [] /\
    out = Throws (JsError "Cannot read properties of undefined (reading 'warn')") /\
    out <> always_fails 3.
Proof.
  eexists _, _. split; [reflexivity|]. split; [reflexivity|]. split; [reflexivity|].
  split; [reflexivity|]. discriminate.
Qed.

Lemma withRetry_no_attempts_throws_undefined_witness :
  (0 <= 0)%Z /\
  withRetry fails_twice 0 (inject_Z 100) always_retry no_jitter
    = Some (Throws JsUndefined, []).
Proof.
  split; [lia|].
  apply (withRetry_no_attempts_throws_undefined fails_twice 0 (inject_Z 100)
           always_retry no_jitter).
  lia.
Defined.

End RetryFacts.
(** * Properties of the string operations *)
Section JsStringFacts.
Import JsString.

Example split_commas :
  split (lit ",") (lit "a,b,,c") = [lit "a"; lit "b"; []; lit "c"].
Proof. reflexivity. Qed.

Example split_trailing_separator :
  split (lit "ab") (lit "xabyab") = [lit "x"; lit "y"; []].
Proof. reflexivity. Qed.

Example trim_both_ends :
  trim (String.list_ascii_of_string (String (ascii_of_nat 10) " hi there " )) = lit "hi there".
Proof. reflexivity. Qed.

Lemma starts_with_app p r : starts_with p (p ++ r) = true.
Proof.
  induction p as [|a p IH]; cbn; [reflexivity|].
  rewrite Ascii.eqb_refl. exact IH.
Qed.

Lemma starts_with_inv p : forall s,
  starts_with p s = true -> s = p ++ drop (length p) s.
Proof.
  induction p as [|a p IH]; intros [|b s]; cbn; try discriminate; try reflexivity.
  intros [Hab Hps]%andb_true_iff. apply Ascii.eqb_eq in Hab as ->.
  f_equal. apply IH, Hps.
Qed.

Lemma starts_with_of_app x : forall sep r1 r2,
  x ++ r1 = sep ++ r2 -> length x <= length sep -> starts_with x sep = true.
Proof.
  induction x as [|a x IH]; intros [|b sep] r1 r2 Heq Hlen; cbn in *;
    try reflexivity; try lia.
  injection Heq as -> Heq. rewrite Ascii.eqb_refl. cbn.
  eapply IH; [exact Heq | lia].
Qed.

Lemma unbordered_spec sep j :
  unbordered sep = true -> 0 < j < length sep ->
  starts_with (drop j sep) sep = false.
Proof.
  unfold unbordered. rewrite forallb_forall. intros H Hj.
  apply negb_true_iff, H, in_seq. lia.
Qed.

(** Two occurrences of an unbordered separator do not overlap. *)
Lemma occurrences_apart sep before reply rest :
  unbordered sep = true ->
  before ++ sep ++ reply = sep ++ rest ->
  before = [] \/ length sep <= length before.
Proof.
  intros Hsep Heq.
  destruct before as [|c before]; [left; reflexivity|]. right.
  destruct (le_lt_dec (length sep) (length (c :: before))) as [Hle|Hlt]; [exact Hle|].
  exfalso.
  assert (Hdrop : sep ++ reply = drop (length (c :: before)) sep ++ rest).
  { rewrite <- (drop_app_length (c :: before) (sep ++ reply)), Heq.
    rewrite drop_app_le by lia. reflexivity. }
  assert (Hs : starts_with (drop (length (c :: before)) sep) sep = true).
  { eapply starts_with_of_app; [symmetry; exact Hdrop|]. rewrite length_drop. lia. }
  rewrite unbordered_spec in Hs; [discriminate | exact Hsep | cbn in *; lia].
Qed.

Lemma split_go_skip sep x : forall cur rest,
  split_go sep (length x) cur (x ++ rest) = split_go sep 0 cur rest.
Proof.
  induction x as [|c x IH]; intros cur rest; [reflexivity|].
  cbn. apply IH.
Qed.

Lemma split_go_nonempty sep : forall s skip cur, split_go sep skip cur s <> [].
Proof.
  induction s as [|c s IH]; intros skip cur; cbn; [discriminate|].
  destruct skip; [|apply IH].
  destruct (starts_with sep (c :: s)); [discriminate | apply IH].
Qed.

Lemma occurs_false_cons sep c s :
  occurs sep (c :: s) = false ->
  starts_with sep (c :: s) = false /\ occurs sep s = false.
Proof. cbn [occurs]. apply orb_false_iff. Qed.

(** Without an occurrence of the separator, [split] returns the string as
    its only piece. *)
Lemma split_go_no_occurrence sep : forall s cur,
  occurs sep s = false -> split_go sep 0 cur s = [rev cur ++ s].
Proof.
  induction s as [|c s IH]; intros cur Hocc.
  - cbn. rewrite app_nil_r. reflexivity.
  - apply occurs_false_cons in Hocc as [Hs Hocc].
    cbn [split_go]. rewrite Hs, (IH _ Hocc). cbn. rewrite <- app_assoc. reflexivity.
Qed.

(** With an unbordered separator, the last piece of [split] is the text
    after the last occurrence. *)
Lemma split_go_last sep :
  unbordered sep = true -> sep <> [] ->
  forall n s cur before reply,
    length s <= n ->
    s = before ++ sep ++ reply -> occurs sep reply = false ->
    last (split_go sep 0 cur s) = Some reply.
Proof.
  intros Hsep Hne. induction n as [|n IH]; intros s cur before reply Hlen Hs Hocc.
  - destruct sep; [congruence|]. subst s. rewrite length_app in Hlen. cbn in Hlen. lia.
  - destruct s as [|c s'].
    { destruct sep; [congruence|]. destruct before; discriminate. }
    cbn [split_go]. destruct (starts_with sep (c :: s')) eqn:Hstart.
    + apply starts_with_inv in Hstart.
      set (rest := drop (length sep) (c :: s')) in *.
      assert (Htail : s' = drop 1 sep ++ rest).
      { destruct sep as [|a sep']; [congruence|]. cbn in Hstart. injection Hstart as _ ->.
        reflexivity. }
      assert (Hskip : length sep - 1 = length (drop 1 sep)) by (rewrite length_drop; lia).
      rewrite Htail, Hskip, split_go_skip, last_cons.
      assert (Heq : before ++ sep ++ reply = sep ++ rest).
      { rewrite <- Hs. exact Hstart. }
      assert (Hrest : last (split_go sep 0 [] rest) = Some reply).
      { destruct (occurrences_apart sep before reply rest Hsep Heq) as [->|Hlong].
        - cbn in Heq. apply app_inv_head in Heq. rewrite <- Heq.
          rewrite split_go_no_occurrence by exact Hocc. reflexivity.
        - assert (Hb : before = sep ++ drop (length sep) before).
          { rewrite <- (take_drop (length sep) before) at 1. f_equal.
            assert (Ht : take (length sep) (before ++ sep ++ reply)
                         = take (length sep) (sep ++ rest)).
            { rewrite Heq. reflexivity. }
            rewrite take_app_le in Ht by lia.
            rewrite take_app_length in Ht. exact Ht. }
          apply (IH rest [] (drop (length sep) before) reply).
          + assert (length (c :: s') = length sep + length rest).
            { rewrite Hstart at 1. apply length_app. }
            destruct sep; [congruence|]. cbn in *. lia.
          + rewrite Hb, <- app_assoc in Heq.
            apply app_inv_head in Heq. symmetry. exact Heq.
          + exact Hocc. }
      rewrite Hrest. reflexivity.
    + destruct before as [|b before].
      { cbn in Hs. rewrite Hs, starts_with_app in Hstart. discriminate. }
      injection Hs as -> Hs.
      apply (IH s' (b :: cur) before reply); [cbn in Hlen; lia | exact Hs | exact Hocc].
Qed.

End JsStringFacts.

(** * Properties of the local process runners *)
Section LocalModelsFacts.
Import JsString LocalModels.

Lemma delimiter_unbordered : unbordered delimiter = true.
Proof. reflexivity. Qed.

Lemma split_last_reply output before reply :
  output = before ++ delimiter ++ reply -> occurs delimiter reply = false ->
  pop (split delimiter output) = Some reply.
Proof.
  intros Hout Hocc. unfold pop, split.
  apply (split_go_last delimiter delimiter_unbordered) with (n := length output) (before := before);
    [discriminate | lia | exact Hout | exact Hocc].
Qed.

(** C4, as the code has it. When the process exits with code 0, the close
    handler of localModels.js returns the text that follows the last
    occurrence of [assistant:] with the white space at both ends removed,
    and when the delimiter does not occur it returns the whole output,
    trimmed, instead of failing; the close handler of
    local-model-manager.js returns the whole output, trimmed. *)
Theorem close_handler_returns_trimmed_reply (output : list ascii) :
  (forall before reply,
     output = before ++ delimiter ++ reply -> occurs delimiter reply = false ->
     on_close (Some 0%Z) output = Returns (trim reply)) /\
  (occurs delimiter output = false ->
     on_close (Some 0%Z) output = Returns (trim output)) /\
  (forall errorOutput,
     LocalRunner.on_close (Some 0%Z) output errorOutput
       = LocalRunner.Resolved (trim output)).
Proof.
  split; [|split].
  - intros before reply Hout Hocc. unfold on_close.
    rewrite (split_last_reply output before reply Hout Hocc). reflexivity.
  - intros Hocc. unfold on_close, split.
    rewrite split_go_no_occurrence by exact Hocc. reflexivity.
  - reflexivity.
Qed.

(** C4, as stated: an output without the delimiter is returned, not
    refused, and the text after the delimiter is returned without the
    white space around it. *)
Lemma close_handler_stated_extraction_counterexample :
  ~ stated_extraction (lit "Hello") (on_close (Some 0%Z) (lit "Hello")) /\
  ~ stated_extraction (lit "assistant: Hi ") (on_close (Some 0%Z) (lit "assistant: Hi ")).
Proof.
  split.
  - intros [_ H]. destruct (H eq_refl) as [e He]. vm_compute in He. discriminate.
  - intros [H _]. specialize (H [] (lit " Hi ") eq_refl eq_refl).
    vm_compute in H. discriminate.
Qed.

Lemma in_flight_below_next path evs :
  forall r, In r (in_flight (run path evs initial)) ->
            req_process r < next_pid (run path evs initial).
Proof.
  unfold run. rewrite <- fold_left_rev_right.
  induction (rev evs) as [|ev evs' IH]; cbn [fold_right]; [intros r []|].
  set (st := fold_right _ _ evs') in *.
  destruct ev as [model prompt options|p data|p code|p message|]; cbn; intros r Hr.
  - unfold next_pid in *. cbn. rewrite length_app. cbn.
    apply in_app_or in Hr as [Hr|[<-|[]]]; [apply IH in Hr; lia | cbn; lia].
  - apply in_map_iff in Hr as (r0 & <- & Hr0). apply IH in Hr0.
    destruct (is_process p r0); exact Hr0.
  - apply list_elem_of_In, list_elem_of_filter in Hr as [_ Hr].
    apply IH, list_elem_of_In, Hr.
  - apply list_elem_of_In, list_elem_of_filter in Hr as [_ Hr].
    apply IH, list_elem_of_In, Hr.
  - apply IH, Hr.
Qed.

(** C5, as the code has it. In every reachable state, [runModel] spawns a
    process at once: it never waits for an earlier request, whether or not
    one is in flight for the same model.  Its request is in flight with
    the new process, which is none of the processes of the requests
    already in flight, and those stay in flight. *)
Theorem runModel_spawns_at_once path evs model prompt options :
  let st := run path evs initial in
  let st' := runModel path model prompt options st in
  length (spawned st') = S (length (spawned st)) /\
  in_flight st' = in_flight st ++
                  [{| req_model := model; req_process := next_pid st; req_output := [] |}] /\
  (forall r, In r (in_flight st) -> req_process r <> next_pid st).
Proof.
  cbn zeta. split; [|split].
  - cbn. rewrite length_app. cbn. lia.
  - reflexivity.
  - intros r Hr Heq. apply in_flight_below_next in Hr. lia.
Qed.

(** C5, as stated: after two requests for the same model, both are in
    flight with a process each, and the handle tracked for the model is the
    second one's (whether or not the model object carries an [id]). *)
Lemma runModel_handle_overwritten_counterexample :
  ~ handles_kept
      (run "llama.cpp" [RunModel mistral "user: a" default_options;
                        RunModel mistral "user: b" default_options] initial) /\
  ~ one_process_per_model
      (run "llama.cpp" [RunModel mistral "user: a" default_options;
                        RunModel mistral "user: b" default_options] initial) /\
  ~ handles_kept
      (run "llama.cpp" [RunModel mistral_with_id "user: a" default_options;
                        RunModel mistral_with_id "user: b" default_options] initial).
Proof.
  split; [|split].
  - intros Hkept.
    specialize (Hkept {| req_model := mistral; req_process := 0; req_output := [] |}).
    cbn in Hkept. specialize (Hkept (or_introl eq_refl)).
    rewrite lookup_insert_eq in Hkept. discriminate.
  - intros Hone.
    specialize (Hone {| req_model := mistral; req_process := 0; req_output := [] |}
                     {| req_model := mistral; req_process := 1; req_output := [] |}).
    cbn in Hone.
    specialize (Hone (or_introl eq_refl) (or_intror (or_introl eq_refl)) eq_refl).
    discriminate.
  - intros Hkept.
    specialize (Hkept {| req_model := mistral_with_id; req_process := 0;
                         req_output := [] |}).
    cbn in Hkept. specialize (Hkept (or_introl eq_refl)).
    rewrite lookup_insert_eq in Hkept. discriminate.
Qed.

End LocalModelsFacts.

Lemma close_handler_returns_trimmed_reply_witness :
  LocalModels.on_close (Some 0%Z) (JsString.lit "user: Hi assistant: Hello there. ")
  = Returns (JsString.lit "Hello there.").
Proof.
  apply (proj1 (close_handler_returns_trimmed_reply
                  (JsString.lit "user: Hi assistant: Hello there. "))
           (JsString.lit "user: Hi ") (JsString.lit " Hello there. "));
    reflexivity.
Defined.

Lemma runModel_spawns_at_once_witness :
  let st := LocalModels.run "llama.cpp"
              [LocalModels.RunModel LocalModels.mistral "user: a" LocalModels.default_options]
              LocalModels.initial in
  let st' := LocalModels.runModel "llama.cpp" LocalModels.mistral "user: b"
               LocalModels.default_options st in
  length (LocalModels.spawned st') = 2 /\
  map LocalModels.req_process (LocalModels.in_flight st') = [0; 1].
Proof.
  destruct (runModel_spawns_at_once "llama.cpp"
              [LocalModels.RunModel LocalModels.mistral "user: a" LocalModels.default_options]
              LocalModels.mistral "user: b" LocalModels.default_options)
    as (Hspawned & Hflight & _).
  split.
  - exact Hspawned.
  - cbn zeta. rewrite Hflight. reflexivity.
Defined.
(** * Properties of the model managers *)
Section ModelManagerFacts.
Import LocalRunner ModelManager ModelManagerApi.
Context (env : Env).

Lemma readiness_own modelId :
  readiness env modelId
  = (fun m => match match fs_access env (join (path m) (model m)) with
                    | Some msg => Some msg
                    | None => fs_access env (binaryPath env)
                    end with
              | None => ready
              | Some _ => error
              end) <$> own_model env modelId.
Proof.
  unfold readiness, LocalRunner.listModels, own_model.
  generalize (models env) as ms.
  induction ms as [|[k m] ms IH]; [reflexivity|]. simpl.
  destruct (String.eqb k modelId); [reflexivity|exact IH].
Qed.

Lemma ready_checkModel modelId :
  checkModel env modelId = Resolved true <-> readiness env modelId = Some ready.
Proof.
  rewrite readiness_own. unfold checkModel, get_model.
  destruct (own_model env modelId) as [m|].
  - cbn. destruct (fs_access env (binaryPath env)) as [e1|];
      destruct (fs_access env (join (path m) (model m))) as [e2|];
      split; congruence.
  - destruct (existsb (String.eqb modelId) inherited_names);
      cbn; split; intros Heq; discriminate Heq.
Qed.

(** The status the local manager names when it refuses a model that is not
    ready. *)
Lemma refused_status modelId :
  checkModel env modelId = Resolved false ->
  match find (fun m => String.eqb (info_id m) modelId) (LocalRunner.listModels env) with
  | Some m => status_string (info_status m)
  | None => "not_found"
  end
  = match own_model env modelId with Some _ => "error" | None => "not_found" end.
Proof.
  intros Hcheck. pose proof (readiness_own modelId) as Hr. unfold readiness in Hr.
  destruct (find _ (LocalRunner.listModels env)) as [info|];
    destruct (own_model env modelId) as [m|] eqn:Hown; try discriminate Hr;
    [|reflexivity].
  cbn in Hr. injection Hr as Hr. rewrite Hr.
  unfold checkModel, get_model in Hcheck. rewrite Hown in Hcheck.
  destruct (fs_access env (binaryPath env)) as [e1|];
    destruct (fs_access env (join (path m) (model m))) as [e2|];
    try reflexivity. discriminate Hcheck.
Qed.

(** On the local manager under core/, a manager that is not initialized
    fails to initialize and stays as it is. *)
Lemma initializeModels_fails st :
  initialized st = false ->
  initializeModels LocalRunner.initialize st
  = (Rejected (ApiError 500 "Failed to initialize model manager" "MODEL_INIT_ERROR"), st).
Proof. intros Hinit. unfold initializeModels. rewrite Hinit. reflexivity. Qed.

Lemma step_uninitialized r st :
  initialized st = false -> step env LocalRunner.initialize r st = st.
Proof.
  intros Hinit. pose proof (initializeModels_fails st Hinit) as Hfail.
  destruct r as [| |modelId|modelId prompt options]; cbn [step].
  - rewrite Hfail. reflexivity.
  - unfold ModelManager.listModels. rewrite Hfail. reflexivity.
  - unfold isModelAvailable. rewrite Hfail. reflexivity.
  - unfold ModelManager.generateResponse. rewrite Hfail. reflexivity.
Qed.

Lemma run_constructor requests :
  run env LocalRunner.initialize requests constructor = constructor.
Proof.
  unfold run. induction requests as [|r requests IH]; [reflexivity|].
  cbn [fold_left]. rewrite step_uninitialized by reflexivity. exact IH.
Qed.

(** C6, on the managers under core/. Whatever calls came before and
    whatever the model id, [generateResponse] of the model manager fails
    with the [ApiError] 500 [MODEL_INIT_ERROR], before it looks for the
    model: it never gives the 404 [MODEL_NOT_FOUND] or the 503
    [MODEL_NOT_AVAILABLE] of lines 108-128, and no process is spawned.
    The local manager tells the two cases apart: it refuses an id that is
    no property of its models with [not found], and a model that is not
    ready with [is not available], and spawns no process either. *)
Theorem generateResponse_fails_at_initialization requests modelId prompt options :
  let st := run env LocalRunner.initialize requests constructor in
  ModelManager.generateResponse env LocalRunner.initialize modelId prompt options st
    = (Rejected (ApiError 500 "Failed to initialize model manager" "MODEL_INIT_ERROR"),
       st) /\
  spawned st = [] /\
  (forall sp, get_model env modelId = Missing ->
     LocalRunner.generateResponse env modelId prompt options sp
     = (Rejected (PlainError
          ("Model " +:+ modelId +:+
           " not found. Available models: deepseek-coder, mistral")), sp)) /\
  (forall sp, get_model env modelId <> Missing ->
     checkModel env modelId = Resolved false ->
     LocalRunner.generateResponse env modelId prompt options sp
     = (Rejected (PlainError
          ("Model " +:+ modelId +:+ " is not available (status: " +:+
           match own_model env modelId with Some _ => "error" | None => "not_found" end
           +:+ "). Run setup first.")), sp)).
Proof.
  cbn zeta. rewrite run_constructor. split; [|split; [|split]].
  - unfold ModelManager.generateResponse.
    rewrite initializeModels_fails by reflexivity. reflexivity.
  - reflexivity.
  - intros sp Hmissing. unfold LocalRunner.generateResponse. rewrite Hmissing.
    reflexivity.
  - intros sp Hfound Hcheck. unfold LocalRunner.generateResponse.
    rewrite Hcheck, (refused_status modelId Hcheck).
    destruct (get_model env modelId); [reflexivity|reflexivity|congruence].
Qed.

End ModelManagerFacts.

(** The first call on a new manager, for a model that does not exist. *)
Example generateResponse_unknown_model_on_a_new_manager env :
  ModelManager.generateResponse env LocalRunner.initialize "gpt-4" "Hi"
    LocalRunner.no_options ModelManager.constructor
  = (LocalRunner.Rejected
       (LocalRunner.ApiError 500 "Failed to initialize model manager" "MODEL_INIT_ERROR"),
     ModelManager.constructor).
Proof. reflexivity. Qed.
(** * Properties of parallelLimit *)
Section ParallelLimitFacts.
Import ParallelLimit.

Example parallelLimit_three_tasks_two_at_a_time :
  let tasks := [Returns "a"; Returns "b"; Returns "c"] in
  mode (exec tasks 2 [1; 0; 0; 1; 0; 0; 0] (parallelLimit tasks 2))
  = Done (Returns ["a"; "b"; "c"]).
Proof. vm_compute. reflexivity. Qed.

Lemma filter_ne_id x (a : list nat) :
  x ∉ a -> filter (fun i => i <> x) a = a.
Proof.
  induction a as [|z a IH]; intros Hx; [reflexivity|].
  apply not_elem_of_cons in Hx as [Hz Hx].
  rewrite filter_cons_True by congruence. f_equal. apply IH, Hx.
Qed.

Lemma indexOf_delete x (a : list nat) :
  NoDup a -> x ∈ a ->
  exists k, indexOf x a = Some k /\ delete k a = filter (fun i => i <> x) a.
Proof.
  induction a as [|y a IH]; intros Hnd Hin; [inversion Hin|].
  apply NoDup_cons in Hnd as [Hy Hnd]. cbn [indexOf].
  destruct (Nat.eqb_spec y x) as [->|Hne].
  - exists 0. split; [reflexivity|]. cbn [delete list_delete].
    rewrite filter_cons_False by (intros H; apply H; reflexivity).
    symmetry. apply filter_ne_id, Hy.
  - apply elem_of_cons in Hin as [->|Hin]; [congruence|].
    destruct (IH Hnd Hin) as (k & -> & Hk). exists (S k). split; [reflexivity|].
    cbn [delete list_delete]. rewrite filter_cons_True by congruence.
    f_equal. exact Hk.
Qed.

Lemma splice_own_filter x (a : list nat) :
  NoDup a -> x ∈ a -> splice_own x a = filter (fun i => i <> x) a.
Proof.
  intros Hnd Hin. unfold splice_own.
  destruct (indexOf_delete x a Hnd Hin) as (k & -> & Hk). exact Hk.
Qed.

Lemma array_set_next k : array_set k k (seq 0 k) = seq 0 (S k).
Proof.
  unfold array_set. rewrite length_seq, Nat.ltb_irrefl, seq_S. reflexivity.
Qed.

Lemma seq_uncons index rest k n :
  index :: rest = seq k n -> index = k /\ rest = seq (S k) (n - 1) /\ 0 < n.
Proof.
  destruct n as [|n]; [discriminate|]. cbn. intros [= -> ->].
  rewrite Nat.sub_0_r. repeat split. lia.
Qed.

Section Run.
Context {A : Type} (tasks : list (Completion A)) (concurrency : Z).
Hypothesis Hconcurrency : (1 <= concurrency)%Z.

Local Abbreviation limited := (limited tasks concurrency).
Local Abbreviation launch := (launch tasks concurrency).
Local Abbreviation loop := (loop tasks concurrency).
Local Abbreviation Core := (Core tasks concurrency).
Local Abbreviation Looping := (Looping tasks concurrency).
Local Abbreviation Inv := (Inv tasks concurrency).
Local Abbreviation mode_ok := (mode_ok tasks concurrency).
Local Abbreviation entries_left := (entries_left tasks).

Lemma launch_results (st : State A) :
  results st = seq 0 (length (results st)) ->
  results (launch (length (results st)) st) = seq 0 (S (length (results st))).
Proof.
  intros Hres. cbn. generalize (length (results st)) Hres. intros k ->.
  apply array_set_next.
Qed.

(** Launching the next task keeps the arrays and promises consistent. *)
Lemma launch_core (st : State A) :
  Core st -> length (results st) < length tasks ->
  Core (launch (length (results st)) st) /\
  length (results (launch (length (results st)) st)) = S (length (results st)).
Proof.
  intros HC Hlt. pose proof (launch_results st (core_results _ _ _ HC)) as Hres.
  set (k := length (results st)) in *.
  assert (Hlen : length (results (launch k st)) = S k).
  { rewrite Hres, length_seq. reflexivity. }
  assert (Hfresh : settled st !! k = None).
  { destruct (settled st !! k) as [o|] eqn:Ho; [|reflexivity].
    apply (core_settled _ _ _ HC) in Ho as [_ Ho]. fold k in Ho. lia. }
  split; [|exact Hlen]. constructor; rewrite ?Hlen.
  - exact Hres.
  - lia.
  - cbn. apply NoDup_app. split; [apply (core_in_flight_NoDup _ _ _ HC)|].
    split; [|apply NoDup_singleton].
    intros j Hj ->%list_elem_of_singleton.
    apply (core_in_flight _ _ _ HC) in Hj as [Hj _]. fold k in Hj. lia.
  - intros j. cbn. rewrite elem_of_app, list_elem_of_singleton.
    rewrite (core_in_flight _ _ _ HC). fold k. split.
    + intros [[Hj Hs]| ->]; split; [lia|exact Hs|lia|exact Hfresh].
    + intros [Hj Hs]. destruct (decide (j = k)) as [->|Hne]; [right; reflexivity|].
      left. split; [lia|exact Hs].
  - intros j o Ho. cbn in Ho. apply (core_settled _ _ _ HC) in Ho as [Ht Hj].
    fold k in Hj. split; [exact Ht|lia].
  - cbn. destruct limited; [|apply (core_executing_NoDup _ _ _ HC)].
    apply NoDup_app. split; [apply (core_executing_NoDup _ _ _ HC)|].
    split; [|apply NoDup_singleton].
    intros j Hj ->%list_elem_of_singleton.
    apply (core_executing _ _ _ HC) in Hj as (_ & Hj & _). fold k in Hj. lia.
  - intros j. cbn. pose proof (core_executing _ _ _ HC j) as Hex. fold k in Hex.
    destruct limited eqn:Hlim.
    + rewrite elem_of_app, list_elem_of_singleton, Hex. split.
      * intros [(_ & Hj & Hs)| ->]; (split; [reflexivity|]); split;
          [lia|exact Hs|lia|]. intros v. rewrite Hfresh. discriminate.
      * intros (_ & Hj & Hs). destruct (decide (j = k)) as [->|Hne]; [right; reflexivity|].
        left. repeat split; [lia|exact Hs].
    + rewrite Hex. split; intros [Hl _]; discriminate.
Qed.

Lemma Core_set_mode m (st : State A) : Core st -> Core (set_mode m st).
Proof. intros []. constructor; assumption. Qed.

Lemma loop_cons index rest (st : State A) :
  loop (index :: rest) st
  = if limited && (concurrency <=? Z.of_nat (length (executing (launch index st))))%Z
    then set_mode (AwaitRace (first_settled (executing (launch index st))
                                            (settled (launch index st))) rest)
                  (launch index st)
    else loop rest (launch index st).
Proof.
  cbn [ParallelLimit.loop]. unfold ParallelLimit.launch.
  destruct limited; reflexivity.
Qed.

Lemma first_rejected_ok (st : State A) :
  Core st ->
  match first_rejected (results st) (settled st) with
  | None => forall j err, settled st !! j <> Some (Throws err)
  | Some err => exists j, tasks !! j = Some (Throws err)
  end.
Proof.
  intros HC. unfold first_rejected.
  destruct (find (has_rejected (settled st)) (results st)) as [i|] eqn:Hfind.
  - apply find_some in Hfind as [_ Hi]. unfold has_rejected in Hi.
    destruct (settled st !! i) as [[v|err]|] eqn:Hs; try discriminate.
    exists i. apply (core_settled _ _ _ HC), Hs.
  - intros j err Hs. pose proof (core_settled _ _ _ HC _ _ Hs) as [_ Hj].
    assert (Hin : In j (results st)).
    { rewrite (core_results _ _ _ HC). apply in_seq. lia. }
    pose proof (find_none _ _ Hfind j Hin) as Hno.
    unfold has_rejected in Hno. rewrite Hs in Hno. discriminate.
Qed.

Lemma first_settled_ok (st : State A) :
  Core st -> executing st <> [] ->
  match first_settled (executing st) (settled st) with
  | None => (forall j, j ∈ executing st -> settled st !! j = None) /\
            executing st <> []
  | Some (Returns _) => False
  | Some (Throws err) => exists j, tasks !! j = Some (Throws err)
  end.
Proof.
  intros HC Hne. unfold first_settled.
  destruct (find _ (executing st)) as [i|] eqn:Hfind.
  - apply find_some in Hfind as [Hi Hs]. apply list_elem_of_In in Hi.
    apply bool_decide_eq_true in Hs as [o Hs]. rewrite Hs.
    destruct o as [v|err].
    + apply (core_executing _ _ _ HC) in Hi as (_ & _ & Hi). exact (Hi v Hs).
    + exists i. apply (core_settled _ _ _ HC), Hs.
  - split; [|exact Hne]. intros j Hj%list_elem_of_In.
    pose proof (find_none _ _ Hfind j Hj) as Hs.
    apply bool_decide_eq_false in Hs.
    destruct (settled st !! j); [exfalso; apply Hs; eauto | reflexivity].
Qed.

(** Running the loop from a consistent state suspends in a consistent
    state, and launches what it takes from the entries. *)
Lemma loop_inv rest : forall st : State A,
  Looping rest st ->
  Inv (loop rest st) /\
  measure (loop rest st) <= 3 * length rest + 2 * length (in_flight st) + 1.
Proof.
  induction rest as [|index rest IH]; intros st (HC & Hrest & Hroom).
  - cbn [ParallelLimit.loop]. split; [|cbn; lia].
    split; [apply Core_set_mode, HC|]. split; [cbn; lia|].
    unfold ParallelLimit.mode_ok. cbn. split.
    + symmetry in Hrest. unfold ParallelLimit.entries_left in Hrest.
      apply (f_equal length) in Hrest. rewrite length_seq in Hrest. cbn in Hrest.
      pose proof (core_launched _ _ _ HC). lia.
    + apply first_rejected_ok, HC.
  - unfold ParallelLimit.entries_left in Hrest.
    apply seq_uncons in Hrest as (-> & Hrest & Hpos).
    destruct (launch_core st HC) as [HC' Hlen]; [lia|].
    rewrite loop_cons.
    assert (Hex : executing (launch (length (results st)) st)
                  = if limited then executing st ++ [length (results st)]
                    else executing st) by reflexivity.
    assert (Hin : length (in_flight (launch (length (results st)) st))
                  = S (length (in_flight st))).
    { cbn. rewrite length_app. cbn. lia. }
    set (st' := launch (length (results st)) st) in *. clearbody st'.
    assert (Hleft : rest = entries_left st').
    { unfold ParallelLimit.entries_left. rewrite Hlen, Hrest. f_equal. lia. }
    destruct (limited && (concurrency <=? Z.of_nat (length (executing st')))%Z) eqn:Hfull.
    + apply andb_true_iff in Hfull as [Hlim Hfull]. rewrite Hlim in Hex.
      split; [|unfold ParallelLimit.measure; cbn; rewrite Hin; lia].
      split; [apply Core_set_mode, HC'|]. split.
      * cbn. rewrite Hex, length_app. cbn. lia.
      * unfold ParallelLimit.mode_ok. cbn. split; [exact Hleft|].
        assert (Hne : executing st' <> []).
        { rewrite Hex. intros Heq. apply app_eq_nil in Heq as [_ Heq]. discriminate. }
        pose proof (first_settled_ok st' HC' Hne) as Hfs.
        destruct (first_settled (executing st') (settled st')) as [[[]|err]|];
          [contradiction | exact Hfs | exact Hfs].
    + destruct (IH st') as [HI Hm].
      * split; [exact HC'|]. split; [exact Hleft|].
        apply andb_false_iff in Hfull as [Hlim|Hfull].
        -- rewrite Hex, Hlim. exact Hroom.
        -- apply Z.leb_gt in Hfull. exact Hfull.
      * split; [exact HI|]. rewrite Hin in Hm. cbn [length]. lia.
Qed.

Lemma parallelLimit_inv :
  Inv (parallelLimit tasks concurrency) /\
  measure (parallelLimit tasks concurrency) <= 3 * length tasks + 1.
Proof.
  unfold parallelLimit.
  destruct (loop_inv (seq 0 (length tasks))
              {| results := []; executing := []; in_flight := []; settled := ∅;
                 mode := AwaitAll None |}) as [HI Hm].
  - split; [|split].
    + constructor; cbn; try reflexivity; try lia; try apply NoDup_nil_2.
      * intros j. rewrite elem_of_nil. split; [contradiction | lia].
      * intros j o. rewrite lookup_empty. discriminate.
      * intros j. rewrite elem_of_nil. split; [contradiction | lia].
    + unfold ParallelLimit.entries_left. cbn. rewrite Nat.sub_0_r. reflexivity.
    + cbn. lia.
  - split; [exact HI|]. rewrite length_seq in Hm. cbn in Hm. lia.
Qed.

Lemma in_flight_task (st : State A) j :
  Core st -> j ∈ in_flight st ->
  exists o, tasks !! j = Some o /\ settled st !! j = None /\
            j < length (results st) /\ (limited = true -> j ∈ executing st).
Proof.
  intros HC Hj. apply (core_in_flight _ _ _ HC) in Hj as [Hk Hs].
  pose proof (core_launched _ _ _ HC) as Hn.
  destruct (lookup_lt_is_Some_2 tasks j) as [o Ho]; [lia|].
  exists o. repeat split; try assumption.
  intros Hlim. apply (core_executing _ _ _ HC). repeat split; try assumption.
  intros v. rewrite Hs. discriminate.
Qed.

(** A task that settles leaves the arrays and promises consistent; it
    leaves [in_flight], and [executing] too when it fulfils. *)
Lemma settle_core (st : State A) j o :
  Core st -> j ∈ in_flight st -> tasks !! j = Some o ->
  Core (settle tasks concurrency j st) /\
  results (settle tasks concurrency j st) = results st /\
  settled (settle tasks concurrency j st) = <[j := o]> (settled st) /\
  length (in_flight (settle tasks concurrency j st)) < length (in_flight st) /\
  length (executing (settle tasks concurrency j st)) <= length (executing st) /\
  (limited = true -> (exists v, o = Returns v) ->
   length (executing (settle tasks concurrency j st)) < length (executing st)).
Proof.
  intros HC Hj Ho.
  destruct (in_flight_task st j HC Hj) as (o' & Ho' & Hs & Hk & Hex).
  rewrite Ho in Ho'. injection Ho' as <-.
  assert (Hexec : executing (settle tasks concurrency j st)
                  = match o with
                    | Returns _ => if limited then filter (fun i => i <> j) (executing st)
                                   else executing st
                    | Throws _ => executing st
                    end).
  { unfold settle. rewrite Ho. cbn. destruct o as [v|err]; [|reflexivity].
    destruct limited eqn:Hlim; [|reflexivity].
    apply splice_own_filter; [apply (core_executing_NoDup _ _ _ HC) | apply Hex; reflexivity]. }
  assert (Hflight : in_flight (settle tasks concurrency j st)
                    = filter (fun i => i <> j) (in_flight st)).
  { unfold settle. rewrite Ho. reflexivity. }
  assert (Hres : results (settle tasks concurrency j st) = results st).
  { unfold settle. rewrite Ho. reflexivity. }
  assert (Hset : settled (settle tasks concurrency j st) = <[j := o]> (settled st)).
  { unfold settle. rewrite Ho. reflexivity. }
  split; [|split; [exact Hres|split; [exact Hset|split; [|split]]]].
  - constructor; rewrite ?Hres, ?Hset, ?Hflight.
    + apply (core_results _ _ _ HC).
    + apply (core_launched _ _ _ HC).
    + apply NoDup_filter, (core_in_flight_NoDup _ _ _ HC).
    + intros i. rewrite list_elem_of_filter, (core_in_flight _ _ _ HC), lookup_insert.
      destruct (decide (j = i)) as [<-|Hne]; split.
      * intros [Hjj _]. congruence.
      * intros [_ Hd]. discriminate.
      * intros [_ Hi]. exact Hi.
      * intros Hi. split; [congruence | exact Hi].
    + intros i o' Hi. rewrite lookup_insert in Hi.
      destruct (decide (j = i)) as [<-|Hne].
      * injection Hi as <-. split; assumption.
      * apply (core_settled _ _ _ HC), Hi.
    + rewrite Hexec. destruct o; [destruct limited|];
        try apply NoDup_filter; apply (core_executing_NoDup _ _ _ HC).
    + intros i. rewrite Hexec. pose proof (core_executing _ _ _ HC i) as Hi.
      rewrite lookup_insert. destruct o as [v|err].
      * destruct limited eqn:Hlim.
        -- rewrite list_elem_of_filter, Hi.
           destruct (decide (j = i)) as [<-|Hne]; split.
           ++ intros [Hjj _]. congruence.
           ++ intros (_ & _ & Hv). exfalso. apply (Hv v). reflexivity.
           ++ intros [_ Hv]. exact Hv.
           ++ intros Hv. split; [congruence | exact Hv].
        -- rewrite Hi. split; intros [Hl _]; discriminate.
      * rewrite Hi. destruct (decide (j = i)) as [<-|Hne]; [|tauto]. split.
        -- intros (Hl & Hki & _). repeat split; try assumption. discriminate.
        -- intros (Hl & Hki & _). repeat split; try assumption.
           intros v. rewrite Hs. discriminate.
  - rewrite Hflight. apply length_filter_lt with (x := j); [exact Hj|].
    intros Hjj. apply Hjj. reflexivity.
  - rewrite Hexec. destruct o; [destruct limited|]; try apply length_filter; lia.
  - intros Hlim [v ->]. rewrite Hexec, Hlim.
    apply length_filter_lt with (x := j); [apply Hex, Hlim|].
    intros Hjj. apply Hjj. reflexivity.
Qed.

Lemma executing_limited (st : State A) :
  Core st -> executing st <> [] -> limited = true.
Proof.
  intros HC Hne. destruct (executing st) as [|x l] eqn:Hx; [congruence|].
  assert (Hin : x ∈ executing st) by (rewrite Hx; apply list_elem_of_here).
  apply (core_executing _ _ _ HC) in Hin as [Hlim _]. exact Hlim.
Qed.

(** Settling a task in flight keeps the invariant and brings the end
    closer. *)
Lemma settle_inv (st : State A) j :
  Inv st -> j ∈ in_flight st ->
  Inv (settle tasks concurrency j st) /\
  match mode st with
  | Done r => mode (settle tasks concurrency j st) = Done r
  | _ => measure (settle tasks concurrency j st) < measure st
  end.
Proof.
  intros (HC & Hfull & Hmode) Hj.
  destruct (in_flight_task st j HC Hj) as (o & Ho & Hs & Hk & Hex).
  destruct (settle_core st j o HC Hj Ho) as (HC' & Hres & Hset & Hfl & Hle & Hlt).
  assert (Hm : mode (settle tasks concurrency j st)
               = match mode st, o with
                 | AwaitRace None rest, Returns _ =>
                     if bool_decide (j ∈ executing st)
                     then AwaitRace (Some (Returns tt)) rest else mode st
                 | AwaitRace None rest, Throws err =>
                     if bool_decide (j ∈ executing st)
                     then AwaitRace (Some (Throws err)) rest else mode st
                 | AwaitAll None, Throws err => AwaitAll (Some err)
                 | m, _ => m
                 end).
  { unfold settle. rewrite Ho. reflexivity. }
  set (st' := settle tasks concurrency j st) in *. clearbody st'.
  assert (Hleft : entries_left st' = entries_left st).
  { unfold ParallelLimit.entries_left. rewrite Hres. reflexivity. }
  unfold ParallelLimit.Inv, ParallelLimit.mode_ok, ParallelLimit.measure in *.
  rewrite Hm, Hleft, Hres, Hset. clear Hm.
  destruct (mode st) as [[c|] rest|[err|]|r] eqn:Hmode_st.
  - destruct Hmode as [Hrest Hc].
    assert (Hgoal : match c with
                    | Returns _ => (Z.of_nat (length (executing st')) < concurrency)%Z
                    | Throws err => exists i, tasks !! i = Some (Throws err)
                    end).
    { destruct c; [lia | exact Hc]. }
    destruct o; (split; [split; [exact HC'|]; split; [lia|]; split; assumption | lia]).
  - destruct Hmode as (Hrest & Hnone & Hne).
    pose proof (executing_limited st HC Hne) as Hlim.
    rewrite (bool_decide_eq_true_2 _ (Hex Hlim)).
    destruct o as [v|err].
    + split; [|lia]. split; [exact HC'|]. split; [lia|]. split; [exact Hrest|].
      specialize (Hlt Hlim (ex_intro _ v eq_refl)). lia.
    + split; [|lia]. split; [exact HC'|]. split; [lia|]. split; [exact Hrest|].
      exists j. exact Ho.
  - destruct Hmode as [Hall Herr].
    destruct o; (split; [split; [exact HC'|]; split; [lia|]; split; assumption | lia]).
  - destruct Hmode as [Hall Hnone].
    destruct o as [v|err].
    + split; [|lia]. split; [exact HC'|]. split; [lia|]. split; [exact Hall|].
      intros i err Hi. rewrite lookup_insert in Hi.
      destruct (decide (j = i)); [discriminate | exact (Hnone _ _ Hi)].
    + split; [|lia]. split; [exact HC'|]. split; [lia|]. split; [exact Hall|].
      exists j. exact Ho.
  - destruct o; (split; [split; [exact HC'|]; split; [lia|]; exact Hmode | reflexivity]).
Qed.

Lemma all_values_tasks (st : State A) vs :
  Core st -> length (results st) = length tasks ->
  all_values st = Some vs -> mapM (value_of (A := A)) tasks = Some vs.
Proof.
  intros HC Hall Hvs. unfold all_values in Hvs.
  apply mapM_Some in Hvs. apply mapM_Some.
  apply Forall2_same_length_lookup in Hvs as [Hlen Hvs].
  apply Forall2_same_length_lookup. split.
  - rewrite <- Hlen, <- Hall. reflexivity.
  - intros i t v Ht Hv.
    assert (Hi : results st !! i = Some i).
    { rewrite (core_results _ _ _ HC). apply lookup_seq. split; [reflexivity|].
      rewrite Hall. apply lookup_lt_Some in Ht. exact Ht. }
    specialize (Hvs i i v Hi Hv). cbn in Hvs.
    destruct (settled st !! i) as [[v'|err]|] eqn:Hs; try discriminate.
    injection Hvs as ->. apply (core_settled _ _ _ HC) in Hs as [Hs _].
    rewrite Ht in Hs. injection Hs as ->. reflexivity.
Qed.

(** Resuming after a settled await keeps the invariant and brings the end
    closer. *)
Lemma resume_inv (st : State A) :
  Inv st -> can_resume st = true ->
  Inv (resume tasks concurrency st) /\
  measure (resume tasks concurrency st) < measure st.
Proof.
  intros (HC & Hfull & Hmode) Hcan.
  unfold can_resume in Hcan. unfold resume.
  unfold ParallelLimit.mode_ok in Hmode. unfold ParallelLimit.measure at 2.
  destruct (mode st) as [[[u|err]|] rest|[err|]|r] eqn:Hmode_st; try discriminate.
  - destruct Hmode as [Hrest Hroom].
    destruct (loop_inv rest st) as [HI Hm];
      [split; [exact HC|split; [exact Hrest|exact Hroom]]|].
    split; [exact HI | lia].
  - destruct Hmode as [Hrest Herr]. split; [|cbn; lia].
    split; [apply Core_set_mode, HC|]. split; [exact Hfull | exact Herr].
  - destruct Hmode as [Hall Herr]. split; [|cbn; lia].
    split; [apply Core_set_mode, HC|]. split; [exact Hfull | exact Herr].
  - destruct Hmode as [Hall Hnone].
    apply bool_decide_eq_true in Hcan as [vs Hvs]. rewrite Hvs.
    split; [|cbn; lia].
    split; [apply Core_set_mode, HC|]. split; [exact Hfull|].
    unfold ParallelLimit.mode_ok. cbn. exact (all_values_tasks st vs HC Hall Hvs).
Qed.

(** Until the function has settled, something can happen. *)
Lemma progress (st : State A) :
  Inv st -> (forall r, mode st <> Done r) -> enabled st <> [].
Proof.
  intros (HC & Hfull & Hmode) Hnot. unfold enabled.
  destruct (can_resume st) eqn:Hcan; [discriminate|].
  unfold can_resume in Hcan. unfold ParallelLimit.mode_ok in Hmode.
  assert (Hsome : exists j, j ∈ in_flight st).
  { destruct (mode st) as [[c|] rest|[err|]|r] eqn:Hmode_st; try discriminate.
    - destruct Hmode as (_ & Hnone & Hne).
      destruct (executing st) as [|x l] eqn:Hx; [congruence|].
      assert (Hin : x ∈ executing st) by (rewrite Hx; apply list_elem_of_here).
      exists x. apply (core_in_flight _ _ _ HC). split.
      + apply (core_executing _ _ _ HC) in Hin as (_ & Hk & _). exact Hk.
      + apply Hnone. rewrite <- Hx. exact Hin.
    - destruct Hmode as [Hall Hnone].
      apply bool_decide_eq_false in Hcan. unfold all_values in Hcan.
      rewrite mapM_is_Some in Hcan.
      apply not_Forall_Exists in Hcan; [|intros i; apply _].
      apply Exists_exists in Hcan as (i & Hi & Hf). exists i.
      apply (core_in_flight _ _ _ HC). split.
      + rewrite (core_results _ _ _ HC) in Hi. apply list_elem_of_In, in_seq in Hi. lia.
      + cbn in Hf. destruct (settled st !! i) as [[v|err]|] eqn:Hs; [| |reflexivity].
        * exfalso. apply Hf. eauto.
        * exfalso. exact (Hnone _ _ Hs).
    - exfalso. exact (Hnot r eq_refl). }
  destruct Hsome as [j Hj]. cbn. intros Hnil.
  apply map_eq_nil in Hnil. rewrite Hnil in Hj. inversion Hj.
Qed.

(** One turn keeps the invariant; it brings the end closer, and once the
    function has settled its result stays. *)
Lemma step_inv choice (st : State A) :
  Inv st ->
  Inv (step tasks concurrency choice st) /\
  match mode st with
  | Done r => mode (step tasks concurrency choice st) = Done r
  | _ => measure (step tasks concurrency choice st) < measure st
  end.
Proof.
  intros HI. unfold step.
  destruct (enabled st !! (choice mod length (enabled st))) as [a|] eqn:Ha.
  - apply list_elem_of_lookup_2 in Ha. unfold enabled in Ha.
    apply elem_of_app in Ha as [Ha|Ha].
    + destruct (can_resume st) eqn:Hcan; [|inversion Ha].
      apply list_elem_of_singleton in Ha as ->. cbn [perform].
      destruct (resume_inv st HI Hcan) as [HI' Hm]. split; [exact HI'|].
      unfold can_resume in Hcan. destruct (mode st) as [| |r]; try exact Hm.
      discriminate.
    + apply list_elem_of_fmap in Ha as (j & -> & Hj). cbn [perform].
      apply settle_inv; assumption.
  - split; [exact HI|].
    destruct (mode st) as [race rest|rejection|r] eqn:Hmode_st; [| |reflexivity].
    + exfalso. apply (progress st HI); [rewrite Hmode_st; discriminate|].
      destruct (enabled st) as [|a l] eqn:He; [reflexivity|].
      apply lookup_ge_None in Ha. cbn [length] in Ha.
      pose proof (Nat.mod_upper_bound choice (S (length l))). lia.
    + exfalso. apply (progress st HI); [rewrite Hmode_st; discriminate|].
      destruct (enabled st) as [|a l] eqn:He; [reflexivity|].
      apply lookup_ge_None in Ha. cbn [length] in Ha.
      pose proof (Nat.mod_upper_bound choice (S (length l))). lia.
Qed.

Lemma exec_inv schedule : forall st : State A,
  Inv st -> Inv (exec tasks concurrency schedule st).
Proof.
  induction schedule as [|choice schedule IH]; intros st HI; [exact HI|].
  cbn. apply IH, step_inv, HI.
Qed.

(** Every schedule brings the function to its end within [measure]
    turns. *)
Lemma exec_done schedule : forall st : State A,
  Inv st -> measure st <= length schedule ->
  exists r, mode (exec tasks concurrency schedule st) = Done r.
Proof.
  induction schedule as [|choice schedule IH]; intros st HI Hm.
  - cbn in *. unfold ParallelLimit.measure in Hm.
    destruct (mode st) as [| |r]; [lia | lia | eauto].
  - cbn [ParallelLimit.exec fold_left].
    destruct (step_inv choice st HI) as [HI' Hstep].
    change (fold_left _ schedule ?s) with (exec tasks concurrency schedule s).
    apply IH; [exact HI'|].
    destruct (mode st) as [| |r] eqn:Hmode_st; cbn [length] in Hm; try lia.
    unfold ParallelLimit.measure at 1. rewrite Hstep. lia.
Qed.

(** At most [concurrency] tasks are in flight. *)
Lemma inv_in_flight_bound (st : State A) :
  Inv st -> (Z.of_nat (length (in_flight st)) <= concurrency)%Z.
Proof.
  intros (HC & Hfull & _). destruct limited eqn:Hlim.
  - assert (Hsub : in_flight st ⊆+ executing st).
    { apply NoDup_submseteq; [apply (core_in_flight_NoDup _ _ _ HC)|].
      intros j Hj. destruct (in_flight_task st j HC Hj) as (_ & _ & _ & _ & Hex).
      apply Hex, Hlim. }
    apply submseteq_length in Hsub. lia.
  - assert (Hsub : in_flight st ⊆+ seq 0 (length tasks)).
    { apply NoDup_submseteq; [apply (core_in_flight_NoDup _ _ _ HC)|].
      intros j Hj. apply (core_in_flight _ _ _ HC) in Hj as [Hj _].
      pose proof (core_launched _ _ _ HC). apply list_elem_of_In, in_seq. lia. }
    apply submseteq_length in Hsub. rewrite length_seq in Hsub.
    unfold ParallelLimit.limited in Hlim. apply Z.leb_gt in Hlim. lia.
Qed.

Lemma mapM_value_of_Returns (values : list A) :
  mapM (value_of (A := A)) (map Returns values) = Some values.
Proof.
  apply mapM_Some. induction values as [|v values IH]; constructor;
    [reflexivity | exact IH].
Qed.

Lemma mapM_value_of_Throws vs j err :
  tasks !! j = Some (Throws err) -> mapM (value_of (A := A)) tasks <> Some vs.
Proof.
  intros Hj Hvs. apply mapM_Some in Hvs.
  destruct (Forall2_lookup_l _ _ _ _ _ Hvs Hj) as (v & _ & Hv). discriminate.
Qed.

(** C7. For a concurrency bound of at least 1 and whatever the order in
    which the tasks settle: at every turn at most [concurrency] tasks are
    in flight; when every task fulfils, [parallelLimit] fulfils, within
    [3 * n + 1] turns, with the list of the tasks' values in the order of
    the tasks (hence of the same length); and when some task rejects, it
    rejects with the error of one of the tasks. *)
Theorem parallelLimit_ordered_results_and_limit :
  (forall schedule,
     (Z.of_nat (length (in_flight
        (exec tasks concurrency schedule (parallelLimit tasks concurrency))))
      <= concurrency)%Z) /\
  (forall values, tasks = map Returns values ->
     forall schedule, 3 * length tasks + 1 <= length schedule ->
       mode (exec tasks concurrency schedule (parallelLimit tasks concurrency))
         = Done (Returns values)) /\
  (forall j err, tasks !! j = Some (Throws err) ->
     forall schedule, 3 * length tasks + 1 <= length schedule ->
       exists j' err',
         tasks !! j' = Some (Throws err') /\
         mode (exec tasks concurrency schedule (parallelLimit tasks concurrency))
           = Done (Throws err')).
Proof.
  destruct parallelLimit_inv as [HI Hm].
  assert (Hend : forall schedule, 3 * length tasks + 1 <= length schedule ->
            exists r,
              mode (exec tasks concurrency schedule (parallelLimit tasks concurrency))
                = Done r /\
              match r with
              | Returns vs => mapM (value_of (A := A)) tasks = Some vs
              | Throws err => exists j, tasks !! j = Some (Throws err)
              end).
  { intros schedule Hlen.
    destruct (exec_done schedule _ HI) as [r Hr]; [lia|].
    exists r. split; [exact Hr|].
    destruct (exec_inv schedule _ HI) as (_ & _ & Hmode).
    unfold ParallelLimit.mode_ok in Hmode. rewrite Hr in Hmode. exact Hmode. }
  split; [|split].
  - intros schedule. apply inv_in_flight_bound, exec_inv, HI.
  - intros values Htasks schedule Hlen.
    destruct (Hend schedule Hlen) as ([vs|err] & Hr & Hres); rewrite Hr.
    + rewrite Htasks, mapM_value_of_Returns in Hres. injection Hres as ->. reflexivity.
    + destruct Hres as [j Hj]. exfalso.
      apply (mapM_value_of_Throws values j err Hj).
      rewrite Htasks. apply mapM_value_of_Returns.
  - intros j err Hj schedule Hlen.
    destruct (Hend schedule Hlen) as ([vs|err'] & Hr & Hres).
    + exfalso. exact (mapM_value_of_Throws vs j err Hj Hres).
    + destruct Hres as [j' Hj']. exists j', err'. split; assumption.
Qed.

End Run.

End ParallelLimitFacts.

Lemma parallelLimit_ordered_results_and_limit_witness :
  (forall schedule,
     (Z.of_nat (length (ParallelLimit.in_flight
        (ParallelLimit.exec [Returns "a"; Returns "b"; Returns "c"] 2 schedule
           (ParallelLimit.parallelLimit [Returns "a"; Returns "b"; Returns "c"] 2))))
      <= 2)%Z) /\
  (forall schedule, 10 <= length schedule ->
     ParallelLimit.mode
       (ParallelLimit.exec [Returns "a"; Returns "b"; Returns "c"] 2 schedule
          (ParallelLimit.parallelLimit [Returns "a"; Returns "b"; Returns "c"] 2))
     = ParallelLimit.Done (Returns ["a"; "b"; "c"])).
Proof.
  assert (H2 : (1 <= 2)%Z) by lia.
  destruct (parallelLimit_ordered_results_and_limit
              [Returns "a"; Returns "b"; Returns "c"] 2 H2) as (Hbound & Hall & _).
  split; [exact Hbound|].
  intros schedule Hlen. apply (Hall ["a"; "b"; "c"] eq_refl schedule). exact Hlen.
Defined.
(** * Properties of debounce *)
Section DebounceFacts.
Import Debounce.

Example debounce_three_quick_calls :
  let st := run 300 [Call 0 "a"; Call 100 "b"; Tick 350; Call 380 "c"; Tick 500;
                     Tick 680; Settled 0 (Returns 3)] debounce in
  invoked st = ["c"] /\
  (promises st !! 0, promises st !! 1, promises st !! 2)
  = (Some (Returns 3), Some (Returns 3), Some (Returns 3)).
Proof. vm_compute. split; reflexivity. Qed.

Section Debounced.
Context {X R : Type} (wait : nat).

Local Abbreviation run := (run (X := X) (R := R) wait).

Lemma run_snoc evs ev (st : State X R) :
  run (evs ++ [ev]) st = step wait ev (run evs st).
Proof. unfold Debounce.run. rewrite fold_left_app. reflexivity. Qed.

(** A settled promise keeps its outcome. *)
Lemma resolve_all_settled (outcome : Completion R) (rs : list nat) :
  forall (ps : gmap nat (Completion R)) i o,
    ps !! i = Some o -> fold_left (resolve_with outcome) rs ps !! i = Some o.
Proof.
  induction rs as [|r rs IH]; intros ps i o Hi; [exact Hi|].
  cbn [fold_left]. apply IH. unfold resolve_with.
  destruct (ps !! r) eqn:Hr; [exact Hi|].
  rewrite lookup_insert_ne; [exact Hi|]. intros ->. congruence.
Qed.

(** The resolvers of one [later] settle every pending promise they belong
    to. *)
Lemma resolve_all_pending (outcome : Completion R) (rs : list nat) :
  forall (ps : gmap nat (Completion R)) i,
    ps !! i = None -> i ∈ rs ->
    fold_left (resolve_with outcome) rs ps !! i = Some outcome.
Proof.
  induction rs as [|r rs IH]; intros ps i Hi Hin; [inversion Hin|].
  cbn [fold_left]. destruct (decide (i = r)) as [->|Hne].
  - apply resolve_all_settled. unfold resolve_with. rewrite Hi.
    apply lookup_insert_eq.
  - apply elem_of_cons in Hin as [Heq|Hin]; [congruence|].
    apply IH; [|exact Hin]. unfold resolve_with.
    destruct (ps !! r); [exact Hi|]. rewrite lookup_insert_ne; [exact Hi|congruence].
Qed.

(** The state a burst leaves behind: one live timer holding the arguments
    of the last call and due [wait] after it, every caller's resolver
    queued, and [func] not called. *)
Lemma burst_state (st0 : State X R) t args n evs :
  timeout st0 = None -> resolveFuncs st0 = [] ->
  Burst wait t args n evs ->
  run evs st0
  = {| timeout := Some {| deadline := t + wait; timer_args := args |};
       resolveFuncs := seq (callers st0) n;
       callers := callers st0 + n;
       invoked := invoked st0;
       awaiting := awaiting st0;
       promises := promises st0 |}.
Proof.
  intros Hquiet Hnone Hburst.
  induction Hburst as [t args|t args n evs t' args' Hburst IH Hle Hlt
                      |t args n evs t' Hburst IH Hlt].
  - cbn. unfold call. rewrite Hnone, Nat.add_1_r. reflexivity.
  - rewrite run_snoc, IH. unfold step, call.
    cbn [resolveFuncs callers invoked awaiting promises timeout].
    rewrite seq_S, Nat.add_succ_r. reflexivity.
  - rewrite run_snoc, IH. cbn. unfold tick. cbn.
    destruct (Nat.leb_spec (t + wait) t') as [Hdue|_]; [lia | reflexivity].
Qed.

(** C9. A burst of [n] calls, each less than [wait] after the one before,
    made to a debounced function with no timer pending: during the burst
    [func] is not called and no caller's promise settles; when the timer
    then runs, [func] is called exactly once, with the arguments of the
    last call; and when that call settles, the promise of every caller of
    the burst settles with its outcome, value or error. *)
Theorem debounce_burst_invokes_once (st0 : State X R) t args n evs t_fire outcome :
  timeout st0 = None -> resolveFuncs st0 = [] ->
  (forall i, callers st0 <= i -> promises st0 !! i = None) ->
  Burst wait t args n evs -> t + wait <= t_fire ->
  invoked (run evs st0) = invoked st0 /\
  invoked (run (evs ++ [Tick t_fire]) st0) = invoked st0 ++ [args] /\
  invoked (run (evs ++ [Tick t_fire; Settled (length (invoked st0)) outcome]) st0)
    = invoked st0 ++ [args] /\
  forall i, callers st0 <= i < callers st0 + n ->
    promises (run evs st0) !! i = None /\
    promises (run (evs ++ [Tick t_fire]) st0) !! i = None /\
    promises (run (evs ++ [Tick t_fire; Settled (length (invoked st0)) outcome]) st0) !! i
      = Some outcome.
Proof.
  intros Hquiet Hnone Hfresh Hburst Hfire.
  pose proof (burst_state st0 t args n evs Hquiet Hnone Hburst) as Hst.
  assert (Htick : run (evs ++ [Tick t_fire]) st0
                  = later {| deadline := t + wait; timer_args := args |} (run evs st0)).
  { rewrite run_snoc. cbn. unfold tick. rewrite Hst. cbn.
    destruct (Nat.leb_spec (t + wait) t_fire) as [_|Hearly]; [reflexivity | lia]. }
  assert (Hsettled : run (evs ++ [Tick t_fire; Settled (length (invoked st0)) outcome]) st0
                     = settle (length (invoked st0)) outcome
                         (run (evs ++ [Tick t_fire]) st0)).
  { change [Tick t_fire; Settled (length (invoked st0)) outcome]
      with ([Tick t_fire] ++ [Settled (X := X) (length (invoked st0)) outcome]).
    rewrite app_assoc, run_snoc. reflexivity. }
  rewrite Hsettled, Htick, Hst. unfold settle, later. cbn.
  rewrite lookup_insert_eq. cbn.
  repeat split; try reflexivity.
  - apply Hfresh. lia.
  - apply Hfresh. lia.
  - apply resolve_all_pending; [apply Hfresh; lia|].
    apply list_elem_of_In, in_seq. lia.
Qed.

End Debounced.

End DebounceFacts.

Lemma debounce_burst_invokes_once_witness :
  Debounce.invoked
    (Debounce.run 300
       [Debounce.Call 0 "a"; Debounce.Call 100 "b"; Debounce.Tick 350;
        Debounce.Call 380 "c"; Debounce.Tick 700;
        Debounce.Settled 0 (Returns 3)] Debounce.debounce) = ["c"] /\
  forall i, 0 <= i < 0 + 3 ->
    Debounce.promises
      (Debounce.run 300
         [Debounce.Call 0 "a"; Debounce.Call 100 "b"; Debounce.Tick 350;
          Debounce.Call 380 "c"; Debounce.Tick 700;
          Debounce.Settled 0 (Returns 3)] Debounce.debounce) !! i
    = Some (Returns 3).
Proof.
  assert (Hburst : Debounce.Burst (X := string) (R := nat) 300 380 "c" 3
                     [Debounce.Call 0 "a"; Debounce.Call 100 "b"; Debounce.Tick 350;
                      Debounce.Call 380 "c"]).
  { apply (Debounce.burst_call 300 100 "b" 2
             [Debounce.Call 0 "a"; Debounce.Call 100 "b"; Debounce.Tick 350] 380 "c");
      [|lia|lia].
    apply (Debounce.burst_tick 300 100 "b" 2
             [Debounce.Call 0 "a"; Debounce.Call 100 "b"] 350); [|lia].
    apply (Debounce.burst_call 300 0 "a" 1 [Debounce.Call 0 "a"] 100 "b"); [|lia|lia].
    apply Debounce.burst_first. }
  destruct (debounce_burst_invokes_once 300 (Debounce.debounce (X := string) (R := nat))
              380 "c" 3 _ 700 (Returns 3) eq_refl eq_refl
              (fun i _ => lookup_empty i) Hburst) as (_ & _ & Hinv & Hprom); [lia|].
  split; [exact Hinv|]. intros i Hi. apply (Hprom i Hi).
Defined.
(** * Further properties of the Dispatcher *)
Section GrimoireApiFacts.
Import Grimoire GrimoireApi.
Context (env : Env).

Lemma size_filter_bool (f : Conversation -> bool) (m : gmap string Conversation) :
  size m = size (filter (fun kv : string * Conversation => f (snd kv) = false) m)
           + size (filter (fun kv : string * Conversation => f (snd kv) = true) m).
Proof.
  rewrite <- (map_filter_union_complement
                (fun kv : string * Conversation => f (snd kv) = false) m) at 1.
  rewrite map_size_disj_union by apply map_disjoint_filter_complement.
  f_equal. f_equal. apply map_filter_ext. intros i c _. cbn.
  destruct (f c); split.
  - reflexivity.
  - intros _ Habs. discriminate.
  - intros Hne. exfalso. apply Hne. reflexivity.
  - discriminate.
Qed.

(** X1. [cleanupOldConversations] reads the clock once, removes exactly the
    conversations last updated more than [maxAgeHours] before that reading,
    leaves every other conversation as it is, and returns the number it
    removed. *)
Theorem cleanupOldConversations_removes_exactly_the_old maxAgeHours st :
  exists removed st',
    cleanupOldConversations env maxAgeHours st = (Returns removed, st') /\
    (forall id c,
       conversations st' !! id = Some c <->
       conversations st !! id = Some c /\
       (Date_now env (clock_reads st) - conv_updatedAt c
        <= maxAgeHours * 60 * 60 * 1000)%Z) /\
    size (conversations st) = size (conversations st') + removed /\
    uuid_reads st' = uuid_reads st /\ clock_reads st' = S (clock_reads st).
Proof.
  unfold cleanupOldConversations, bind, now, get_conversations, modify_conversations.
  cbn. eexists _, _. split; [reflexivity|]. cbn. split; [|split; [|split; reflexivity]].
  - intros id c. rewrite map_lookup_filter_Some. cbn.
    rewrite Z.ltb_ge. reflexivity.
  - apply (size_filter_bool
             (fun c => (maxAgeHours * 60 * 60 * 1000
                        <? Date_now env (clock_reads st) - conv_updatedAt c)%Z)).
Qed.

(** X2. [deleteConversation] tells whether the id was stored, removes it and
    nothing else, and a message sent to the id afterwards is refused with
    [Conversation not found]. *)
Theorem deleteConversation_then_processMessage id text opts st :
  exists st',
    deleteConversation id st
      = (Returns (bool_decide (is_Some (conversations st !! id))), st') /\
    conversations st' !! id = None /\
    (forall j, j <> id -> conversations st' !! j = conversations st !! j) /\
    processMessage env id text opts st'
      = (Throws (JsError "Conversation not found"), st').
Proof.
  exists (set_conversations (delete id) st). split; [reflexivity|].
  split; [cbn; apply lookup_delete_eq|]. split.
  - intros j Hj. cbn. apply lookup_delete_ne. congruence.
  - apply processMessage_absent. cbn. apply lookup_delete_eq.
Qed.

(** One call on a stored conversation, step by step. *)
Lemma processMessage_steps st id text opts c :
  conversations st !! id = Some c ->
  exists r t out st',
    processMessage env id text opts st = (out, st') /\
    conversations st'
      = <[id := push_message r t
                  (push_message (user_record env st text opts)
                                (Date_now env (S (clock_reads st))) c)]>
          (conversations st) /\
    match generateResponse env
            (push_message (user_record env st text opts)
                          (Date_now env (S (clock_reads st))) c) opts with
    | Returns (Some answer) =>
        msg_role r = assistant /\ msg_content r = answer /\
        exists reply, out = Returns reply /\ r_response reply = answer /\
                      r_conversationId reply = id /\
                      r_model reply = model_id (conv_model c) /\
                      r_messageId reply = msg_id r
    | Returns None =>
        out = Throws (JsError (typeError_undefined "length")) /\
        msg_role r = system /\
        msg_content r = "Error: " +:+ typeError_undefined "length"
    | Throws e =>
        out = Throws e /\ msg_role r = system /\
        exists m, e = JsError m /\ msg_content r = "Error: " +:+ m
    end.
Proof.
  intros H.
  unfold processMessage, bind, get_conversations. cbn. rewrite H. cbn.
  unfold try_catch, bind. cbn.
  unfold the_conversation. cbn. rewrite lookup_alter_eq, H. cbn.
  unfold lift. fold (user_record env st text opts).
  destruct (generateResponse env _ opts) as [[answer|]|e] eqn:G; cbn.
  - eexists _, _, _, _. split; [reflexivity|]. cbn.
    split; [apply alter_alter_present; exact H|].
    split; [reflexivity|]. split; [reflexivity|]. eexists. repeat split.
  - eexists _, _, _, _. split; [reflexivity|]. cbn.
    split; [apply alter_alter_present; exact H|]. repeat split.
  - destruct (generateResponse_throws_error _ _ _ _ G) as [m ->]. cbn.
    eexists _, _, _, _. split; [reflexivity|]. cbn.
    split; [apply alter_alter_present; exact H|].
    split; [reflexivity|]. split; [reflexivity|]. eexists. split; reflexivity.
Qed.

(** X3. What [processMessage] returns or throws is decided by
    [generateResponse] on the conversation extended with the user record:
    its text becomes the assistant record and the reply; [undefined] for a
    text makes the call throw the TypeError of reading [length], and an
    error is thrown again as it is; in the last two cases the message of the
    error is kept in a system record. *)
Theorem processMessage_outcome_follows_generation st id text opts c :
  conversations st !! id = Some c ->
  exists r t out st',
    processMessage env id text opts st = (out, st') /\
    conversations st'
      = <[id := push_message r t
                  (push_message (user_record env st text opts)
                                (Date_now env (S (clock_reads st))) c)]>
          (conversations st) /\
    match generateResponse env
            (push_message (user_record env st text opts)
                          (Date_now env (S (clock_reads st))) c) opts with
    | Returns (Some answer) =>
        msg_role r = assistant /\ msg_content r = answer /\
        exists reply, out = Returns reply /\ r_response reply = answer /\
                      r_conversationId reply = id /\
                      r_model reply = model_id (conv_model c) /\
                      r_messageId reply = msg_id r
    | Returns None =>
        out = Throws (JsError (typeError_undefined "length")) /\
        msg_role r = system /\
        msg_content r = "Error: " +:+ typeError_undefined "length"
    | Throws e =>
        out = Throws e /\ msg_role r = system /\
        exists m, e = JsError m /\ msg_content r = "Error: " +:+ m
    end.
Proof. apply processMessage_steps. Qed.

Lemma generateResponse_error_shape c o e :
  generateResponse env c o = Throws e ->
  exists m, e = JsError m /\
    ((exists m', m = "Failed to generate response: " +:+ m') \/
     m = typeError_undefined "message").
Proof.
  unfold generateResponse.
  destruct (match model_provider (conv_model c) with Some _ => _ | None => _ end)
    as [r|[m|]]; intros [= <-]; eauto.
Qed.

(** X4. [generateResponse] never lets a backend error through as it is: an
    error with message [m] comes out as an error with message
    [Failed to generate response: m] (and [undefined] as the TypeError of
    reading [message]).  A model whose provider is none of [openai],
    [google], [huggingface] is answered locally with an echo of the last
    message, and an OpenAI reply without content is replaced by
    [No response generated]. *)
Theorem generateResponse_wraps_errors_and_falls_back c o :
  (forall e, generateResponse env c o = Throws e ->
     exists m, e = JsError m /\
       ((exists m', m = "Failed to generate response: " +:+ m') \/
        m = typeError_undefined "message")) /\
  (forall lastMessage,
     (forall p, model_provider (conv_model c) = Some p ->
        p <> "openai" /\ p <> "google" /\ p <> "huggingface") ->
     last (conv_messages c) = Some lastMessage ->
     generateResponse env c o
       = Returns (Some ("Model " +:+ dquote +:+ model_id (conv_model c) +:+ dquote +:+
                        " received: " +:+ msg_content lastMessage))) /\
  (forall content,
     model_provider (conv_model c) = Some "openai" ->
     openai_content env (prepareMessages (conv_messages c)) (conv_model c) o
       = Returns content ->
     truthy content = None ->
     generateResponse env c o = Returns (Some "No response generated")).
Proof.
  split; [|split].
  - intros e. apply generateResponse_error_shape.
  - intros lastMessage Hp Hlast. unfold generateResponse.
    assert (Hdefault :
              generateWithDefault (prepareMessages (conv_messages c)) (conv_model c) o
              = Returns (Some ("Model " +:+ dquote +:+ model_id (conv_model c) +:+ dquote +:+
                               " received: " +:+ msg_content lastMessage))).
    { unfold generateWithDefault, prepareMessages.
      change (map ?f ?l) with (f <$> l). rewrite fmap_last, Hlast. reflexivity. }
    destruct (model_provider (conv_model c)) as [p|]; [|rewrite Hdefault; reflexivity].
    destruct (Hp p eq_refl) as (H1 & H2 & H3).
    apply String.eqb_neq in H1, H2, H3. rewrite H1, H2, H3, Hdefault. reflexivity.
  - intros content Hp Hc Htruthy. unfold generateResponse, generateWithOpenAI.
    rewrite Hp. cbn. rewrite Hc, Htruthy. reflexivity.
Qed.

Lemma push_message_fields m t c :
  conv_id (push_message m t c) = conv_id c /\
  conv_model (push_message m t c) = conv_model c /\
  conv_metadata (push_message m t c) = conv_metadata c /\
  conv_createdAt (push_message m t c) = conv_createdAt c /\
  conv_messages (push_message m t c) = conv_messages c ++ [m].
Proof. repeat split. Qed.

(** What a conversation keeps while messages are processed. *)
Lemma processMessage_keeps st id text opts j c :
  conversations st !! j = Some c ->
  exists c',
    conversations (exec env (ProcessMessage id text opts) st) !! j = Some c' /\
    conv_messages c `prefix_of` conv_messages c' /\
    conv_id c' = conv_id c /\ conv_model c' = conv_model c /\
    conv_metadata c' = conv_metadata c /\ conv_createdAt c' = conv_createdAt c.
Proof.
  intros Hj. unfold exec.
  destruct (conversations st !! id) as [ci|] eqn:Hid.
  - destruct (processMessage_steps st id text opts ci Hid)
      as (r & t & out & st' & -> & Hst & _). cbn. rewrite Hst.
    destruct (decide (id = j)) as [->|Hne].
    + rewrite lookup_insert_eq. rewrite Hj in Hid. injection Hid as <-.
      eexists. split; [reflexivity|]. cbn.
      split; [|repeat split]. rewrite <- app_assoc. apply prefix_app_r. reflexivity.
    + rewrite lookup_insert_ne by exact Hne. exists c.
      split; [exact Hj|]. split; [reflexivity | repeat split].
  - rewrite (processMessage_absent env _ _ _ _ Hid). cbn. exists c.
    split; [exact Hj|]. split; [reflexivity | repeat split].
Qed.

(** X5. The history is append-only under [processMessage]: whatever
    messages are sent, to whatever ids, a stored conversation stays stored
    under its id with the same id, model, metadata and creation time, and
    the messages it held are a prefix of the messages it holds. *)
Theorem history_is_append_only inputs st j c :
  conversations st !! j = Some c ->
  exists c',
    conversations
      (run env (map (fun i => ProcessMessage (fst (fst i)) (snd (fst i)) (snd i)) inputs) st)
      !! j = Some c' /\
    conv_messages c `prefix_of` conv_messages c' /\
    conv_id c' = conv_id c /\ conv_model c' = conv_model c /\
    conv_metadata c' = conv_metadata c /\ conv_createdAt c' = conv_createdAt c.
Proof.
  revert st c. induction inputs as [|[[id text] opts] inputs IH]; intros st c Hj.
  - exists c. split; [exact Hj|]. split; [reflexivity | repeat split].
  - destruct (processMessage_keeps st id text opts j c Hj)
      as (c1 & H1 & Hpre & Hid & Hmodel & Hmeta & Hcreated).
    destruct (IH _ _ H1) as (c' & H' & Hpre' & Hid' & Hmodel' & Hmeta' & Hcreated').
    exists c'. split; [exact H'|]. split; [etrans; eassumption|].
    repeat split; congruence.
Qed.

Lemma createConversation_cases modelId options st :
  match registry env !! default (defaultModel st) (truthy modelId) with
  | Some model =>
      exists c st',
        createConversation env modelId options st = (Returns c, st') /\
        conv_id c = default (uuidv4 env (uuid_reads st))
                            (truthy (opt_conversationId options)) /\
        conv_model c = model /\ conv_messages c = [] /\
        conversations st' = <[conv_id c := c]> (conversations st)
  | None =>
      exists st',
        createConversation env modelId options st
          = (Throws (JsError "Model not found"), st') /\
        conversations st' = conversations st
  end.
Proof.
  unfold createConversation, bind.
  destruct (truthy (opt_conversationId options)) as [i|]; cbn;
    (destruct (truthy modelId) as [m|]; cbn; unfold getModel;
     [destruct (registry env !! m) | destruct (registry env !! defaultModel st)];
     cbn; eexists; try eexists; repeat split).
Qed.

Lemma exec_well_keyed call st : well_keyed st -> well_keyed (exec env call st).
Proof.
  intros Hk. destruct call as [modelId options|id text opts|id|age];
    unfold exec, well_keyed.
  - pose proof (createConversation_cases modelId options st) as Hc.
    destruct (registry env !! _) as [model|].
    + destruct Hc as (c & st' & -> & _ & _ & _ & Hst). cbn. rewrite Hst.
      intros i c'. rewrite lookup_insert. destruct (decide (conv_id c = i)) as [<-|Hne].
      * intros [= <-]. reflexivity.
      * apply Hk.
    + destruct Hc as (st' & -> & Hst). cbn. rewrite Hst. exact Hk.
  - intros i c' Hi.
    destruct (conversations st !! id) as [c|] eqn:Hid.
    + destruct (processMessage_steps st id text opts c Hid)
        as (r & t & out & st' & Hp & Hst & _).
      rewrite Hp in Hi. cbn in Hi. rewrite Hst, lookup_insert in Hi.
      destruct (decide (id = i)) as [<-|Hne].
      * injection Hi as <-. cbn. apply Hk, Hid.
      * apply Hk, Hi.
    + rewrite (processMessage_absent env _ _ _ _ Hid) in Hi. apply Hk, Hi.
  - cbn. intros i c. destruct (decide (id = i)) as [->|Hne].
    + rewrite lookup_delete_eq. discriminate.
    + rewrite lookup_delete_ne by assumption. apply Hk.
  - cbn. intros i c. rewrite map_lookup_filter_Some. intros [Hi _]. apply Hk, Hi.
Qed.

Lemma run_well_keyed calls d : well_keyed (run env calls (constructor d)).
Proof.
  unfold run. rewrite <- fold_left_rev_right.
  induction (rev calls) as [|call calls' IH]; cbn [fold_right].
  - intros i c. cbn. rewrite lookup_empty. discriminate.
  - apply exec_well_keyed, IH.
Qed.

Lemma processMessage_found st id text opts c :
  conversations st !! id = Some c ->
  fst (processMessage env id text opts st)
    <> Throws (JsError "Conversation not found") /\
  dom (conversations (snd (processMessage env id text opts st)))
    = dom (conversations st) /\
  message_count id (snd (processMessage env id text opts st))
    = message_count id st + 2.
Proof.
  intros Hid.
  destruct (processMessage_steps st id text opts c Hid)
    as (r & t & out & st' & -> & Hst & Hout). cbn. split; [|split].
  - destruct (generateResponse env _ opts) as [[answer|]|e] eqn:G.
    + destruct Hout as (_ & _ & reply & -> & _). discriminate.
    + destruct Hout as (-> & _). discriminate.
    + destruct Hout as (-> & _ & _).
      destruct (generateResponse_error_shape _ _ _ G) as (m & -> & [[m' ->]| ->]);
        discriminate.
  - rewrite Hst. apply dom_insert_lookup_L. eauto.
  - unfold message_count. rewrite Hst, lookup_insert_eq, Hid. cbn.
    rewrite !length_app. cbn. lia.
Qed.

(** X6. In every state reached from a new Grimoire, [askGrimoire] never
    fails with [Conversation not found].  Given the id of a stored
    conversation it adds two messages to that conversation and creates
    none; given an id that is not stored it creates the conversation under
    that id (when the model resolves) and the two messages are recorded
    there. *)
Theorem askGrimoire_creates_what_it_does_not_find d calls message options :
  let st := run env calls (constructor d) in
  fst (askGrimoire env message options st)
    <> Throws (JsError "Conversation not found") /\
  (forall i, truthy (opt_conversationId options) = Some i ->
     is_Some (conversations st !! i) ->
     dom (conversations (snd (askGrimoire env message options st)))
       = dom (conversations st) /\
     message_count i (snd (askGrimoire env message options st))
       = message_count i st + 2) /\
  (forall i, truthy (opt_conversationId options) = Some i ->
     conversations st !! i = None ->
     is_Some (registry env !! default (defaultModel st) (truthy (opt_modelId options))) ->
     message_count i (snd (askGrimoire env message options st)) = 2).
Proof.
  intros st. pose proof (run_well_keyed calls d) as Hk. fold st in Hk.
  assert (Hcreate : forall st1 c,
            createConversation env (opt_modelId options) options st
              = (Returns c, st1) ->
            conversations st1 !! conv_id c = Some c /\ conv_messages c = [] /\
            conv_id c = default (uuidv4 env (uuid_reads st))
                                (truthy (opt_conversationId options))).
  { intros st1 c Hc.
    pose proof (createConversation_cases (opt_modelId options) options st) as Hcases.
    destruct (registry env !! _) as [model|].
    - destruct Hcases as (c0 & st0 & Heq & Hid & _ & Hm & Hst).
      rewrite Heq in Hc. injection Hc as <- <-.
      rewrite Hst, lookup_insert_eq. auto.
    - destruct Hcases as (st0 & Heq & _). rewrite Heq in Hc. discriminate. }
  split; [|split].
  - unfold askGrimoire.
    destruct (match truthy (opt_conversationId options) with
              | Some i => conversations st !! i | None => None end)
      as [c|] eqn:Hex.
    + destruct (truthy (opt_conversationId options)) as [i|]; [|discriminate].
      pose proof (Hk _ _ Hex) as Hid. rewrite Hid.
      destruct (processMessage_found st i message options c Hex) as (Hnf & _).
      destruct (processMessage env i message options st) as [[reply|e] st2];
        [discriminate | cbn in *; intros [= ->]; apply Hnf; reflexivity].
    + destruct (createConversation env (opt_modelId options) options st)
        as [[c|e] st1] eqn:Hc.
      * destruct (Hcreate st1 c eq_refl) as (Hstored & _).
        destruct (processMessage_found st1 (conv_id c) message options c Hstored)
          as (Hnf & _).
        destruct (processMessage env (conv_id c) message options st1) as [[reply|e] st2];
          [discriminate | cbn in *; intros [= ->]; apply Hnf; reflexivity].
      * pose proof (createConversation_cases (opt_modelId options) options st) as Hcases.
        destruct (registry env !! _).
        -- destruct Hcases as (c0 & st0 & Heq & _). rewrite Heq in Hc. discriminate.
        -- destruct Hcases as (st0 & Heq & _). rewrite Heq in Hc.
           injection Hc as <- _. discriminate.
  - intros i Hi [c Hex]. unfold askGrimoire. rewrite Hi, Hex.
    pose proof (Hk _ _ Hex) as Hid. rewrite Hid.
    destruct (processMessage_found st i message options c Hex) as (_ & Hdom & Hcount).
    destruct (processMessage env i message options st) as [[reply|e] st2];
      split; assumption.
  - intros i Hi Hnone [model Hreg]. unfold askGrimoire. rewrite Hi, Hnone.
    pose proof (createConversation_cases (opt_modelId options) options st) as Hcases.
    rewrite Hreg in Hcases. destruct Hcases as (c & st1 & Hc & Hid & _ & Hm & Hst).
    rewrite Hc. rewrite Hi in Hid. cbn in Hid.
    assert (Hstored : conversations st1 !! conv_id c = Some c).
    { rewrite Hst. apply lookup_insert_eq. }
    destruct (processMessage_found st1 (conv_id c) message options c Hstored)
      as (_ & _ & Hcount).
    unfold message_count in Hcount at 2. rewrite Hstored, Hm in Hcount.
    cbn [length Nat.add] in Hcount. rewrite Hid in Hcount |- *.
    destruct (processMessage env i message options st1) as [[reply|e] st2];
      exact Hcount.
Qed.

(** X7. Without a conversation id, as the [/ask] route of server.js calls
    it, [askGrimoire] continues no conversation: when the model resolves it
    stores a new conversation under the next uuid, with the message and
    the reply as its two messages, and leaves the conversations stored
    under other ids as they are. *)
Theorem askGrimoire_without_an_id_starts_a_new_conversation st message options :
  truthy (opt_conversationId options) = None ->
  is_Some (registry env !! default (defaultModel st) (truthy (opt_modelId options))) ->
  let id := uuidv4 env (uuid_reads st) in
  let st' := snd (askGrimoire env message options st) in
  message_count id st' = 2 /\
  dom (conversations st') = {[id]} ∪ dom (conversations st) /\
  (forall j, j <> id -> conversations st' !! j = conversations st !! j).
Proof.
  intros Hnone [model Hreg] id st'. subst st'. unfold askGrimoire. rewrite Hnone.
  pose proof (createConversation_cases (opt_modelId options) options st) as Hcases.
  rewrite Hreg in Hcases. destruct Hcases as (c & st1 & Hc & Hid & _ & Hm & Hst).
  rewrite Hc. rewrite Hnone in Hid. cbn in Hid. fold id in Hid. rewrite Hid in *.
  assert (Hstored : conversations st1 !! id = Some c).
  { rewrite Hst. apply lookup_insert_eq. }
  destruct (processMessage_found st1 id message options c Hstored)
    as (_ & Hdom & Hcount).
  destruct (processMessage_steps st1 id message options c Hstored)
    as (r & t & out & st2 & Hrun & Hst2 & _).
  rewrite Hrun in Hdom, Hcount |- *. cbn in Hdom, Hcount.
  assert (Hsnd : snd (let (c0, s) := (out, st2) in
                      match c0 with
                      | Returns reply => (Returns (r_response reply), s)
                      | Throws e => (Throws e, s)
                      end) = st2) by (destruct out; reflexivity).
  rewrite Hsnd. split; [|split].
  - rewrite Hcount. unfold message_count. rewrite Hstored, Hm. reflexivity.
  - rewrite Hdom, Hst. apply dom_insert_L.
  - intros j Hj. rewrite Hst2, lookup_insert_ne, Hst, lookup_insert_ne by congruence.
    reflexivity.
Qed.

End GrimoireApiFacts.

Lemma askGrimoire_without_an_id_starts_a_new_conversation_witness :
  let id := Grimoire.uuidv4 Grimoire.example_env 0 in
  let st' := snd (GrimoireApi.askGrimoire Grimoire.example_env "Hello" Grimoire.no_options
                    (Grimoire.constructor None)) in
  Grimoire.message_count id st' = 2 /\
  dom (Grimoire.conversations st') = {[id]} ∪ dom (Grimoire.conversations (Grimoire.constructor None)) /\
  (forall j, j <> id ->
     Grimoire.conversations st' !! j
     = Grimoire.conversations (Grimoire.constructor None) !! j).
Proof.
  apply (askGrimoire_without_an_id_starts_a_new_conversation Grimoire.example_env
           (Grimoire.constructor None) "Hello" Grimoire.no_options).
  - reflexivity.
  - exists Grimoire.default_model. vm_compute. reflexivity.
Defined.

Lemma processMessage_outcome_follows_generation_witness :
  exists c,
    Grimoire.conversations (Grimoire.example_state Grimoire.default_model) !! "c1"
      = Some c /\
    exists r out st',
      Grimoire.processMessage Grimoire.example_env "c1" "Hello" Grimoire.no_options
        (Grimoire.example_state Grimoire.default_model) = (out, st') /\
      Grimoire.msg_role r = Grimoire.assistant /\
      exists reply, out = Returns reply /\
                    Grimoire.r_response reply = Grimoire.msg_content r.
Proof.
  exists (Grimoire.example_conversation Grimoire.default_model).
  split; [vm_compute; reflexivity|].
  destruct (processMessage_outcome_follows_generation Grimoire.example_env
              (Grimoire.example_state Grimoire.default_model) "c1" "Hello"
              Grimoire.no_options
              (Grimoire.example_conversation Grimoire.default_model))
    as (r & t & out & st' & Hrun & _ & Hout); [vm_compute; reflexivity|].
  cbn in Hout. destruct Hout as (Hrole & Hcontent & reply & -> & Hresponse & _).
  exists r, (Returns reply), st'. split; [exact Hrun|]. split; [exact Hrole|].
  exists reply. split; [reflexivity|]. congruence.
Defined.

Lemma history_is_append_only_witness :
  Grimoire.conversations (Grimoire.example_state Grimoire.remote_model) !! "c1"
    = Some (Grimoire.example_conversation Grimoire.remote_model) /\
  exists c',
    Grimoire.conversations
      (Grimoire.run Grimoire.example_env
         (map (fun i => Grimoire.ProcessMessage (fst (fst i)) (snd (fst i)) (snd i))
              [("c1", "Hello", Grimoire.no_options);
               ("gone", "Hello", Grimoire.no_options)])
         (Grimoire.example_state Grimoire.remote_model))
      !! "c1" = Some c' /\
    Grimoire.conv_messages (Grimoire.example_conversation Grimoire.remote_model)
      `prefix_of` Grimoire.conv_messages c' /\
    Grimoire.conv_id c' = Grimoire.conv_id (Grimoire.example_conversation Grimoire.remote_model) /\
    Grimoire.conv_model c' = Grimoire.conv_model (Grimoire.example_conversation Grimoire.remote_model) /\
    Grimoire.conv_metadata c' = Grimoire.conv_metadata (Grimoire.example_conversation Grimoire.remote_model) /\
    Grimoire.conv_createdAt c' = Grimoire.conv_createdAt (Grimoire.example_conversation Grimoire.remote_model).
Proof.
  split; [vm_compute; reflexivity|].
  apply (history_is_append_only Grimoire.example_env).
  vm_compute; reflexivity.
Defined.

Section ListConversationsFacts.
Import Grimoire GrimoireApi.

Lemma insert_by_date_Permutation c sorted :
  insert_by_date c sorted ≡ₚ c :: sorted.
Proof.
  induction sorted as [|d sorted IH]; cbn; [reflexivity|].
  destruct (newer d c); [|reflexivity].
  rewrite IH. apply Permutation_swap.
Qed.

Lemma sort_by_date_Permutation values : sort_by_date values ≡ₚ values.
Proof.
  induction values as [|c values IH]; cbn; [reflexivity|].
  rewrite insert_by_date_Permutation, IH. reflexivity.
Qed.

Lemma insert_by_date_sorted c sorted :
  StronglySorted not_older sorted -> StronglySorted not_older (insert_by_date c sorted).
Proof.
  induction sorted as [|d sorted IH]; intros Hs; cbn.
  - repeat constructor.
  - apply StronglySorted_inv in Hs as [Hs Hd].
    destruct (newer d c) eqn:Hnew; unfold newer in Hnew.
    + constructor; [apply IH, Hs|].
      rewrite insert_by_date_Permutation. constructor; [|exact Hd].
      apply Z.ltb_lt in Hnew. unfold not_older. lia.
    + apply Z.ltb_ge in Hnew. constructor; [constructor; assumption|].
      constructor; [exact Hnew|].
      eapply Forall_impl; [exact Hd|]. unfold not_older. intros x Hx. lia.
Qed.

Lemma sort_by_date_sorted values : StronglySorted not_older (sort_by_date values).
Proof.
  induction values as [|c values IH]; cbn; [constructor|].
  apply insert_by_date_sorted, IH.
Qed.

Lemma slice_to_take {X : Type} limit (a : list X) :
  exists k, slice_to limit a = take k a /\
            k = if (limit <? 0)%Z
                then Z.to_nat (Z.max (Z.of_nat (length a) + limit) 0)
                else Z.to_nat limit.
Proof. unfold slice_to. destruct (limit <? 0)%Z; eauto. Qed.

(** X8. [listConversations] returns the stored conversations most recently
    updated first, cut to [limit] entries (a negative [limit] leaves that
    many off the end instead); together with the conversations it leaves
    out it is a rearrangement of the stored ones, and none it leaves out
    was updated later than one it returns. *)
Theorem listConversations_most_recent_first values limit :
  StronglySorted not_older (listConversations values limit) /\
  length (listConversations values limit)
    = (if (limit <? 0)%Z
       then Z.to_nat (Z.of_nat (length values) + limit)
       else Nat.min (Z.to_nat limit) (length values)) /\
  exists omitted,
    values ≡ₚ listConversations values limit ++ omitted /\
    forall a b, a ∈ listConversations values limit -> b ∈ omitted -> not_older a b.
Proof.
  unfold listConversations.
  destruct (slice_to_take limit (sort_by_date values)) as (k & -> & Hk).
  pose proof (sort_by_date_sorted values) as Hsorted.
  rewrite <- (take_drop k (sort_by_date values)) in Hsorted.
  split; [|split].
  - eapply StronglySorted_app_1_l, Hsorted.
  - rewrite length_take, Hk.
    rewrite !(Permutation_length (sort_by_date_Permutation values)).
    destruct (limit <? 0)%Z eqn:Hneg;
      [apply Z.ltb_lt in Hneg|apply Z.ltb_ge in Hneg]; lia.
  - exists (drop k (sort_by_date values)). split.
    + rewrite take_drop. symmetry. apply sort_by_date_Permutation.
    + intros a b Ha Hb. eapply StronglySorted_app_1_elem_of; eassumption.
Qed.

Example listConversations_keeps_order_of_equal_dates :
  let c (i : string) (t : Z) :=
    {| conv_id := i; conv_model := default_model; conv_messages := [];
       conv_metadata := []; conv_createdAt := 0; conv_updatedAt := t |} in
  map conv_id (listConversations [c "a" 5; c "b" 9; c "c" 5; c "d" 7]%Z 3)
    = ["b"; "d"; "a"] /\
  map conv_id (listConversations [c "a" 5; c "b" 9; c "c" 5; c "d" 7]%Z (-1))
    = ["b"; "d"; "a"].
Proof. split; reflexivity. Qed.

End ListConversationsFacts.

(** * series *)
Section SeriesFacts.
Import Series.
Context {W A : Type}.

Local Abbreviation Task := (@Task W A).

Lemma loop_app (done rest : list Task) : forall results w,
  loop (done ++ rest) results w
  = match loop done results w with
    | (Returns results', w') => loop rest results' w'
    | (Throws e, w') => (Throws e, w')
    end.
Proof.
  induction done as [|task done IH]; intros results w; cbn; [reflexivity|].
  destruct (task w) as [[result|e] w']; [apply IH | reflexivity].
Qed.

Lemma loop_length (tasks : list Task) : forall results w results' w',
  loop tasks results w = (Returns results', w') ->
  length results' = length results + length tasks.
Proof.
  induction tasks as [|task tasks IH]; intros results w results' w'; cbn.
  - intros [= <- _]. lia.
  - destruct (task w) as [[result|e] w1]; [|discriminate].
    intros Hloop. apply IH in Hloop. rewrite length_app in Hloop. cbn in Hloop. lia.
Qed.

(** X9. [series] calls the tasks one after the other, each in the world the
    one before left.  While they succeed the results are collected in the
    order of the tasks; the first task that fails ends the run with its
    error, in the world it left: the tasks after it are not called. *)
Theorem series_stops_at_the_first_failure (done : list Task) results w w1 :
  series done w = (Returns results, w1) ->
  length results = length done /\
  (forall (task : Task) result w2,
     task w1 = (Returns result, w2) ->
     series (done ++ [task]) w = (Returns (results ++ [result]), w2)) /\
  (forall (task : Task) error w2 (rest : list Task),
     task w1 = (Throws error, w2) ->
     series (done ++ task :: rest) w = (Throws error, w2)).
Proof.
  unfold series. intros Hdone. split; [|split].
  - apply loop_length in Hdone. exact Hdone.
  - intros task result w2 Htask. rewrite loop_app, Hdone. cbn. rewrite Htask.
    reflexivity.
  - intros task error w2 rest Htask. rewrite loop_app, Hdone. cbn. rewrite Htask.
    reflexivity.
Qed.

End SeriesFacts.

Lemma series_stops_at_the_first_failure_witness :
  Series.series [Series.logs "a"; Series.logs "b"] [] = (Returns ["a"; "b"], ["a"; "b"]) /\
  Series.series ([Series.logs "a"; Series.logs "b"] ++ Series.fails "c" :: [Series.logs "d"]) []
    = (Throws (JsError "c"), ["a"; "b"; "c"]).
Proof.
  split; [reflexivity|].
  apply (series_stops_at_the_first_failure
           [Series.logs "a"; Series.logs "b"] ["a"; "b"] [] ["a"; "b"]);
    reflexivity.
Defined.

(** * memoize *)
Section MemoizeFacts.
Import Memoize.
Context {X K R : Type} `{Countable K} (resolver : X -> K).

Local Abbreviation State := (Memoize.State X K R).
Local Abbreviation Event := (Memoize.Event X R).
Local Abbreviation step := (Memoize.step resolver).
Local Abbreviation run := (Memoize.run resolver).
Local Abbreviation linked := (@Memoize.linked X K R _ _).
Local Abbreviation quiet := (Memoize.quiet resolver).

Lemma memoize_run_snoc evs ev (st : State) :
  run (evs ++ [ev]) st = step ev (run evs st).
Proof. unfold Memoize.run. rewrite fold_left_app. reflexivity. Qed.

Lemma step_linked ev (st : State) : linked st -> linked (step ev st).
Proof.
  intros Hl. destruct ev as [args|k outcome]; cbn.
  - unfold call. destruct (cache st !! resolver args) as [result|]; cbn.
    + intros k caller Hk. destruct (Hl k caller Hk) as (a & Hi & Hr).
      exists a. split; [exact Hi|]. apply lookup_app_l_Some. exact Hr.
    + intros k caller Hk. cbn in Hk.
      destruct (decide (k = length (invoked st))) as [->|Hne].
      * rewrite lookup_insert_eq in Hk. injection Hk as <-.
        exists args. split; apply list_lookup_middle; reflexivity.
      * rewrite lookup_insert_ne in Hk by congruence.
        destruct (Hl k caller Hk) as (a & Hi & Hr).
        exists a. split; apply lookup_app_l_Some; assumption.
  - unfold settle. destruct (awaiting st !! k) as [caller|] eqn:Hk; [|exact Hl].
    destruct (invoked st !! k) as [args|] eqn:Hi; [|exact Hl].
    intros k' caller' Hk'. cbn in Hk'.
    apply lookup_delete_Some in Hk' as [_ Hk']. apply (Hl k' caller' Hk').
Qed.

Lemma run_linked evs : forall st : State, linked st -> linked (run evs st).
Proof.
  induction evs as [|ev evs IH]; intros st Hl; [exact Hl|].
  apply IH, step_linked, Hl.
Qed.

Lemma memoize_linked : linked (@memoize X K R _ _).
Proof. intros k caller Hk. cbn in Hk. rewrite lookup_empty in Hk. discriminate. Qed.

Local Abbreviation settled_key := (Memoize.settled_key resolver).

Lemma step_settled_key (key : K) (v : R) n0 calls0 ev (st : State) :
  settled_key key v n0 calls0 st -> settled_key key v n0 calls0 (step ev st).
Proof.
  intros (Hc & Hq & Hl & Hf & Hp).
  pose proof (step_linked ev st Hl) as Hl'.
  split; [|split; [|split; [exact Hl'|split]]]; clear Hl';
    destruct ev as [args|k outcome]; cbn.
  - unfold call. destruct (cache st !! resolver args); exact Hc.
  - unfold settle. destruct (awaiting st !! k) as [caller|] eqn:Hk; [|exact Hc].
    destruct (invoked st !! k) as [args|] eqn:Hi; [|exact Hc]. cbn.
    destruct outcome as [result|e]; [|exact Hc].
    rewrite lookup_insert_ne; [exact Hc|]. apply (Hq k args); [rewrite Hk; eauto|exact Hi].
  - unfold call. destruct (cache st !! resolver args) as [result|] eqn:Hhit;
      [exact Hq|].
    intros k a Hk Hi. cbn in Hk, Hi.
    destruct (decide (k = length (invoked st))) as [->|Hne].
    + rewrite list_lookup_middle in Hi by reflexivity. injection Hi as <-.
      intros Heq. rewrite Heq, Hc in Hhit. discriminate.
    + rewrite lookup_insert_ne in Hk by congruence.
      destruct Hk as [caller Hk]. destruct (Hl k caller Hk) as (a' & Hi' & _).
      rewrite (lookup_app_l_Some _ _ _ _ Hi') in Hi. injection Hi as <-.
      apply (Hq k a'); [rewrite Hk; eauto|exact Hi'].
  - unfold settle. destruct (awaiting st !! k) as [caller|] eqn:Hk; [|exact Hq].
    destruct (invoked st !! k) as [args|] eqn:Hi; [|exact Hq].
    intros k' a Hk' Hi'. cbn in Hk', Hi'.
    destruct Hk' as [c' Hk']. apply lookup_delete_Some in Hk' as [_ Hk'].
    apply (Hq k' a); [rewrite Hk'; eauto|exact Hi'].
  - unfold call. destruct (cache st !! resolver args) as [result|] eqn:Hhit;
      [exact Hf|]. cbn.
    rewrite filter_app, Hf, filter_cons_False, filter_nil, app_nil_r; [reflexivity|].
    intros Heq. rewrite Heq, Hc in Hhit. discriminate.
  - unfold settle. destruct (awaiting st !! k) as [caller|]; [|exact Hf].
    destruct (invoked st !! k) as [args|]; exact Hf.
  - unfold call. destruct (cache st !! resolver args) as [result|] eqn:Hhit;
      intros c a Hn Hr Hkey; cbn in Hr |- *.
    + destruct (decide (c = length (requests st))) as [->|Hne].
      * rewrite list_lookup_middle in Hr by reflexivity. injection Hr as <-.
        rewrite lookup_insert_eq. rewrite Hkey, Hc in Hhit. congruence.
      * rewrite lookup_insert_ne by congruence.
        apply (Hp c a Hn); [|exact Hkey].
        apply lookup_app_Some in Hr as [Hr|[Hlen Hr]]; [exact Hr|].
        apply list_lookup_singleton_Some in Hr as [Hz _]. lia.
    + apply lookup_app_Some in Hr as [Hr|[Hlen Hr]]; [apply (Hp c a Hn Hr Hkey)|].
      apply list_lookup_singleton_Some in Hr as [_ <-].
      rewrite Hkey, Hc in Hhit. discriminate.
  - unfold settle. destruct (awaiting st !! k) as [caller|] eqn:Hk; [|exact Hp].
    destruct (invoked st !! k) as [args|] eqn:Hi; [|exact Hp].
    intros c a Hn Hr Hkey. cbn in Hr |- *.
    destruct (Hl k caller Hk) as (a' & Hi' & Hr').
    rewrite Hi in Hi'. injection Hi' as <-.
    assert (Hne : resolver args <> key) by (apply (Hq k args); [rewrite Hk; eauto|exact Hi]).
    rewrite lookup_insert_ne; [apply (Hp c a Hn Hr Hkey)|].
    intros <-. rewrite Hr in Hr'. congruence.
Qed.

Lemma run_settled_key (key : K) (v : R) n0 calls0 evs : forall st : State,
  settled_key key v n0 calls0 st -> settled_key key v n0 calls0 (run evs st).
Proof.
  induction evs as [|ev evs IH]; intros st Hs; [exact Hs|].
  apply IH, step_settled_key, Hs.
Qed.

(** X10. Once a key is cached and no call of [func] for it is still
    pending, the memoized function answers every later call for that key
    with the cached value and never calls [func] for it again, whatever
    other calls are made and however they end: the entry is never evicted
    or replaced. *)
Theorem memoize_answers_a_cached_key_from_the_cache
    (evs0 evs : list Event) (key : K) (v : R) :
  let st := run evs0 memoize in
  cache st !! key = Some v -> quiet key st ->
  let st' := run evs st in
  cache st' !! key = Some v /\
  filter (fun a => resolver a = key) (invoked st')
    = filter (fun a => resolver a = key) (invoked st) /\
  forall c args, length (requests st) <= c -> requests st' !! c = Some args ->
                 resolver args = key -> promises st' !! c = Some (Returns v).
Proof.
  intros st Hc Hq st'.
  assert (Hs : settled_key key v (length (requests st))
                 (filter (fun a => resolver a = key) (invoked st)) st).
  { split; [exact Hc|]. split; [exact Hq|].
    split; [apply run_linked, memoize_linked|]. split; [reflexivity|].
    intros c args Hn Hr. apply lookup_lt_Some in Hr. lia. }
  apply (run_settled_key _ _ _ _ evs) in Hs.
  destruct Hs as (Hc' & _ & _ & Hf & Hp). split; [exact Hc'|]. split; assumption.
Qed.

Lemma call_miss_replicate args n : forall st : State,
  cache st !! resolver args = None ->
  invoked (run (replicate n (Call args)) st) = invoked st ++ replicate n args /\
  cache (run (replicate n (Call args)) st) = cache st /\
  promises (run (replicate n (Call args)) st) = promises st.
Proof.
  induction n as [|n IH]; intros st Hmiss.
  - cbn. rewrite app_nil_r. repeat split.
  - change (run (replicate (S n) (Call args)) st)
      with (run (replicate n (Call args)) (call resolver args st)).
    assert (Hcall : cache (call resolver args st) = cache st /\
                    invoked (call resolver args st) = invoked st ++ [args] /\
                    promises (call resolver args st) = promises st).
    { unfold call. rewrite Hmiss. repeat split. }
    destruct Hcall as (Hc & Hi & Hp).
    destruct (IH (call resolver args st)) as (Hi' & Hc' & Hp');
      [rewrite Hc; exact Hmiss|].
    rewrite Hi', Hc', Hp', Hc, Hi, Hp, <- app_assoc. repeat split.
Qed.

(** X11. The memoized function does not share a pending call: [n] calls
    for a key that is not cached, made before any of them settles, call
    [func] [n] times, and none of them is answered yet. *)
Theorem memoize_calls_func_for_every_early_call args n (st : State) :
  cache st !! resolver args = None ->
  invoked (run (replicate n (Call args)) st) = invoked st ++ replicate n args /\
  cache (run (replicate n (Call args)) st) = cache st /\
  promises (run (replicate n (Call args)) st) = promises st.
Proof. apply call_miss_replicate. Qed.

End MemoizeFacts.

Lemma memoize_answers_a_cached_key_from_the_cache_witness :
  let resolver := fun args : string => args in
  let st := Memoize.run resolver
              [Memoize.Call "a"; Memoize.Settled 0 (Returns 1)] Memoize.memoize in
  let st' := Memoize.run resolver
               [Memoize.Call "b"; Memoize.Call "a";
                Memoize.Settled 1 (Throws JsUndefined); Memoize.Call "a"] st in
  Memoize.cache st !! "a" = Some 1 /\
  Memoize.quiet resolver "a" st /\
  Memoize.cache st' !! "a" = Some 1 /\
  filter (fun a => resolver a = "a") (Memoize.invoked st')
    = filter (fun a => resolver a = "a") (Memoize.invoked st) /\
  forall c args, length (Memoize.requests st) <= c ->
                 Memoize.requests st' !! c = Some args ->
                 resolver args = "a" ->
                 Memoize.promises st' !! c = Some (Returns 1).
Proof.
  intros resolver st st'.
  assert (Hcached : Memoize.cache st !! "a" = Some 1) by (vm_compute; reflexivity).
  assert (Hquiet : Memoize.quiet resolver "a" st).
  { intros k args [caller Hk] _.
    assert (Hnone : Memoize.awaiting st = ∅) by (vm_compute; reflexivity).
    rewrite Hnone, lookup_empty in Hk. discriminate. }
  split; [exact Hcached|]. split; [exact Hquiet|].
  exact (memoize_answers_a_cached_key_from_the_cache resolver
           [Memoize.Call "a"; Memoize.Settled 0 (Returns 1)]
           [Memoize.Call "b"; Memoize.Call "a";
            Memoize.Settled 1 (Throws JsUndefined); Memoize.Call "a"]
           "a" 1 Hcached Hquiet).
Defined.

Lemma memoize_calls_func_for_every_early_call_witness :
  let resolver := fun args : string => args in
  let st := Memoize.run resolver (replicate 3 (Memoize.Call "a"))
              (Memoize.memoize (R := nat)) in
  Memoize.invoked st = ["a"; "a"; "a"] /\
  Memoize.cache st = ∅ /\ Memoize.promises st = ∅.
Proof.
  apply (memoize_calls_func_for_every_early_call (fun args : string => args)
           "a" 3 Memoize.memoize).
  reflexivity.
Defined.

(** * throttle *)
Section ThrottleFacts.
Import Throttle.
Context {X R : Type} (limit : nat).

Local Abbreviation State := (Throttle.State X R).
Local Abbreviation Event := (Throttle.Event X R).
Local Abbreviation step := (@Throttle.step X R limit).
Local Abbreviation run := (@Throttle.run X R limit).
Local Abbreviation tick := (@Throttle.tick X R).
Local Abbreviation on_time := (@Throttle.on_time X R limit).
Local Abbreviation spaced := (@Throttle.spaced X limit).

Lemma tick_no_timer t (st : State) : timers st = [] -> tick t st = st.
Proof. destruct st; cbn. intros ->. reflexivity. Qed.

Lemma tick_early t d (st : State) : timers st = [d] -> t < d -> tick t st = st.
Proof.
  destruct st; cbn. intros -> Hlt. unfold Throttle.tick; cbn.
  destruct (Nat.leb_spec d t); [lia|]. reflexivity.
Qed.

Lemma tick_due t d (st : State) :
  timers st = [d] -> d <= t ->
  tick t st
  = {| inThrottle := false; lastResult := lastResult st; waiting := [];
       callers := callers st; invoked := invoked st; awaiting := awaiting st;
       timers := [];
       promises := fold_left (settle_promise (Returns (lastResult st)))
                     (waiting st) (promises st) |}.
Proof.
  destruct st; cbn. intros -> Hle. unfold Throttle.tick; cbn.
  destruct (Nat.leb_spec d t); [|lia]. reflexivity.
Qed.

Lemma one_timer (st : State) :
  length (timers st) <= 1 -> timers st = [] \/ exists d, timers st = [d].
Proof.
  destruct (timers st) as [|d [|d' ds]]; cbn; intros Hlen;
    [left; reflexivity | right; eauto | lia].
Qed.

Lemma tick_cases t (st : State) :
  length (timers st) <= 1 ->
  tick t st = st \/
  exists d, timers st = [d] /\ d <= t /\
    tick t st
    = {| inThrottle := false; lastResult := lastResult st; waiting := [];
         callers := callers st; invoked := invoked st; awaiting := awaiting st;
         timers := [];
         promises := fold_left (settle_promise (Returns (lastResult st)))
                       (waiting st) (promises st) |}.
Proof.
  intros Hlen. destruct (one_timer st Hlen) as [Hnil|[d Hd]].
  - left. apply tick_no_timer, Hnil.
  - destruct (Nat.le_gt_cases d t) as [Hle|Hlt].
    + right. exists d. split; [exact Hd|]. split; [exact Hle|].
      apply (tick_due t d); assumption.
    + left. apply (tick_early t d); assumption.
Qed.

Lemma step_shape ev (st : State) : shape st -> shape (step ev st).
Proof.
  intros Hshape. pose proof Hshape as (Hidle & Hexcl & Hlen & Hone).
  destruct ev as [t args|t k outcome|t]; cbn.
  - unfold call. destruct (inThrottle st) eqn:Hin; unfold shape; cbn.
    + split; [discriminate|]. split; [exact Hexcl|].
      split; [exact Hlen|exact Hone].
    + destruct (Hidle eq_refl) as [Haw Htm].
      split; [discriminate|]. rewrite Haw, Htm.
      split; [intros Hne; destruct Hne; reflexivity|]. split; [cbn; lia|].
      intros k c Hk. apply lookup_insert_Some in Hk as [[<- <-]|[_ Hk]].
      * apply insert_empty.
      * rewrite lookup_empty in Hk. discriminate.
  - unfold settle. destruct (awaiting st !! k) as [caller|] eqn:Hk;
      [|exact Hshape].
    pose proof (Hone k caller Hk) as Haw.
    assert (Htm : timers st = []).
    { destruct (timers st) as [|d ds] eqn:Hd; [reflexivity|].
      rewrite Hexcl in Hk by discriminate. rewrite lookup_empty in Hk. discriminate. }
    assert (Hin : inThrottle st = true).
    { destruct (inThrottle st); [reflexivity|].
      destruct (Hidle eq_refl) as [Hnone _]. rewrite Hnone, lookup_empty in Hk.
      discriminate. }
    assert (Hdel : delete k (awaiting st) = ∅).
    { rewrite Haw. apply delete_singleton_eq. }
    destruct outcome as [result|error]; cbn; rewrite Hin, Hdel, Htm;
      unfold shape; cbn.
    + split; [discriminate|]. split; [reflexivity|]. split; [lia|].
      intros k' c' Hk'. rewrite lookup_empty in Hk'. discriminate.
    + split; [discriminate|]. split; [reflexivity|]. split; [lia|].
      intros k' c' Hk'. rewrite lookup_empty in Hk'. discriminate.
  - destruct (tick_cases t st Hlen) as [->|(d & Hd & Hle & ->)];
      [exact Hshape|]. unfold shape; cbn.
    assert (Haw : awaiting st = ∅) by (apply Hexcl; rewrite Hd; discriminate).
    rewrite Haw. split; [split; reflexivity|]. split; [reflexivity|]. split; [lia|].
    intros k' c' Hk'. rewrite lookup_empty in Hk'. discriminate.
Qed.

Lemma throttle_shape : shape (@throttle X R).
Proof.
  split; [split; reflexivity|]. split; [reflexivity|]. split; [cbn; lia|].
  intros k c Hk. cbn in Hk. rewrite lookup_empty in Hk. discriminate.
Qed.

Lemma run_shape evs : forall st : State, shape st -> shape (run evs st).
Proof.
  induction evs as [|ev evs IH]; intros st Hs; [exact Hs|].
  apply IH, step_shape, Hs.
Qed.

Lemma settle_rejected_closed t k error (st : State) :
  shape st -> is_Some (awaiting st !! k) ->
  closed (step (Settled t k (Throws error)) st) /\
  waiting (step (Settled t k (Throws error)) st) = [].
Proof.
  intros (Hidle & Hexcl & Hlen & Hone) [caller Hk]. cbn. unfold settle. rewrite Hk. cbn.
  split; [|reflexivity]. split; [|split].
  - destruct (inThrottle st); [reflexivity|].
    destruct (Hidle eq_refl) as [Hnone _]. rewrite Hnone, lookup_empty in Hk.
    discriminate.
  - rewrite (Hone k caller Hk). apply delete_singleton_eq.
  - destruct (timers st) as [|d ds] eqn:Hd; [reflexivity|].
    rewrite Hexcl in Hk by discriminate. rewrite lookup_empty in Hk. discriminate.
Qed.

Lemma closed_run evs : forall st : State,
  closed st ->
  closed (run evs st) /\
  invoked (run evs st) = invoked st /\
  promises (run evs st) = promises st /\
  waiting (run evs st) = waiting st ++ seq (callers st) (calls_in evs).
Proof.
  induction evs as [|ev evs IH]; intros st Hclosed.
  - cbn. rewrite app_nil_r. repeat split; apply Hclosed.
  - destruct Hclosed as (Hin & Haw & Htm).
    change (run (ev :: evs) st) with (run evs (step ev st)).
    destruct ev as [t args|t k outcome|t].
    + assert (Hstep : step (Call t args) st
                      = {| inThrottle := inThrottle st; lastResult := lastResult st;
                           waiting := waiting st ++ [callers st];
                           callers := S (callers st);
                           invoked := invoked st; awaiting := awaiting st;
                           timers := timers st; promises := promises st |}).
      { cbn. unfold call. rewrite Hin. reflexivity. }
      rewrite Hstep.
      match goal with |- context [Throttle.run limit evs ?s] => set (st1 := s) end.
      destruct (IH st1) as (Hc & Hi & Hp & Hw); [repeat split; assumption|].
      split; [exact Hc|]. rewrite Hi, Hp, Hw. cbn. rewrite <- app_assoc.
      repeat split.
    + assert (Hstep : step (Settled t k outcome) st = st).
      { cbn. unfold settle. rewrite Haw, lookup_empty. reflexivity. }
      rewrite Hstep. apply IH. repeat split; assumption.
    + assert (Hstep : step (Tick t) st = st) by (apply tick_no_timer, Htm).
      rewrite Hstep. apply IH. repeat split; assumption.
Qed.

(** X12. A throttled function never recovers from a rejection of [func]:
    the throttle period it ends in has no timer to end it.  From then on
    [func] is not called again and no promise settles any more; every
    later caller is queued and stays there. *)
Theorem throttle_stays_closed_after_a_rejection
    (evs1 evs2 : list Event) t k error :
  let st1 := run evs1 throttle in
  is_Some (awaiting st1 !! k) ->
  let st2 := step (Settled t k (Throws error)) st1 in
  let st3 := run evs2 st2 in
  inThrottle st3 = true /\
  invoked st3 = invoked st2 /\
  promises st3 = promises st2 /\
  waiting st3 = seq (callers st2) (calls_in evs2).
Proof.
  intros st1 Hk st2 st3.
  assert (Hshape : shape st1) by apply run_shape, throttle_shape.
  destruct (settle_rejected_closed t k error st1 Hshape Hk) as [Hclosed Hw].
  destruct (closed_run evs2 _ Hclosed) as ((Hin & _) & Hi & Hp & Hw').
  fold st2 in Hw. fold st2 st3 in Hin, Hi, Hp, Hw'. rewrite Hw in Hw'.
  repeat split; assumption.
Qed.

Lemma spaced_snoc (calls : list (nat * X)) t args :
  spaced calls ->
  (forall t1 a1, last calls = Some (t1, a1) -> t1 + limit <= t) ->
  spaced (calls ++ [(t, args)]).
Proof.
  intros Hs Hlast i t1 a1 t2 a2 H1 H2.
  destruct (decide (S i < length calls)) as [Hlt|Hge].
  - rewrite lookup_app_l in H1 by lia. rewrite lookup_app_l in H2 by lia.
    eapply Hs; eassumption.
  - assert (Hi : S i = length calls).
    { apply lookup_lt_Some in H2. rewrite length_app in H2. cbn in H2. lia. }
    rewrite lookup_app_l in H1 by lia.
    rewrite Hi, list_lookup_middle in H2 by reflexivity. injection H2 as <- <-.
    apply (Hlast t1 a1). rewrite last_lookup.
    replace (Nat.pred (length calls)) with i by lia. exact H1.
Qed.

Lemma on_time_later now now' (st : State) :
  now <= now' -> on_time now st -> on_time now' st.
Proof.
  intros Hle (Hs & Hpast & Hidle & Htimers).
  split; [exact Hs|]. split; [|split; [|exact Htimers]].
  - intros t a Hl. specialize (Hpast t a Hl). lia.
  - intros Hin t a Hl. specialize (Hidle Hin t a Hl). lia.
Qed.

Lemma step_on_time now ev (st : State) :
  shape st -> on_time now st -> now <= time_of ev ->
  on_time (time_of ev) (step ev st).
Proof.
  intros Hshape Hon Hle.
  pose proof (on_time_later _ _ st Hle Hon) as Hon'.
  pose proof Hon' as (Hs & Hpast & Hidle & Htimers).
  destruct Hshape as (Hsidle & Hexcl & Hlen & Hone).
  destruct ev as [t args|t k outcome|t]; cbn in *.
  - unfold call. destruct (inThrottle st) eqn:Hin; unfold Throttle.on_time; cbn.
    + split; [exact Hs|]. split; [exact Hpast|]. split; [discriminate|exact Htimers].
    + destruct (Hsidle eq_refl) as [_ Htm].
      split; [apply spaced_snoc; [exact Hs|apply Hidle; reflexivity]|].
      split; [intros t' a' Hl; rewrite last_snoc in Hl; injection Hl as <- <-; lia|].
      split; [discriminate|]. rewrite Htm. intros d t' a' Hd.
      apply elem_of_nil in Hd. destruct Hd.
  - unfold settle. destruct (awaiting st !! k) as [caller|] eqn:Hk;
      [|exact Hon'].
    assert (Hin : inThrottle st = true).
    { destruct (inThrottle st); [reflexivity|].
      destruct (Hsidle eq_refl) as [Hnone _]. rewrite Hnone, lookup_empty in Hk.
      discriminate. }
    destruct outcome as [result|error]; unfold Throttle.on_time; cbn.
    + split; [exact Hs|]. split; [exact Hpast|].
      split; [rewrite Hin; discriminate|].
      intros d t' a' Hd Hl. apply elem_of_app in Hd as [Hd|Hd].
      * eapply Htimers; eassumption.
      * apply list_elem_of_singleton in Hd as ->. specialize (Hpast t' a' Hl). lia.
    + split; [exact Hs|]. split; [exact Hpast|].
      split; [rewrite Hin; discriminate|exact Htimers].
  - destruct (tick_cases t st Hlen) as [->|(d & Hd & Hdle & ->)];
      [exact Hon'|]. unfold Throttle.on_time; cbn.
    split; [exact Hs|]. split; [exact Hpast|]. split.
    + intros _ t' a' Hl.
      assert (t' + limit <= d); [|lia].
      apply (Htimers d t' a'); [rewrite Hd; apply list_elem_of_singleton; reflexivity|exact Hl].
    + intros d' t' a' Hd'. apply elem_of_nil in Hd'. destruct Hd'.
Qed.

Lemma run_on_time evs : forall now (st : State),
  shape st -> on_time now st ->
  Forall (le now) (map time_of evs) -> StronglySorted le (map time_of evs) ->
  exists now', on_time now' (run evs st).
Proof.
  induction evs as [|ev evs IH]; intros now st Hshape Hon Hall Hsorted.
  - exists now. exact Hon.
  - cbn in Hall, Hsorted. apply Forall_cons in Hall as [Hle _].
    apply StronglySorted_inv in Hsorted as [Hsorted Hafter].
    apply (IH (time_of ev) (step ev st)).
    + apply step_shape, Hshape.
    + apply (step_on_time now); assumption.
    + exact Hafter.
    + exact Hsorted.
Qed.

Lemma shape_one_pending (st : State) : shape st -> size (awaiting st) <= 1.
Proof.
  intros (_ & _ & _ & Hone).
  destruct (map_eq_dec_empty (awaiting st)) as [->|Hne].
  - rewrite map_size_empty. lia.
  - apply map_choose in Hne as (k & c & Hk).
    rewrite (Hone k c Hk), map_size_singleton. lia.
Qed.

(** X13. When the events come in the order of their times, any two
    successive calls a throttled function makes of [func] are at least
    [limit] milliseconds apart, and at no time is more than one call of
    [func] pending. *)
Theorem throttle_spaces_the_calls (evs : list Event) :
  chronological evs ->
  spaced (invoked (run evs throttle)) /\ size (awaiting (run evs throttle)) <= 1.
Proof.
  intros Hsorted. split.
  - destruct (run_on_time evs 0 throttle) as [now (Hs & _)].
    + apply throttle_shape.
    + split; [|split; [|split]].
      * intros i t1 a1 t2 a2 H1. cbn in H1. discriminate.
      * intros t a Hl. cbn in Hl. discriminate.
      * intros _ t a Hl. cbn in Hl. discriminate.
      * intros d t a Hd. cbn in Hd. apply elem_of_nil in Hd. destruct Hd.
    + apply Forall_forall. intros t _. lia.
    + exact Hsorted.
    + exact Hs.
  - apply shape_one_pending, run_shape, throttle_shape.
Qed.

End ThrottleFacts.

Lemma throttle_stays_closed_after_a_rejection_witness :
  let st1 := Throttle.run 100 [Throttle.Call 0 "a"; Throttle.Call 1 "b"]
               (Throttle.throttle (R := nat)) in
  let st2 := Throttle.step 100 (Throttle.Settled 5 0 (Throws (JsError "down"))) st1 in
  let st3 := Throttle.run 100
               [Throttle.Tick 200; Throttle.Call 300 "c"; Throttle.Call 400 "d"] st2 in
  is_Some (Throttle.awaiting st1 !! 0) /\
  Throttle.inThrottle st3 = true /\
  Throttle.invoked st3 = Throttle.invoked st2 /\
  Throttle.promises st3 = Throttle.promises st2 /\
  Throttle.waiting st3 = seq (Throttle.callers st2) 2.
Proof.
  intros st1 st2 st3.
  assert (Hpending : is_Some (Throttle.awaiting st1 !! 0))
    by (exists 0; vm_compute; reflexivity).
  split; [exact Hpending|].
  exact (throttle_stays_closed_after_a_rejection 100
           [Throttle.Call 0 "a"; Throttle.Call 1 "b"]
           [Throttle.Tick 200; Throttle.Call 300 "c"; Throttle.Call 400 "d"]
           5 0 (JsError "down") Hpending).
Defined.

Lemma throttle_spaces_the_calls_witness :
  let evs := [Throttle.Call 0 "a"; Throttle.Call 1 "b";
              Throttle.Settled 5 0 (Returns 1); Throttle.Tick 100;
              Throttle.Tick 105; Throttle.Call 106 "c"] in
  Throttle.chronological evs /\
  Throttle.invoked (Throttle.run 100 evs Throttle.throttle) = [(0, "a"); (106, "c")] /\
  Throttle.spaced 100 (Throttle.invoked (Throttle.run 100 evs Throttle.throttle)) /\
  size (Throttle.awaiting (Throttle.run 100 evs Throttle.throttle)) <= 1.
Proof.
  intros evs.
  assert (Hsorted : Throttle.chronological evs).
  { unfold Throttle.chronological. cbn. repeat constructor; lia. }
  split; [exact Hsorted|]. split; [vm_compute; reflexivity|].
  exact (throttle_spaces_the_calls 100 evs Hsorted).
Defined.

(** * createSemaphore *)
Section SemaphoreFacts.
Import Semaphore.
Context {R : Type} (maxConcurrent : Z).

Local Abbreviation State := (Semaphore.State R).
Local Abbreviation Event := (Semaphore.Event R).
Local Abbreviation step := (@Semaphore.step R maxConcurrent).
Local Abbreviation run := (@Semaphore.run R maxConcurrent).
Local Abbreviation fair := (@Semaphore.fair R maxConcurrent).

Lemma granted_below (st : State) id :
  fair st -> id ∈ admissions st -> id < calls st.
Proof.
  intros (_ & _ & _ & _ & Hseq & _) Hin.
  assert (Hin' : id ∈ seq 0 (calls st)).
  { rewrite <- Hseq. apply elem_of_app. left. exact Hin. }
  apply elem_of_seq in Hin'. lia.
Qed.

Lemma queued_not_granted (st : State) next rest :
  fair st -> queue st = next :: rest -> next ∉ admissions st.
Proof.
  intros (_ & _ & _ & _ & Hseq & _) Hq Hin.
  pose proof (NoDup_seq 0 (calls st)) as Hnd. rewrite <- Hseq, Hq in Hnd.
  apply NoDup_app in Hnd as (_ & Hdisj & _).
  apply (Hdisj next Hin). apply elem_of_cons. left. reflexivity.
Qed.

Lemma call_fair (st : State) : fair st -> fair (call maxConcurrent st).
Proof.
  intros Hfair. pose proof Hfair as (Hrun & Hdisj & Hmax & Hfull & Hseq & Hsub).
  assert (Hfresh : calls st ∉ pending st ∪ inside st).
  { intros Hin. apply Hsub in Hin. apply (granted_below st _ Hfair) in Hin. lia. }
  unfold call, acquire. cbn.
  destruct (Z.ltb_spec (running st) maxConcurrent) as [Hlt|Hge]; unfold Semaphore.fair; cbn -[seq].
  - assert (Hq : queue st = []).
    { destruct (queue st) as [|q qs] eqn:Hq; [reflexivity|].
      assert (maxConcurrent <= running st)%Z by (apply Hfull; discriminate). lia. }
    split; [|split; [|split; [|split; [|split]]]].
    + rewrite size_union by set_solver. rewrite size_singleton. lia.
    + set_solver.
    + lia.
    + rewrite Hq. intros Hne. destruct Hne. reflexivity.
    + rewrite Hq, app_nil_r in Hseq |- *. rewrite Hseq, seq_S. reflexivity.
    + intros id Hid. apply elem_of_app.
      destruct (decide (id = calls st)) as [->|Hne].
      * right. apply list_elem_of_singleton. reflexivity.
      * left. apply Hsub. set_solver.
  - split; [exact Hrun|]. split; [exact Hdisj|]. split; [exact Hmax|].
    split; [intros _; exact Hge|]. split; [|exact Hsub].
    rewrite app_assoc, Hseq, seq_S. reflexivity.
Qed.

Lemma enter_fair id (st : State) : fair st -> fair (enter id st).
Proof.
  intros Hfair. pose proof Hfair as (Hrun & Hdisj & Hmax & Hfull & Hseq & Hsub).
  unfold enter. destruct (decide (id ∈ pending st)) as [Hin|Hout]; [|exact Hfair].
  unfold Semaphore.fair; cbn -[seq].
  split; [|split; [|split; [exact Hmax|split; [exact Hfull|split; [exact Hseq|]]]]].
  - assert (Hout : id ∉ inside st) by set_solver.
    assert (Hsub1 : ({[id]} : gset nat) ⊆ pending st) by set_solver.
    rewrite (size_union {[id]} (inside st)) by set_solver.
    rewrite (size_difference (pending st) {[id]} Hsub1), size_singleton.
    assert (size (pending st) <> 0).
    { intros Hz. apply size_empty_inv in Hz. set_solver. }
    lia.
  - set_solver.
  - intros i Hi. apply Hsub. set_solver.
Qed.

Lemma leave_fair id outcome (st : State) : fair st -> fair (leave maxConcurrent id outcome st).
Proof.
  intros Hfair. pose proof Hfair as (Hrun & Hdisj & Hmax & Hfull & Hseq & Hsub).
  unfold leave. destruct (decide (id ∈ inside st)) as [Hin|Hout]; [|exact Hfair].
  assert (Hsize : size (inside st ∖ {[id]}) + 1 = size (inside st)).
  { assert (Hsub1 : ({[id]} : gset nat) ⊆ inside st) by set_solver.
    rewrite (size_difference (inside st) {[id]} Hsub1), size_singleton.
    assert (size (inside st) <> 0).
    { intros Hz. apply size_empty_inv in Hz. set_solver. }
    lia. }
  unfold release. cbn. destruct (queue st) as [|next rest] eqn:Hq.
  - unfold Semaphore.fair; cbn -[seq].
    split; [lia|]. split; [set_solver|]. split; [lia|].
    split; [intros Hne; destruct Hne; reflexivity|]. split; [exact Hseq|].
    intros i Hi. apply Hsub. set_solver.
  - pose proof (queued_not_granted st next rest Hfair Hq) as Hnew.
    assert (Hfresh : next ∉ pending st ∪ inside st).
    { intros Hi. apply Hnew, Hsub, Hi. }
    destruct (Z.ltb_spec (running st - 1) maxConcurrent) as [Hlt|Hge];
      unfold Semaphore.fair; cbn -[seq].
    + split; [|split; [|split; [|split; [|split]]]].
      * rewrite size_union by set_solver. rewrite size_singleton. lia.
      * set_solver.
      * lia.
      * intros _. assert (maxConcurrent <= running st)%Z by (apply Hfull; discriminate).
        lia.
      * rewrite <- Hseq, <- app_assoc. reflexivity.
      * intros i Hi. apply elem_of_app.
        destruct (decide (i = next)) as [->|Hne].
        -- right. apply list_elem_of_singleton. reflexivity.
        -- left. apply Hsub. set_solver.
    + split; [lia|]. split; [set_solver|]. split; [lia|].
      split; [intros _; lia|]. split; [exact Hseq|].
      intros i Hi. apply Hsub. set_solver.
Qed.

Lemma step_fair ev (st : State) : fair st -> fair (step ev st).
Proof.
  destruct ev as [|id|id outcome]; cbn;
    [apply call_fair | apply enter_fair | apply leave_fair].
Qed.

Lemma run_fair evs : forall st : State, fair st -> fair (run evs st).
Proof.
  induction evs as [|ev evs IH]; intros st Hfair; [exact Hfair|].
  apply IH, step_fair, Hfair.
Qed.

Lemma createSemaphore_fair : fair (@createSemaphore R).
Proof.
  unfold Semaphore.fair; cbn -[seq]. rewrite !size_empty.
  split; [reflexivity|]. split; [set_solver|]. split; [lia|].
  split; [intros Hne; destruct Hne; reflexivity|]. split; [reflexivity|].
  set_solver.
Qed.

Lemma none_granted evs : forall st : State,
  (maxConcurrent <= 0)%Z -> fair st -> admissions st = [] ->
  admissions (run evs st) = [].
Proof.
  induction evs as [|ev evs IH]; intros st Hzero Hfair Ha; [exact Ha|].
  apply IH; [exact Hzero|apply step_fair, Hfair|].
  destruct Hfair as (Hrun & Hdisj & Hmax & Hfull & Hseq & Hsub).
  assert (Hempty : forall id, id ∉ pending st ∪ inside st).
  { intros id Hid. apply Hsub in Hid. rewrite Ha in Hid.
    apply elem_of_nil in Hid. destruct Hid. }
  destruct ev as [|id|id outcome]; cbn.
  - unfold call, acquire. cbn.
    destruct (Z.ltb_spec (running st) maxConcurrent); [lia|exact Ha].
  - unfold enter. destruct (decide (id ∈ pending st)) as [Hin|_]; [|exact Ha].
    destruct (Hempty id). set_solver.
  - unfold leave. destruct (decide (id ∈ inside st)) as [Hin|_]; [|exact Ha].
    destruct (Hempty id). set_solver.
Qed.

(** X14. However calls of [run] come, start and end, a semaphore lets at
    most [maxConcurrent] functions execute at a time, makes a call wait
    only while every slot is held, and lets the calls in in the order in
    which they came; with [maxConcurrent] at zero or below no call is
    ever let in. *)
Theorem semaphore_bounds_and_orders_the_runs (evs : list Event) :
  let st := run evs createSemaphore in
  (Z.of_nat (size (inside st)) <= Z.max 0 maxConcurrent)%Z /\
  (queue st <> [] ->
   Z.of_nat (size (pending st) + size (inside st)) = Z.max 0 maxConcurrent) /\
  admissions st ++ queue st = seq 0 (calls st) /\
  ((maxConcurrent <= 0)%Z -> admissions st = []).
Proof.
  intros st.
  destruct (run_fair evs _ createSemaphore_fair) as (Hrun & Hdisj & Hmax & Hfull & Hseq & Hsub).
  fold st in Hrun, Hdisj, Hmax, Hfull, Hseq, Hsub.
  split; [lia|]. split; [intros Hq; specialize (Hfull Hq); lia|].
  split; [exact Hseq|].
  intros Hzero. apply none_granted; [exact Hzero|apply createSemaphore_fair|reflexivity].
Qed.

End SemaphoreFacts.

(** * cleanup and the tracked handles: core/localModels.js *)
Section CleanupFacts.
Import JsString LocalModels.

(** Every tracked handle is a process that was spawned, and a request in
    flight with that process is a request for the model the handle is
    tracked under. *)
Lemma tracked_handle path evs :
  forall k p, processes (run path evs initial) !! k = Some p ->
    p < next_pid (run path evs initial) /\
    forall r, In r (in_flight (run path evs initial)) -> req_process r = p ->
              id (req_model r) = k.
Proof.
  pose proof (in_flight_below_next path evs) as Hbelow. revert Hbelow.
  unfold run. rewrite <- fold_left_rev_right.
  induction (rev evs) as [|ev evs' IH]; cbn [fold_right].
  - intros _ k p Hk. cbn in Hk. rewrite lookup_empty in Hk. discriminate.
  - intros _. set (st := fold_right _ _ evs') in *.
    assert (Hbelow : forall r, In r (in_flight st) -> req_process r < next_pid st).
    { pose proof (in_flight_below_next path (rev evs')) as H.
      unfold run in H. rewrite <- fold_left_rev_right, rev_involutive in H. exact H. }
    specialize (IH Hbelow).
    destruct ev as [model prompt options|p' data|p' code|p' message|]; cbn; intros k p Hk.
    + unfold next_pid in *. cbn. rewrite length_app. cbn.
      destruct (decide (k = id model)) as [->|Hne].
      * rewrite lookup_insert_eq in Hk. injection Hk as <-. split; [lia|].
        intros r Hr Hp. apply in_app_or in Hr as [Hr|[<-|[]]]; [|reflexivity].
        apply Hbelow in Hr. lia.
      * rewrite lookup_insert_ne in Hk by congruence.
        destruct (IH k p Hk) as [Hlt Hreq]. split; [lia|].
        intros r Hr Hp. apply in_app_or in Hr as [Hr|[<-|[]]]; [apply Hreq; assumption|].
        cbn in Hp. lia.
    + destruct (IH k p Hk) as [Hlt Hreq]. split; [exact Hlt|].
      intros r Hr Hp. apply in_map_iff in Hr as (r0 & <- & Hr0).
      destruct (is_process p' r0); apply (Hreq r0 Hr0 Hp).
    + destruct (IH k p Hk) as [Hlt Hreq]. split; [exact Hlt|].
      intros r Hr Hp. apply list_elem_of_In, list_elem_of_filter in Hr as [_ Hr].
      apply Hreq; [apply list_elem_of_In, Hr|exact Hp].
    + destruct (IH k p Hk) as [Hlt Hreq]. split; [exact Hlt|].
      intros r Hr Hp. apply list_elem_of_In, list_elem_of_filter in Hr as [_ Hr].
      apply Hreq; [apply list_elem_of_In, Hr|exact Hp].
    + rewrite lookup_empty in Hk. discriminate.
Qed.

(** X15. [cleanup] kills the processes whose handles are tracked and
    forgets the handles; it settles no request.  A request in flight has
    its process killed exactly when its handle is still the one tracked
    for its model, so of the requests in flight for one model id at most
    one is stopped. *)
Theorem cleanup_kills_only_the_tracked_processes path evs :
  let st := run path evs initial in
  let st' := step path Cleanup st in
  processes st' = ∅ /\ in_flight st' = in_flight st /\ settled st' = settled st /\
  exists stopped,
    killed st' = killed st ++ stopped /\
    (forall p, p ∈ stopped <-> exists k, processes st !! k = Some p) /\
    (forall r, In r (in_flight st) ->
       (req_process r ∈ stopped <->
        processes st !! id (req_model r) = Some (req_process r))) /\
    (forall r1 r2, In r1 (in_flight st) -> In r2 (in_flight st) ->
       id (req_model r1) = id (req_model r2) ->
       req_process r1 ∈ stopped -> req_process r2 ∈ stopped ->
       req_process r1 = req_process r2).
Proof.
  intros st st'. split; [reflexivity|]. split; [reflexivity|]. split; [reflexivity|].
  exists (map snd (map_to_list (processes st))). split; [reflexivity|].
  assert (Hstopped : forall p, p ∈ map snd (map_to_list (processes st))
                               <-> exists k, processes st !! k = Some p).
  { intros p. rewrite list_elem_of_In, in_map_iff. split.
    - intros ([k p0] & <- & Hin). exists k.
      apply list_elem_of_In, elem_of_map_to_list in Hin. exact Hin.
    - intros [k Hk]. exists (k, p). split; [reflexivity|].
      apply list_elem_of_In, elem_of_map_to_list. exact Hk. }
  assert (Hown : forall r, In r (in_flight st) ->
            (req_process r ∈ map snd (map_to_list (processes st)) <->
             processes st !! id (req_model r) = Some (req_process r))).
  { intros r Hr. rewrite Hstopped. split.
    - intros [k Hk]. destruct (tracked_handle path evs k _ Hk) as [_ Hreq].
      rewrite (Hreq r Hr eq_refl). exact Hk.
    - intros Hk. eauto. }
  split; [exact Hstopped|]. split; [exact Hown|].
  intros r1 r2 Hr1 Hr2 Hid H1 H2.
  apply (Hown r1 Hr1) in H1. apply (Hown r2 Hr2) in H2.
  rewrite Hid in H1. congruence.
Qed.

Example cleanup_leaves_an_overwritten_process_running :
  let st := run "llama.cpp" [RunModel mistral "user: a" default_options;
                             RunModel mistral "user: b" default_options;
                             Cleanup] initial in
  map req_process (in_flight st) = [0; 1] /\ killed st = [1].
Proof. split; reflexivity. Qed.

End CleanupFacts.

(** * Registration and generation: core/localModels.js *)
Section LocalModelsApiFacts.
Import JsString LocalModels LocalModelsApi.

Lemma lit_app (a b : string) : lit (a +:+ b) = lit a ++ lit b.
Proof.
  unfold lit. induction a as [|c a IH]; [reflexivity|].
  change (list_ascii_of_string (String c a +:+ b))
    with (c :: list_ascii_of_string (a +:+ b)).
  rewrite IH. reflexivity.
Qed.

Lemma formatPrompt_ends_with_delimiter messages :
  exists before, lit (formatPrompt messages) = before ++ delimiter.
Proof.
  unfold formatPrompt. rewrite !lit_app. rewrite app_assoc. eexists. reflexivity.
Qed.

(** X16. [generateResponse] refuses a model that is not registered with
    the [ApiError] 404 [MODEL_NOT_FOUND] and spawns nothing; for a
    registered model it spawns one process on the formatted prompt.  When
    that process writes the prompt back followed by a completion that does
    not contain [assistant:] and exits with code 0, the answer carries the
    completion, trimmed, whatever the chat messages contain; when it exits
    with any other code the error is the [ApiError] 500
    [GENERATION_ERROR]. *)
Theorem generateResponse_answers_with_the_completion
    llamaCppPath models modelId messages options st :
  (models !! modelId = None ->
     generateResponse llamaCppPath models modelId messages options st
       = (Some (LocalRunner.ApiError 404 ("Model " +:+ modelId +:+ " not found")
                  "MODEL_NOT_FOUND"), st)) /\
  (forall model, models !! modelId = Some model ->
     exists st',
       generateResponse llamaCppPath models modelId messages options st = (None, st') /\
       (exists process,
          spawned st' = spawned st ++ [process] /\
          spawn_args process
            = args model ++ ["--prompt"; formatPrompt messages;
                             "--temp"; or_default (temperature options) "0.7";
                             "--n-predict"; or_default (max_tokens options) "2048"]) /\
       processes st' !! id model = Some (next_pid st)) /\
  (forall completion, occurs delimiter completion = false ->
     respond modelId (on_close (Some 0%Z) (lit (formatPrompt messages) ++ completion))
       = LocalRunner.Resolved
           {| resp_model := modelId; resp_role := "assistant";
              resp_content := trim completion |}) /\
  (forall code output, code <> Some 0%Z ->
     respond modelId (on_close code output)
       = LocalRunner.Rejected
           (LocalRunner.ApiError 500 "Failed to generate response" "GENERATION_ERROR")).
Proof.
  split; [|split; [|split]].
  - intros Hnone. unfold generateResponse. rewrite Hnone. reflexivity.
  - intros model Hsome. unfold generateResponse. rewrite Hsome.
    eexists. split; [reflexivity|]. split.
    + eexists. split; reflexivity.
    + cbn. apply lookup_insert_eq.
  - intros completion Hocc.
    destruct (formatPrompt_ends_with_delimiter messages) as [before Hbefore].
    unfold on_close.
    rewrite (split_last_reply (lit (formatPrompt messages) ++ completion) before completion);
      [reflexivity| |exact Hocc].
    rewrite Hbefore, <- app_assoc. reflexivity.
  - intros code output Hcode. unfold on_close.
    destruct code as [[|z|z]|]; [congruence| | |]; reflexivity.
Qed.

Lemma setupModel_no_id env entry (models : gmap string Model) :
  (forall k model, models !! k = Some model -> id model = None) ->
  forall k model, setupModel env models entry !! k = Some model -> id model = None.
Proof.
  intros Hall k model. destruct entry as [modelId config]. unfold setupModel.
  assert (Hset : <[modelId := registration env config
                     (LocalRunner.join (LocalRunner.join (modelsPath env) modelId)
                        (cfg_modelFile config))]> models !! k = Some model ->
                 id model = None).
  { intros Hk. apply lookup_insert_Some in Hk as [[_ <-]|[_ Hk]];
      [reflexivity|apply (Hall k model Hk)]. }
  destruct (mkdir env _); [apply Hall|].
  destruct (fs_access env _); [|exact Hset].
  destruct (downloadModel env _ _); [apply Hall|exact Hset].
Qed.

Lemma setupModels_no_id env k model :
  setupModels env !! k = Some model -> id model = None.
Proof.
  unfold setupModels.
  assert (Hgen : forall entries (models : gmap string Model),
            (forall k model, models !! k = Some model -> id model = None) ->
            forall k model, fold_left (setupModel env) entries models !! k = Some model ->
                            id model = None).
  { induction entries as [|entry entries IH]; intros models Hall; [exact Hall|].
    cbn. apply IH. apply setupModel_no_id, Hall. }
  apply Hgen. intros k' model' Hk. rewrite lookup_empty in Hk. discriminate.
Qed.

Lemma one_key_tracked env path evs :
  Forall (runs_registered env) evs ->
  forall k p, processes (run path evs initial) !! k = Some p -> k = None.
Proof.
  intros Hall. apply Forall_rev in Hall. revert Hall.
  unfold run. rewrite <- fold_left_rev_right.
  induction (rev evs) as [|ev evs' IH]; cbn [fold_right]; intros Hall k p Hk.
  - cbn in Hk. rewrite lookup_empty in Hk. discriminate.
  - apply Forall_cons in Hall as [Hev Hall]. specialize (IH Hall).
    set (st := fold_right _ _ evs') in *.
    destruct ev as [model prompt options|p' data|p' code|p' message|]; cbn in Hk.
    + destruct Hev as [modelId Hreg]. apply setupModels_no_id in Hreg.
      apply lookup_insert_Some in Hk as [[<- _]|[_ Hk]]; [exact Hreg|apply (IH k p Hk)].
    + apply (IH k p Hk).
    + apply (IH k p Hk).
    + apply (IH k p Hk).
    + rewrite lookup_empty in Hk. discriminate.
Qed.

(** X17. The models that [setupModels] registers have no [id], so the
    processes of all of them are tracked under the one key [undefined]:
    however many requests are in flight, at most one handle is tracked,
    and [cleanup] kills at most one process. *)
Theorem registered_models_share_one_handle env path evs :
  Forall (runs_registered env) evs ->
  let st := run path evs initial in
  (forall k p, processes st !! k = Some p -> k = None) /\
  size (processes st) <= 1 /\
  length (killed (step path Cleanup st)) <= length (killed st) + 1.
Proof.
  intros Hall st.
  pose proof (one_key_tracked env path evs Hall) as Hkey. fold st in Hkey.
  assert (Hsize : size (processes st) <= 1).
  { destruct (processes st !! None) as [p|] eqn:Hnone.
    - assert (Heq : processes st = {[None := p]}).
      { apply map_eq. intros k. destruct (decide (k = None)) as [->|Hne].
        - rewrite lookup_singleton_eq. exact Hnone.
        - rewrite lookup_singleton_ne by congruence.
          destruct (processes st !! k) as [q|] eqn:Hk; [|reflexivity].
          destruct Hne. apply (Hkey k q Hk). }
      rewrite Heq, map_size_singleton. lia.
    - assert (Heq : processes st = ∅).
      { apply map_eq. intros k. rewrite lookup_empty.
        destruct (processes st !! k) as [q|] eqn:Hk; [|reflexivity].
        rewrite (Hkey k q Hk) in Hk. congruence. }
      rewrite Heq, map_size_empty. lia. }
  split; [exact Hkey|]. split; [exact Hsize|].
  cbn. rewrite length_app, length_map, length_map_to_list. lia.
Qed.

End LocalModelsApiFacts.

Lemma registered_models_share_one_handle_witness :
  let evs := [LocalModels.RunModel LocalModels.mistral "user: a" LocalModels.default_options;
              LocalModels.RunModel LocalModels.mistral "user: b" LocalModels.default_options;
              LocalModels.Stdout 0 (JsString.lit "assistant: x")] in
  let st := LocalModels.run "llama.cpp" evs LocalModels.initial in
  Forall (LocalModelsApi.runs_registered LocalModelsApi.example_env) evs /\
  length (LocalModels.in_flight st) = 2 /\
  (forall k p, LocalModels.processes st !! k = Some p -> k = None) /\
  size (LocalModels.processes st) <= 1 /\
  length (LocalModels.killed (LocalModels.step "llama.cpp" LocalModels.Cleanup st))
    <= length (LocalModels.killed st) + 1.
Proof.
  intros evs st.
  assert (Hall : Forall (LocalModelsApi.runs_registered LocalModelsApi.example_env) evs).
  { repeat constructor; exists "mistral"; vm_compute; reflexivity. }
  split; [exact Hall|]. split; [reflexivity|].
  exact (registered_models_share_one_handle LocalModelsApi.example_env "llama.cpp" evs Hall).
Defined.

(** * Errors and availability: core/modelManager.js *)
Section ModelManagerApiFacts.
Import LocalRunner ModelManager ModelManagerApi.
Context (env : Env) (initialize_failure : option string).

(** The local manager throws plain errors only. *)
Lemma local_generateResponse_plain modelId prompt options sp e sp' :
  LocalRunner.generateResponse env modelId prompt options sp = (Rejected e, sp') ->
  exists message, e = PlainError message.
Proof.
  unfold LocalRunner.generateResponse, checkModel.
  destruct (get_model env modelId) as [m| |].
  - destruct (fs_access env (binaryPath env)); [intros [= <- _]; eauto|].
    destruct (fs_access env (join (path m) (model m))); [intros [= <- _]; eauto|].
    destruct (process_end env _) as [code out err|msg err].
    + unfold on_close. destruct code as [[|z|z]|]; intros [= <- _]; eauto.
    + intros [= <- _]. eauto.
  - intros [= <- _]. eauto.
  - intros [= <- _]. eauto.
Qed.

Lemma initializeModels_cases st :
  (exists st1, initializeModels initialize_failure st = (Resolved tt, st1) /\
               initialized st1 = true /\ spawned st1 = spawned st) \/
  (initialized st = false /\ initialize_failure <> None /\
   initializeModels initialize_failure st
     = (Rejected (ApiError 500 "Failed to initialize model manager" "MODEL_INIT_ERROR"),
        st)).
Proof.
  unfold initializeModels. destruct (initialized st) eqn:Hinit; [left; eauto|].
  destruct initialize_failure as [msg|]; [right|left; eauto].
  split; [reflexivity|]. split; [discriminate|reflexivity].
Qed.

Lemma listModels_initialized st :
  initialized st = true ->
  ModelManager.listModels env initialize_failure st
    = (Resolved (LocalRunner.listModels env), st).
Proof.
  intros Hinit. unfold ModelManager.listModels, initializeModels. rewrite Hinit.
  reflexivity.
Qed.

Lemma generateResponse_errors st modelId prompt options e st' :
  ModelManager.generateResponse env initialize_failure modelId prompt options st
    = (Rejected e, st') ->
  manager_error e.
Proof.
  unfold ModelManager.generateResponse, manager_error.
  destruct (initializeModels_cases st) as [(st1 & -> & Hinit & _)|(_ & _ & ->)];
    [|intros [= <- _]; eauto].
  rewrite (listModels_initialized st1 Hinit).
  destruct (find _ (LocalRunner.listModels env)) as [info|]; [|intros [= <- _]; eauto 6].
  destruct (info_status info); [|intros [= <- _]; eauto 7|intros [= <- _]; eauto 7].
  destruct (LocalRunner.generateResponse env modelId prompt _ (spawned st1))
    as [[response|e0] sp] eqn:Hlocal; [discriminate|].
  destruct (local_generateResponse_plain _ _ _ _ _ _ Hlocal) as [message ->].
  intros [= <- _]. cbn. eauto 8.
Qed.

(** X18. Whatever the model id, the prompt and the machine, an error of
    [generateResponse] is an [ApiError] with one of four pairs of status
    and code: 500 [MODEL_INIT_ERROR], 404 [MODEL_NOT_FOUND], 503
    [MODEL_NOT_AVAILABLE], 500 [GENERATION_ERROR]; the plain errors of the
    local manager never get through.  While initialization fails, the
    manager stays uninitialized and every call fails with
    [MODEL_INIT_ERROR] without spawning a process. *)
Theorem generateResponse_throws_only_manager_errors st modelId prompt options :
  (forall e st',
     ModelManager.generateResponse env initialize_failure modelId prompt options st
       = (Rejected e, st') ->
     manager_error e) /\
  (initialized st = false -> initialize_failure <> None ->
     ModelManager.generateResponse env initialize_failure modelId prompt options st
       = (Rejected (ApiError 500 "Failed to initialize model manager" "MODEL_INIT_ERROR"),
          st)).
Proof.
  split.
  - intros e st'. apply generateResponse_errors.
  - intros Hinit Hfail. unfold ModelManager.generateResponse, initializeModels.
    rewrite Hinit. destruct initialize_failure; [reflexivity|congruence].
Qed.

(** X19. The local manager's [checkModel] resolves [true] exactly for the
    ids that its [listModels] reports as [ready]; an entry of [listModels]
    is [ready] or in [error], never [not_installed], and carries no error
    message when it is ready; and [checkModel] fails with a plain error
    for an id that is not a property of the models object.  On the model
    manager, [isModelAvailable] and [listModels] do not get that far:
    whatever calls came before, they fail with the [ApiError] 500
    [MODEL_INIT_ERROR]. *)
Theorem checkModel_agrees_with_listModels modelId :
  (checkModel env modelId = Resolved true <-> readiness env modelId = Some ready) /\
  (forall info, In info (LocalRunner.listModels env) ->
     info_status info <> not_installed /\
     (info_status info = ready -> info_error info = None)) /\
  (get_model env modelId = Missing ->
     checkModel env modelId
       = Rejected (PlainError ("Model " +:+ modelId +:+ " not found"))) /\
  (forall requests,
     let st := run env LocalRunner.initialize requests constructor in
     isModelAvailable env LocalRunner.initialize modelId st
       = (Rejected (ApiError 500 "Failed to initialize model manager" "MODEL_INIT_ERROR"),
          st) /\
     ModelManager.listModels env LocalRunner.initialize st
       = (Rejected (ApiError 500 "Failed to initialize model manager" "MODEL_INIT_ERROR"),
          st)).
Proof.
  split; [apply ready_checkModel|]. split; [|split].
  - intros info Hin. unfold LocalRunner.listModels in Hin.
    apply in_map_iff in Hin as ([k m] & <- & _). cbn.
    destruct (fs_access env (join (path m) (model m))) as [e1|];
      [split; [discriminate|discriminate]|].
    destruct (fs_access env (binaryPath env)) as [e2|];
      split; try discriminate; reflexivity.
  - intros Hmissing. unfold checkModel. rewrite Hmissing. reflexivity.
  - intros requests. cbn zeta. rewrite run_constructor.
    unfold isModelAvailable, ModelManager.listModels.
    rewrite initializeModels_fails by reflexivity. split; reflexivity.
Qed.

End ModelManagerApiFacts.

(** * withRetry makes one attempt *)
Section RetryOnce.
Import Retry.
Context {A : Type}.
Context (asyncFunc : Z -> Completion A) (maxRetries : Z) (initialDelay : Q)
        (shouldRetry : JsThrown -> bool) (Math_random : Z -> Q).

(** X21. Whatever the task, [maxRetries], [initialDelay] and
    [shouldRetry], [withRetry] returns, having invoked the task at most
    once and without sleeping.  A first attempt that succeeds gives its
    value; one that fails with an error [shouldRetry] refuses, or with
    [maxRetries = 1], gives its error; one that fails with an error
    [shouldRetry] accepts while [maxRetries >= 2] ends in the [TypeError]
    of the call [logger.warn], whatever the error was. *)
Theorem withRetry_never_makes_a_second_attempt :
  exists out trace,
    withRetry asyncFunc maxRetries initialDelay shouldRetry Math_random
      = Some (out, trace) /\
    (length (invocations trace) <= 1)%nat /\
    sleeps trace = [] /\
    ((1 <= maxRetries)%Z -> invocations trace = [1%Z]) /\
    (forall v, (1 <= maxRetries)%Z -> asyncFunc 1%Z = Returns v -> out = Returns v) /\
    (forall e, (1 <= maxRetries)%Z -> asyncFunc 1%Z = Throws e ->
       shouldRetry e = false \/ maxRetries = 1%Z -> out = Throws e) /\
    (forall e, (2 <= maxRetries)%Z -> asyncFunc 1%Z = Throws e ->
       shouldRetry e = true ->
       out = Throws (JsError (typeError_undefined "warn"))).
Proof.
  destruct (Z.le_gt_cases 1 maxRetries) as [Hmax|Hmax].
  - eexists _, _. split; [apply withRetry_first_attempt, Hmax|].
    split; [cbn; lia|]. split; [reflexivity|]. split; [reflexivity|].
    split; [|split].
    + intros v _ ->. reflexivity.
    + intros e _ -> [Hno|Hone].
      * rewrite Hno. reflexivity.
      * subst maxRetries. rewrite orb_true_r. reflexivity.
    + intros e H2 -> Hyes. rewrite Hyes.
      destruct (Z.eqb_spec 1 maxRetries) as [Heq|_]; [lia|reflexivity].
  - eexists _, _. split; [apply withRetry_no_attempt; lia|].
    split; [cbn; lia|]. split; [reflexivity|]. split; [lia|].
    split; [|split]; intros; lia.
Qed.

End RetryOnce.

(** A task that fails twice and then would succeed is never asked a second
    time. *)
Example withRetry_fails_twice :
  Retry.withRetry Retry.fails_twice 5 (inject_Z 100) Retry.always_retry Retry.no_jitter
  = Some (Throws (JsError "Cannot read properties of undefined (reading 'warn')"),
          [Retry.Invoke 1]).
Proof. reflexivity. Qed.

(** * The Dispatcher turn by turn *)
Section GrimoireTurnsFacts.
Import Grimoire GrimoireTurns.
Context (env : Env).

Local Abbreviation start := (GrimoireTurns.start env).
Local Abbreviation finish := (GrimoireTurns.finish env).
Local Abbreviation step := (GrimoireTurns.step env).
Local Abbreviation run := (GrimoireTurns.run env).

(** Writing to the object an id refers to is writing to the conversation
    stored under that id. *)
Lemma view_alter (f : Conversation -> Conversation)
    (heap : list Conversation) (index : gmap string nat) id ref :
  (forall id1 id2 r, index !! id1 = Some r -> index !! id2 = Some r -> id1 = id2) ->
  index !! id = Some ref ->
  omap (fun r => alter f ref heap !! r) index
  = alter f id (omap (fun r => heap !! r) index).
Proof.
  intros Hinj Hid. apply map_eq. intros j. rewrite lookup_omap.
  destruct (decide (id = j)) as [<-|Hne].
  - rewrite lookup_alter_eq, lookup_omap, Hid. cbn. apply list_lookup_alter_eq.
  - rewrite lookup_alter_ne, lookup_omap by exact Hne.
    destruct (index !! j) as [r|] eqn:Hj; [cbn|reflexivity].
    apply list_lookup_alter_ne. intros <-. apply Hne. apply (Hinj id j ref Hid Hj).
Qed.

(** Writing to an object that no id refers to changes no stored
    conversation. *)
Lemma view_alter_orphan (f : Conversation -> Conversation)
    (heap : list Conversation) (index : gmap string nat) ref :
  (forall id, index !! id <> Some ref) ->
  omap (fun r => alter f ref heap !! r) index = omap (fun r => heap !! r) index.
Proof.
  intros Horphan. apply map_eq. intros j. rewrite !lookup_omap.
  destruct (index !! j) as [r|] eqn:Hj; [cbn|reflexivity].
  apply list_lookup_alter_ne. intros <-. apply (Horphan j Hj).
Qed.

Lemma fresh_call st :
  well_formed st -> pending st !! calls st = None.
Proof.
  intros (_ & _ & Hpend). destruct (pending st !! calls st) as [p|] eqn:Hp; [|reflexivity].
  apply Hpend in Hp as [Hlt _]. lia.
Qed.

Lemma start_finish_absent st id message options :
  well_formed st -> stored st !! id = None ->
  view (finish (calls st) (start id message options st)) = view st /\
  outcomes (finish (calls st) (start id message options st)) !! calls st
    = Some (Throws (JsError "Conversation not found")) /\
  pending (finish (calls st) (start id message options st)) = pending st.
Proof.
  intros Hwf Hid. pose proof (fresh_call st Hwf) as Hfresh.
  unfold GrimoireTurns.start. rewrite Hid. unfold GrimoireTurns.finish. cbn.
  rewrite Hfresh. cbn. rewrite lookup_insert_eq. repeat split.
Qed.

Lemma start_finish_present st id message options ref c :
  well_formed st -> stored st !! id = Some ref -> objects st !! ref = Some c ->
  view (finish (calls st) (start id message options st))
    = snd (processMessage env id message options (view st)) /\
  outcomes (finish (calls st) (start id message options st)) !! calls st
    = Some (fst (processMessage env id message options (view st))) /\
  pending (finish (calls st) (start id message options st)) = pending st.
Proof.
  intros Hwf Hid Hc. pose proof (fresh_call st Hwf) as Hfresh.
  destruct Hwf as (Hvalid & Hinj & Hpend).
  assert (Hview : omap (fun r => objects st !! r) (stored st) !! id = Some c).
  { rewrite lookup_omap, Hid. exact Hc. }
  unfold processMessage, bind, get_conversations. cbn. rewrite Hview. cbn.
  unfold try_catch, bind. cbn.
  unfold the_conversation. cbn. rewrite lookup_alter_eq, Hview. cbn.
  unfold lift.
  unfold GrimoireTurns.start. rewrite Hid. cbn.
  unfold GrimoireTurns.finish. cbn. rewrite lookup_insert_eq. cbn.
  rewrite list_lookup_alter_eq, Hc. cbn.
  rewrite (delete_insert_id _ _ _ Hfresh).
  destruct (generateResponse env _ options) as [[text|]|[m|]] eqn:G; cbn;
    rewrite ?list_lookup_alter_eq, ?Hc; cbn.
  - split; [|split; [apply lookup_insert_eq|reflexivity]].
    unfold view. cbn. f_equal. rewrite !(view_alter _ _ _ id ref Hinj Hid). reflexivity.
  - split; [|split; [apply lookup_insert_eq|reflexivity]].
    unfold view. cbn. f_equal. rewrite !(view_alter _ _ _ id ref Hinj Hid). reflexivity.
  - split; [|split; [apply lookup_insert_eq|reflexivity]].
    unfold view. cbn. f_equal. rewrite !(view_alter _ _ _ id ref Hinj Hid). reflexivity.
  - apply generateResponse_throws_error in G as [m Hm]. discriminate.
Qed.

Lemma view_insert (heap : list Conversation) (index : gmap string nat) id c :
  (forall i r, index !! i = Some r -> r < length heap) ->
  omap (fun r => (heap ++ [c]) !! r) (<[id := length heap]> index)
  = <[id := c]> (omap (fun r => heap !! r) index).
Proof.
  intros Hvalid. apply map_eq. intros j. rewrite lookup_omap.
  destruct (decide (id = j)) as [<-|Hne].
  - rewrite !lookup_insert_eq. cbn. apply list_lookup_middle. reflexivity.
  - rewrite !lookup_insert_ne, lookup_omap by exact Hne.
    destruct (index !! j) as [r|] eqn:Hj; [cbn|reflexivity].
    apply lookup_app_l, (Hvalid j r Hj).
Qed.

Lemma create_view modelId options st :
  well_formed st ->
  view (snd (GrimoireTurns.createConversation env modelId options st))
  = snd (Grimoire.createConversation env modelId options (view st)).
Proof.
  intros (Hvalid & _ & _).
  unfold GrimoireTurns.createConversation, Grimoire.createConversation, bind.
  destruct (truthy (opt_conversationId options)) as [i|]; cbn;
    destruct (truthy modelId) as [m|]; cbn; unfold getModel;
    match goal with
    | |- context [registry env !! ?k] => destruct (registry env !! k)
    end; cbn; try reflexivity;
    unfold view, set_conversations, set_stored, set_objects; cbn; f_equal;
    apply view_insert, Hvalid.
Qed.

Lemma cleanup_view maxAgeHours st :
  view (snd (GrimoireTurns.cleanupOldConversations env maxAgeHours st))
  = snd (Grimoire.cleanupOldConversations env maxAgeHours (view st)).
Proof.
  unfold GrimoireTurns.cleanupOldConversations, Grimoire.cleanupOldConversations,
    bind, now, get_conversations, modify_conversations.
  cbn. unfold view, set_conversations, set_stored. cbn. f_equal.
  apply map_eq. intros j. apply option_eq. intros c.
  rewrite map_lookup_filter_Some, !lookup_omap_Some. cbn. split.
  - intros (r & Hr & Hj). apply map_lookup_filter_Some in Hj as [Hj Hold]. cbn in Hold.
    rewrite Hr in Hold. split; [eauto|exact Hold].
  - intros [(r & Hr & Hj) Hold]. exists r. split; [exact Hr|].
    apply map_lookup_filter_Some. split; [exact Hj|]. cbn. rewrite Hr. exact Hold.
Qed.

Lemma delete_view id st :
  view (snd (GrimoireTurns.deleteConversation id st))
  = snd (Grimoire.deleteConversation id (view st)).
Proof.
  unfold GrimoireTurns.deleteConversation, Grimoire.deleteConversation, view. cbn.
  unfold set_conversations. cbn. f_equal. apply omap_delete.
Qed.

(** What a turn does to the heap, the map and the suspended calls. *)
Lemma create_shape modelId options st :
  let st' := snd (GrimoireTurns.createConversation env modelId options st) in
  pending st' = pending st /\ calls st' = calls st /\
  ((objects st' = objects st /\ stored st' = stored st) \/
   exists i c, conv_messages c = [] /\ objects st' = objects st ++ [c] /\
               stored st' = <[i := length (objects st)]> (stored st)).
Proof.
  unfold GrimoireTurns.createConversation.
  destruct (truthy (opt_conversationId options)) as [i|]; cbn;
    match goal with
    | |- context [registry env !! ?k] => destruct (registry env !! k)
    end; cbn;
    (split; [reflexivity|split; [reflexivity|]]);
    first [left; split; reflexivity
          | right; eexists _, _; split; [|split; reflexivity]; reflexivity].
Qed.

Lemma start_shape id message options st ref :
  stored st !! id = Some ref ->
  let st' := start id message options st in
  exists m t p,
    objects st' = alter (push_message m t) ref (objects st) /\
    pending st' = <[calls st := p]> (pending st) /\
    pend_conversation p = ref /\ pend_response p <> Throws JsUndefined /\
    stored st' = stored st /\ calls st' = S (calls st) /\ outcomes st' = outcomes st.
Proof.
  intros Hid. unfold GrimoireTurns.start. rewrite Hid. cbn.
  eexists _, _, _. split; [reflexivity|]. split; [reflexivity|]. cbn.
  split; [reflexivity|]. split; [|repeat split].
  destruct (alter _ ref (objects st) !! ref) as [c|]; [|discriminate].
  intros G. apply generateResponse_throws_error in G as [m Hm]. discriminate.
Qed.

Lemma start_absent_shape id message options st :
  stored st !! id = None ->
  let st' := start id message options st in
  objects st' = objects st /\ pending st' = pending st /\ stored st' = stored st /\
  calls st' = S (calls st) /\
  outcomes st' = <[calls st := Throws (JsError "Conversation not found")]> (outcomes st).
Proof.
  intros Hid. unfold GrimoireTurns.start. rewrite Hid. repeat split.
Qed.

Lemma finish_shape call st p :
  pending st !! call = Some p ->
  pend_conversation p < length (objects st) ->
  pend_response p <> Throws JsUndefined ->
  let st' := finish call st in
  exists m t,
    objects st' = alter (push_message m t) (pend_conversation p) (objects st) /\
    pending st' = delete call (pending st) /\
    stored st' = stored st /\ calls st' = calls st /\
    is_Some (outcomes st' !! call) /\
    (forall k, k <> call -> outcomes st' !! k = outcomes st !! k).
Proof.
  intros Hp Hvalid Hdefined. unfold GrimoireTurns.finish. rewrite Hp.
  destruct (lookup_lt_is_Some_2 _ _ Hvalid) as [c Hc].
  destruct (pend_response p) as [[text|]|[m|]]; cbn; rewrite ?Hc; cbn.
  - eexists _, _. split; [reflexivity|]. split; [reflexivity|].
    split; [reflexivity|]. split; [reflexivity|].
    split; [rewrite lookup_insert_eq; eauto|].
    intros k Hk. apply lookup_insert_ne. congruence.
  - eexists _, _. split; [reflexivity|]. split; [reflexivity|].
    split; [reflexivity|]. split; [reflexivity|].
    split; [rewrite lookup_insert_eq; eauto|].
    intros k Hk. apply lookup_insert_ne. congruence.
  - eexists _, _. split; [reflexivity|]. split; [reflexivity|].
    split; [reflexivity|]. split; [reflexivity|].
    split; [rewrite lookup_insert_eq; eauto|].
    intros k Hk. apply lookup_insert_ne. congruence.
  - congruence.
Qed.

Lemma finish_idle call st : pending st !! call = None -> finish call st = st.
Proof. intros Hp. unfold GrimoireTurns.finish. rewrite Hp. reflexivity. Qed.

Lemma delete_shape id st :
  let st' := snd (GrimoireTurns.deleteConversation id st) in
  objects st' = objects st /\ pending st' = pending st /\ calls st' = calls st /\
  forall i r, stored st' !! i = Some r -> stored st !! i = Some r.
Proof.
  cbn. repeat split. intros i r Hi. apply lookup_delete_Some in Hi as [_ Hi]. exact Hi.
Qed.

Lemma cleanup_shape maxAgeHours st :
  let st' := snd (GrimoireTurns.cleanupOldConversations env maxAgeHours st) in
  objects st' = objects st /\ pending st' = pending st /\ calls st' = calls st /\
  forall i r, stored st' !! i = Some r -> stored st !! i = Some r.
Proof.
  cbn. repeat split. intros i r Hi. apply map_lookup_filter_Some in Hi as [Hi _]. exact Hi.
Qed.

Lemma shrink_well_formed st st' :
  objects st' = objects st -> pending st' = pending st -> calls st' = calls st ->
  (forall i r, stored st' !! i = Some r -> stored st !! i = Some r) ->
  well_formed st -> well_formed st'.
Proof.
  intros Ho Hp Hc Hsub (Hvalid & Hinj & Hpend). unfold well_formed.
  rewrite Ho, Hp, Hc. split; [|split; [|exact Hpend]].
  - intros i r Hi. apply (Hvalid i r), Hsub, Hi.
  - intros i1 i2 r H1 H2. apply (Hinj i1 i2 r); apply Hsub; assumption.
Qed.

Lemma step_well_formed ev st : well_formed st -> well_formed (step ev st).
Proof.
  intros Hwf. pose proof Hwf as (Hvalid & Hinj & Hpend).
  destruct ev as [modelId options|id message options|call|id|maxAgeHours]; cbn.
  - destruct (create_shape modelId options st)
      as (Hp & Hc & [[Ho Hs]|(i & c & _ & Ho & Hs)]).
    + apply (shrink_well_formed st); try assumption. rewrite Hs. auto.
    + unfold well_formed. rewrite Ho, Hs, Hp, Hc, length_app. cbn.
      split; [|split].
      * intros j r Hj. apply lookup_insert_Some in Hj as [[_ <-]|[_ Hj]]; [lia|].
        apply Hvalid in Hj. lia.
      * intros j1 j2 r H1 H2.
        apply lookup_insert_Some in H1 as [[<- <-]|[Hne1 H1]];
          apply lookup_insert_Some in H2 as [[<- Hr]|[Hne2 H2]]; try reflexivity.
        -- apply Hvalid in H2. lia.
        -- apply Hvalid in H1. lia.
        -- apply (Hinj j1 j2 r H1 H2).
      * intros k p Hk. destruct (Hpend k p Hk) as (H1 & H2 & H3).
        split; [exact H1|]. split; [lia|exact H3].
  - destruct (stored st !! id) as [ref|] eqn:Hid.
    + destruct (start_shape id message options st ref Hid)
        as (m & t & p & Ho & Hp & Href & Hresp & Hs & Hc & _).
      unfold well_formed. rewrite Ho, Hp, Hs, Hc, length_alter.
      split; [exact Hvalid|]. split; [exact Hinj|].
      intros k p' Hk. apply lookup_insert_Some in Hk as [[<- <-]|[_ Hk]].
      * split; [lia|]. split; [rewrite Href; apply (Hvalid id ref Hid)|exact Hresp].
      * destruct (Hpend k p' Hk) as (H1 & H2 & H3). split; [lia|]. split; assumption.
    + destruct (start_absent_shape id message options st Hid)
        as (Ho & Hp & Hs & Hc & _).
      unfold well_formed. rewrite Ho, Hp, Hs, Hc.
      split; [exact Hvalid|]. split; [exact Hinj|].
      intros k p' Hk. destruct (Hpend k p' Hk) as (H1 & H2 & H3).
      split; [lia|]. split; assumption.
  - destruct (pending st !! call) as [p|] eqn:Hcall;
      [|rewrite (finish_idle call st Hcall); exact Hwf].
    destruct (Hpend call p Hcall) as (H1 & H2 & H3).
    destruct (finish_shape call st p Hcall H2 H3) as (m & t & Ho & Hp & Hs & Hc & _).
    unfold well_formed. rewrite Ho, Hp, Hs, Hc, length_alter.
    split; [exact Hvalid|]. split; [exact Hinj|].
    intros k p' Hk. apply lookup_delete_Some in Hk as [_ Hk]. apply (Hpend k p' Hk).
  - destruct (delete_shape id st) as (Ho & Hp & Hc & Hsub).
    apply (shrink_well_formed st); assumption.
  - destruct (cleanup_shape maxAgeHours st) as (Ho & Hp & Hc & Hsub).
    apply (shrink_well_formed st); assumption.
Qed.

Lemma constructor_well_formed d : well_formed (GrimoireTurns.constructor d).
Proof.
  split; [|split]; cbn.
  - intros i r Hi. rewrite lookup_empty in Hi. discriminate.
  - intros i1 i2 r Hi. rewrite lookup_empty in Hi. discriminate.
  - intros k p Hk. rewrite lookup_empty in Hk. discriminate.
Qed.

Lemma run_well_formed evs : forall st, well_formed st -> well_formed (run evs st).
Proof.
  induction evs as [|ev evs IH]; intros st Hwf; [exact Hwf|].
  apply IH, step_well_formed, Hwf.
Qed.

(** X22. Calls that do not overlap run to completion: when every
    [processMessage] takes up again before the next call is made, the
    conversations, the default model and the uuids and clock readings used
    are those of the calls made one after the other. *)
Theorem calls_that_do_not_overlap_run_to_completion d cs :
  view (run (turns_of 0 cs) (GrimoireTurns.constructor d))
  = Grimoire.run env cs (Grimoire.constructor d).
Proof.
  assert (Hgen : forall cs st, well_formed st ->
            view (run (turns_of (calls st) cs) st) = Grimoire.run env cs (view st)).
  { clear cs. induction cs as [|c cs IH]; intros st Hwf; [reflexivity|].
    destruct c as [modelId options|id message options|id|maxAgeHours]; cbn [turns_of].
    - change (run (Create modelId options :: turns_of (calls st) cs) st)
        with (run (turns_of (calls st) cs) (step (Create modelId options) st)).
      change (Grimoire.run env (CreateConversation modelId options :: cs) (view st))
        with (Grimoire.run env cs
                (snd (Grimoire.createConversation env modelId options (view st)))).
      rewrite <- (create_view modelId options st Hwf).
      destruct (create_shape modelId options st) as (_ & Hc & _).
      cbn [GrimoireTurns.step]. rewrite <- Hc. apply IH.
      apply (step_well_formed (Create modelId options) st Hwf).
    - change (run (Start id message options :: Finish (calls st) :: turns_of (S (calls st)) cs) st)
        with (run (turns_of (S (calls st)) cs)
                (finish (calls st) (start id message options st))).
      change (Grimoire.run env (ProcessMessage id message options :: cs) (view st))
        with (Grimoire.run env cs
                (snd (Grimoire.processMessage env id message options (view st)))).
      assert (Hwf' : well_formed (finish (calls st) (start id message options st))).
      { apply (step_well_formed (Finish (calls st))),
          (step_well_formed (Start id message options)), Hwf. }
      assert (Hcalls : calls (finish (calls st) (start id message options st))
                       = S (calls st)).
      { destruct (stored st !! id) as [ref|] eqn:Hid.
        - destruct (start_shape id message options st ref Hid)
            as (m & t & p & Ho & Hp & Href & Hresp & Hs & Hc & _).
          destruct (finish_shape (calls st) (start id message options st) p)
            as (m' & t' & _ & _ & _ & Hc' & _).
          + rewrite Hp. apply lookup_insert_eq.
          + rewrite Ho, length_alter, Href. destruct Hwf as (Hvalid & _).
            apply (Hvalid id ref Hid).
          + exact Hresp.
          + rewrite Hc'. exact Hc.
        - destruct (start_absent_shape id message options st Hid)
            as (_ & Hp & _ & Hc & _).
          rewrite finish_idle; [exact Hc|]. rewrite Hp. apply fresh_call, Hwf. }
      assert (Hview : view (finish (calls st) (start id message options st))
                      = snd (Grimoire.processMessage env id message options (view st))).
      { destruct (stored st !! id) as [ref|] eqn:Hid.
        - destruct Hwf as (Hvalid & Hrest).
          destruct (lookup_lt_is_Some_2 _ _ (Hvalid id ref Hid)) as [c Hc].
          apply (start_finish_present st id message options ref c);
            [split; assumption|assumption|assumption].
        - destruct (start_finish_absent st id message options Hwf Hid) as (-> & _).
          rewrite processMessage_absent; [reflexivity|].
          cbn. rewrite lookup_omap, Hid. reflexivity. }
      rewrite <- Hview, <- Hcalls. apply IH, Hwf'.
    - change (run (Delete id :: turns_of (calls st) cs) st)
        with (run (turns_of (calls st) cs) (step (Delete id) st)).
      change (Grimoire.run env (DeleteConversation id :: cs) (view st))
        with (Grimoire.run env cs (snd (Grimoire.deleteConversation id (view st)))).
      rewrite <- (delete_view id st).
      apply (IH (step (Delete id) st)), (step_well_formed (Delete id) st Hwf).
    - change (run (Cleanup maxAgeHours :: turns_of (calls st) cs) st)
        with (run (turns_of (calls st) cs) (step (Cleanup maxAgeHours) st)).
      change (Grimoire.run env (CleanupOldConversations maxAgeHours :: cs) (view st))
        with (Grimoire.run env cs
                (snd (Grimoire.cleanupOldConversations env maxAgeHours (view st)))).
      rewrite <- (cleanup_view maxAgeHours st).
      apply (IH (step (Cleanup maxAgeHours) st)),
        (step_well_formed (Cleanup maxAgeHours) st Hwf). }
  apply (Hgen cs (GrimoireTurns.constructor d)), constructor_well_formed.
Qed.

Lemma waiting_on_pending ref st st' :
  pending st' = pending st -> waiting_on ref st' = waiting_on ref st.
Proof. unfold waiting_on. intros ->. reflexivity. Qed.

Lemma waiting_on_insert ref call p st st' :
  pending st !! call = None -> pending st' = <[call := p]> (pending st) ->
  waiting_on ref st'
  = waiting_on ref st + (if decide (pend_conversation p = ref) then 1 else 0).
Proof.
  intros Hfresh Hp. unfold waiting_on. rewrite Hp, map_filter_insert. cbn.
  destruct (decide (pend_conversation p = ref)) as [Heq|Hne].
  - rewrite map_size_insert_None; [lia|].
    apply map_lookup_filter_None. left. exact Hfresh.
  - rewrite delete_id by exact Hfresh. lia.
Qed.

Lemma waiting_on_delete ref call p st st' :
  pending st !! call = Some p -> pending st' = delete call (pending st) ->
  waiting_on ref st
  = waiting_on ref st' + (if decide (pend_conversation p = ref) then 1 else 0).
Proof.
  intros Hcall Hp. unfold waiting_on. rewrite Hp, map_filter_delete.
  destruct (decide (pend_conversation p = ref)) as [Heq|Hne].
  - assert (Hin : filter (fun kp => pend_conversation (snd kp) = ref) (pending st)
                    !! call = Some p).
    { apply map_lookup_filter_Some. split; [exact Hcall|exact Heq]. }
    rewrite map_size_delete_Some by eauto.
    assert (size (filter (fun kp => pend_conversation (snd kp) = ref) (pending st)) <> 0).
    { intros Hz. apply map_size_empty_inv in Hz. rewrite Hz, lookup_empty in Hin.
      discriminate. }
    lia.
  - rewrite map_size_delete_None; [lia|].
    apply map_lookup_filter_None. right. intros p' Hp'. cbn.
    rewrite Hcall in Hp'. injection Hp' as <-. exact Hne.
Qed.

Lemma waiting_on_new ref st :
  well_formed st -> length (objects st) <= ref -> waiting_on ref st = 0.
Proof.
  intros (_ & _ & Hpend) Hnew. unfold waiting_on.
  apply map_size_empty_iff, map_eq. intros k. rewrite lookup_empty.
  apply map_lookup_filter_None. right. intros p Hp. cbn.
  destruct (Hpend k p Hp) as (_ & Hlt & _). lia.
Qed.

Lemma step_balanced ev st : well_formed st -> balanced st -> balanced (step ev st).
Proof.
  intros Hwf Hbal. pose proof Hwf as (Hvalid & Hinj & Hpend).
  destruct ev as [modelId options|id message options|call|id|maxAgeHours];
    cbn [GrimoireTurns.step].
  - destruct (create_shape modelId options st)
      as (Hp & Hc & [[Ho Hs]|(i & c & Hmsg & Ho & Hs)]); intros ref c' Hc';
      rewrite (waiting_on_pending ref st _ Hp).
    + rewrite Ho in Hc'. apply (Hbal ref c' Hc').
    + rewrite Ho in Hc'. apply lookup_app_Some in Hc' as [Hc'|[Hlen Hc']].
      * apply (Hbal ref c' Hc').
      * apply list_lookup_singleton_Some in Hc' as [_ <-].
        rewrite Hmsg, (waiting_on_new ref st Hwf Hlen). exists 0. reflexivity.
  - destruct (stored st !! id) as [ref0|] eqn:Hid.
    + destruct (start_shape id message options st ref0 Hid)
        as (m & t & p & Ho & Hp & Href & Hresp & Hs & Hc & _).
      intros ref c' Hc'.
      rewrite (waiting_on_insert ref (calls st) p st _ (fresh_call st Hwf) Hp).
      rewrite Ho in Hc'. rewrite Href.
      destruct (decide (ref0 = ref)) as [->|Hne].
      * rewrite list_lookup_alter_eq in Hc'.
        destruct (objects st !! ref) as [c|] eqn:Hobj; [|discriminate].
        cbn in Hc'. injection Hc' as <-. cbn. rewrite length_app. cbn.
        destruct (Hbal ref c Hobj) as [k Hk]. exists (S k). lia.
      * rewrite list_lookup_alter_ne in Hc' by exact Hne.
        destruct (Hbal ref c' Hc') as [k Hk]. exists k. lia.
    + destruct (start_absent_shape id message options st Hid)
        as (Ho & Hp & Hs & Hc & _).
      intros ref c' Hc'. rewrite (waiting_on_pending ref st _ Hp).
      rewrite Ho in Hc'. apply (Hbal ref c' Hc').
  - destruct (pending st !! call) as [p|] eqn:Hcall;
      [|rewrite (finish_idle call st Hcall); exact Hbal].
    destruct (Hpend call p Hcall) as (H1 & H2 & H3).
    destruct (finish_shape call st p Hcall H2 H3) as (m & t & Ho & Hp & Hs & Hc & _).
    intros ref c' Hc'.
    pose proof (waiting_on_delete ref call p st _ Hcall Hp) as Hw.
    rewrite Ho in Hc'.
    destruct (decide (pend_conversation p = ref)) as [Heq|Hne].
    * rewrite Heq, list_lookup_alter_eq in Hc'.
      destruct (objects st !! ref) as [c|] eqn:Hobj; [|discriminate].
      cbn in Hc'. injection Hc' as <-. cbn. rewrite length_app. cbn.
      destruct (Hbal ref c Hobj) as [k Hk]. exists k. lia.
    * rewrite list_lookup_alter_ne in Hc' by exact Hne.
      destruct (Hbal ref c' Hc') as [k Hk]. exists k. lia.
  - destruct (delete_shape id st) as (Ho & Hp & Hc & Hsub).
    intros ref c' Hc'. rewrite (waiting_on_pending ref st _ Hp).
    rewrite Ho in Hc'. apply (Hbal ref c' Hc').
  - destruct (cleanup_shape maxAgeHours st) as (Ho & Hp & Hc & Hsub).
    intros ref c' Hc'. rewrite (waiting_on_pending ref st _ Hp).
    rewrite Ho in Hc'. apply (Hbal ref c' Hc').
Qed.

Lemma run_balanced evs : forall st,
  well_formed st -> balanced st -> balanced (run evs st).
Proof.
  induction evs as [|ev evs IH]; intros st Hwf Hbal; [exact Hbal|].
  apply IH; [apply step_well_formed, Hwf|apply step_balanced; assumption].
Qed.

(** X23. Calls of [processMessage] that overlap keep the history in step:
    however the calls are interleaved with each other and with creating,
    deleting and cleaning up, every conversation object holds two messages
    for each call on it that has ended and one for each that is suspended;
    so a stored conversation with no call suspended on it, and every
    stored conversation once no call is suspended, has an even number of
    messages. *)
Theorem overlapping_calls_keep_the_count_even d evs :
  let st := run evs (GrimoireTurns.constructor d) in
  (forall ref c, objects st !! ref = Some c ->
     Nat.Even (length (conv_messages c) + waiting_on ref st)) /\
  (forall id ref c, stored st !! id = Some ref -> objects st !! ref = Some c ->
     waiting_on ref st = 0 -> Nat.Even (length (conv_messages c))) /\
  (pending st = ∅ -> all_even (view st)).
Proof.
  intros st.
  assert (Hbal : balanced st).
  { apply run_balanced; [apply constructor_well_formed|].
    intros ref c Hc. cbn in Hc. discriminate. }
  split; [exact Hbal|]. split.
  - intros id ref c _ Hc Hw. specialize (Hbal ref c Hc). rewrite Hw, Nat.add_0_r in Hbal.
    exact Hbal.
  - intros Hnone id c Hc. cbn in Hc. apply lookup_omap_Some in Hc as (ref & Hobj & _).
    specialize (Hbal ref c Hobj). unfold waiting_on in Hbal.
    rewrite Hnone, map_filter_empty, map_size_empty, Nat.add_0_r in Hbal. exact Hbal.
Qed.

(** X24. A call of [processMessage] writes to the conversation object it
    found when it started.  When that object is no longer the one stored
    under any id (the conversation was deleted, cleaned up, or created
    anew under the same id), the call still ends and settles its promise,
    and no stored conversation changes: the reply is recorded nowhere. *)
Theorem reply_to_a_removed_conversation_is_dropped d evs call p :
  let st := run evs (GrimoireTurns.constructor d) in
  pending st !! call = Some p ->
  (forall id, stored st !! id <> Some (pend_conversation p)) ->
  conversations (view (finish call st)) = conversations (view st) /\
  pending (finish call st) !! call = None /\
  is_Some (outcomes (finish call st) !! call).
Proof.
  intros st Hcall Horphan.
  assert (Hwf : well_formed st) by apply run_well_formed, constructor_well_formed.
  destruct Hwf as (_ & _ & Hpend). destruct (Hpend call p Hcall) as (H1 & H2 & H3).
  destruct (finish_shape call st p Hcall H2 H3) as (m & t & Ho & Hp & Hs & Hc & Hout & _).
  split; [|split; [rewrite Hp; apply lookup_delete_eq|exact Hout]].
  cbn. rewrite Ho, Hs. apply view_alter_orphan, Horphan.
Qed.

End GrimoireTurnsFacts.

Lemma reply_to_a_removed_conversation_is_dropped_witness :
  let evs := [GrimoireTurns.Create (Some "default") (GrimoireTurns.options_for "c1");
              GrimoireTurns.Start "c1" "Hello" Grimoire.no_options;
              GrimoireTurns.Delete "c1";
              GrimoireTurns.Create (Some "default") (GrimoireTurns.options_for "c1")] in
  let st := GrimoireTurns.run Grimoire.example_env evs (GrimoireTurns.constructor None) in
  let st' := GrimoireTurns.finish Grimoire.example_env 0 st in
  exists p,
    GrimoireTurns.pending st !! 0 = Some p /\
    (forall id, GrimoireTurns.stored st !! id <> Some (GrimoireTurns.pend_conversation p)) /\
    Grimoire.conversations (GrimoireTurns.view st')
      = Grimoire.conversations (GrimoireTurns.view st) /\
    Grimoire.message_count "c1" (GrimoireTurns.view st') = 0 /\
    GrimoireTurns.pending st' !! 0 = None /\
    is_Some (GrimoireTurns.outcomes st' !! 0).
Proof.
  intros evs st st'.
  destruct (GrimoireTurns.pending st !! 0) as [p|] eqn:Hp; [|vm_compute in Hp; discriminate].
  assert (Href : GrimoireTurns.pend_conversation p = 0).
  { vm_compute in Hp. injection Hp as <-. reflexivity. }
  assert (Hstored : GrimoireTurns.stored st = {["c1" := 1]}) by (vm_compute; reflexivity).
  assert (Horphan : forall id, GrimoireTurns.stored st !! id
                               <> Some (GrimoireTurns.pend_conversation p)).
  { intros id Hid. rewrite Hstored, Href in Hid.
    apply lookup_singleton_Some in Hid as [_ Hid]. discriminate. }
  destruct (reply_to_a_removed_conversation_is_dropped Grimoire.example_env None evs 0 p
              Hp Horphan) as (Hview & Hpend & Hout).
  exists p. split; [reflexivity|]. split; [exact Horphan|]. split; [exact Hview|].
  split; [|split; [exact Hpend|exact Hout]].
  unfold Grimoire.message_count.
  replace (Grimoire.conversations (GrimoireTurns.view st'))
    with (Grimoire.conversations (GrimoireTurns.view st)) by (symmetry; exact Hview).
  vm_compute. reflexivity.
Defined.

Example overlapping_calls_do_not_alternate :
  let evs := [GrimoireTurns.Create (Some "default") (GrimoireTurns.options_for "c1");
              GrimoireTurns.Start "c1" "one" Grimoire.no_options;
              GrimoireTurns.Start "c1" "two" Grimoire.no_options;
              GrimoireTurns.Finish 1; GrimoireTurns.Finish 0] in
  let st := GrimoireTurns.run Grimoire.example_env evs (GrimoireTurns.constructor None) in
  (map (fun m => (Grimoire.msg_role m, Grimoire.msg_content m))
     <$> (Grimoire.conv_messages <$> Grimoire.conversations (GrimoireTurns.view st) !! "c1"))
  = Some [(Grimoire.user, "one"); (Grimoire.user, "two");
          (Grimoire.assistant, "Model " +:+ dquote +:+ "default" +:+ dquote +:+ " received: two");
          (Grimoire.assistant, "Model " +:+ dquote +:+ "default" +:+ dquote +:+ " received: one")].
Proof. vm_compute. reflexivity. Qed.

(** * parallelLimit after it has settled *)
Section ParallelLimitSettled.
Import ParallelLimit.
Context {A : Type} (tasks : list (Completion A)) (concurrency : Z).

Local Abbreviation State := (ParallelLimit.State A).
Local Abbreviation step := (ParallelLimit.step tasks concurrency).
Local Abbreviation exec := (ParallelLimit.exec tasks concurrency).

Lemma step_done choice (st : State) r :
  mode st = Done r ->
  mode (step choice st) = Done r /\ results (step choice st) = results st /\
  (forall j, j ∈ in_flight (step choice st) -> j ∈ in_flight st).
Proof.
  intros Hdone. unfold ParallelLimit.step.
  destruct (enabled st !! _) as [[|j]|]; cbn; [| |auto].
  - unfold resume. rewrite Hdone. auto.
  - unfold settle. destruct (tasks !! j) as [outcome|]; [|auto]. cbn.
    rewrite Hdone. split; [destruct outcome; reflexivity|]. split; [reflexivity|].
    intros i Hi. apply list_elem_of_filter in Hi as [_ Hi]. exact Hi.
Qed.

Lemma exec_done_stays schedule : forall (st : State) r,
  mode st = Done r ->
  mode (exec schedule st) = Done r /\ results (exec schedule st) = results st /\
  (forall j, j ∈ in_flight (exec schedule st) -> j ∈ in_flight st).
Proof.
  induction schedule as [|choice schedule IH]; intros st r Hdone; [auto|].
  destruct (step_done choice st r Hdone) as (Hm & Hr & Hin).
  destruct (IH (step choice st) r Hm) as (Hm' & Hr' & Hin').
  change (exec (choice :: schedule) st) with (exec schedule (step choice st)).
  split; [exact Hm'|]. split; [congruence|]. intros j Hj. apply Hin, Hin', Hj.
Qed.

(** X25. Once [parallelLimit] has settled it starts no further task: its
    outcome and the tasks started so far stay as they are, whatever
    settles afterwards.  In particular, when it rejects because a task
    failed while others were still waiting for a free slot, those tasks
    are never started. *)
Theorem parallelLimit_starts_nothing_after_it_has_settled schedule schedule' r :
  let st := exec schedule (parallelLimit tasks concurrency) in
  mode st = Done r ->
  let st' := exec schedule' st in
  mode st' = Done r /\ results st' = results st /\
  (forall j, j ∈ in_flight st' -> j ∈ in_flight st).
Proof. intros st Hdone. apply exec_done_stays, Hdone. Qed.

End ParallelLimitSettled.

Lemma parallelLimit_starts_nothing_after_it_has_settled_witness :
  let tasks := [Throws (JsError "down"); Returns "b"; Returns "c"] in
  let st := ParallelLimit.exec tasks 1 [0; 0] (ParallelLimit.parallelLimit tasks 1) in
  let st' := ParallelLimit.exec tasks 1 [0; 0; 0] st in
  ParallelLimit.mode st = ParallelLimit.Done (Throws (JsError "down")) /\
  ParallelLimit.results st = [0] /\
  ParallelLimit.mode st' = ParallelLimit.Done (Throws (JsError "down")) /\
  ParallelLimit.results st' = ParallelLimit.results st /\
  (forall j, j ∈ ParallelLimit.in_flight st' -> j ∈ ParallelLimit.in_flight st).
Proof.
  intros tasks st st'.
  assert (Hdone : ParallelLimit.mode st = ParallelLimit.Done (Throws (JsError "down")))
    by (vm_compute; reflexivity).
  split; [exact Hdone|]. split; [vm_compute; reflexivity|].
  exact (parallelLimit_starts_nothing_after_it_has_settled tasks 1 [0; 0] [0; 0; 0]
           (Throws (JsError "down")) Hdone).
Defined.

(** * The error middleware *)
Section ErrorHandlerFacts.
Import ErrorHandler.

Lemma errorHandler_ApiError production now statusCode message code details stack
    res_statusCode :
  errorHandler production now (ApiError statusCode message code details stack)
    res_statusCode
  = Returns {| status := if (res_statusCode =? 200)%Z then 500%Z else res_statusCode;
               error_code := CodeStr match code with
                                     | Some c => if String.eqb c EmptyString
                                                 then "INTERNAL_SERVER_ERROR" else c
                                     | None => "INTERNAL_SERVER_ERROR"
                                     end;
               error_message := message;
               error_details := Carried <$> details;
               error_stack := if production then None else Some stack;
               timestamp := now |}.
Proof.
  unfold errorHandler, ApiError, is_duplicate_key, or_internal.
  destruct code as [c|]; [destruct (String.eqb c EmptyString) eqn:Hc|];
    destruct production; cbn; rewrite ?Hc; reflexivity.
Qed.

(** X26. The error handler never reads the status an [ApiError] carries:
    the response takes the status the response object already has, or 500
    when that is still 200, with the code, message and details of the
    error (an [ApiError] is operational, so they are not hidden).  So every
    error of the model manager's [generateResponse], 404 and 503 included,
    goes out with status 500 on a response whose status was not set. *)
Theorem errorHandler_does_not_read_the_status_of_an_ApiError
    production now statusCode message code details stack res_statusCode :
  (exists response,
     errorHandler production now (ApiError statusCode message code details stack)
       res_statusCode = Returns response /\
     status response = (if (res_statusCode =? 200)%Z then 500%Z else res_statusCode) /\
     error_message response = message /\
     error_details response = Carried <$> details) /\
  (forall e, ModelManagerApi.manager_error e ->
     exists response,
       errorHandler production now (thrown_by_manager e details stack) 200
         = Returns response /\
       status response = 500%Z /\
       error_message response = LocalRunner.message_of e).
Proof.
  split.
  - eexists. split; [apply errorHandler_ApiError|]. repeat split.
  - intros e [m [-> |[-> |[-> | ->]]]]; cbn [thrown_by_manager];
      (eexists; split; [apply errorHandler_ApiError|]; split; reflexivity).
Qed.

Lemma errorHandler_hidden now err res_statusCode response :
  isOperational err = false ->
  errorHandler true now err res_statusCode = Returns response ->
  error_message response = "Something went wrong" /\
  error_details response = None /\ error_stack response = None /\
  match kind err with
  | Other => True
  | _ => status response = 400%Z /\ error_code response = CodeStr "VALIDATION_ERROR"
  end.
Proof.
  intros Hop. unfold errorHandler. rewrite Hop. cbn.
  destruct (kind err) as [segments|ds|].
  - intros [= <-]. cbn. repeat split.
  - intros [= <-]. cbn. repeat split.
  - destruct (String.eqb (name err) "CastError"); [intros [= <-]; cbn; repeat split|].
    destruct (String.eqb (name err) "JsonWebTokenError");
      [intros [= <-]; cbn; repeat split|].
    destruct (String.eqb (name err) "TokenExpiredError");
      [intros [= <-]; cbn; repeat split|].
    destruct (is_duplicate_key err).
    + destruct (keyValue err); [|discriminate]. intros [= <-]. cbn. repeat split.
    + intros [= <-]. cbn. repeat split.
Qed.

(** X27. In production the handler tells nothing about an error that is
    not operational: its response has the message [Something went wrong],
    no details and no stack.  That holds for validation errors as well:
    they go out with status 400 and code [VALIDATION_ERROR], but without
    the validation messages the handler has just put together. *)
Theorem errorHandler_hides_what_is_not_operational now err res_statusCode response :
  isOperational err = false ->
  errorHandler true now err res_statusCode = Returns response ->
  error_message response = "Something went wrong" /\
  error_details response = None /\ error_stack response = None /\
  match kind err with
  | Other => True
  | _ => status response = 400%Z /\ error_code response = CodeStr "VALIDATION_ERROR"
  end.
Proof. apply errorHandler_hidden. Qed.

End ErrorHandlerFacts.

Lemma errorHandler_hides_what_is_not_operational_witness :
  let err := {| ErrorHandler.kind :=
                  ErrorHandler.Joi [{| ErrorHandler.d_message := "message is required";
                                       ErrorHandler.d_path := "message";
                                       ErrorHandler.d_type := "any.required";
                                       ErrorHandler.d_context := "message" |}];
                ErrorHandler.name := "ValidationError";
                ErrorHandler.message := "message is required";
                ErrorHandler.code := None; ErrorHandler.details := None;
                ErrorHandler.isOperational := false;
                ErrorHandler.stack := Some "ValidationError: message is required";
                ErrorHandler.statusCode := None; ErrorHandler.keyValue := None |} in
  exists response,
    ErrorHandler.errorHandler true 0 err 200 = Returns response /\
    ErrorHandler.error_message response = "Something went wrong" /\
    ErrorHandler.error_details response = None /\
    ErrorHandler.error_stack response = None /\
    ErrorHandler.status response = 400%Z /\
    ErrorHandler.error_code response = ErrorHandler.CodeStr "VALIDATION_ERROR".
Proof.
  intros err. eexists. split; [reflexivity|].
  destruct (errorHandler_hides_what_is_not_operational 0 err 200 _ eq_refl eq_refl)
    as (Hm & Hd & Hs & Hstatus & Hcode).
  repeat split; assumption.
Defined.

(** * Initialization shared between callers *)
Section ModelManagerInitFacts.
Import LocalRunner ModelManagerInit.

Lemma hand_pending promise caller st :
  settled st !! promise = None ->
  hand promise caller st
  = {| initialized := initialized st;
       initializationPromise := initializationPromise st;
       started := started st; settled := settled st;
       joined := <[promise := default [] (joined st !! promise) ++ [caller]]> (joined st);
       callers := callers st;
       outcomes := outcomes st |}.
Proof. intros H. unfold hand. rewrite H. reflexivity. Qed.

Lemma hand_settled promise caller st outcome :
  settled st !! promise = Some outcome ->
  hand promise caller st
  = {| initialized := initialized st;
       initializationPromise := initializationPromise st;
       started := started st; settled := settled st; joined := joined st;
       callers := callers st;
       outcomes := <[caller := outcome]> (outcomes st) |}.
Proof. intros H. unfold hand. rewrite H. reflexivity. Qed.

Lemma fresh_promise st :
  (forall promise, is_Some (settled st !! promise) -> promise < started st) ->
  settled st !! started st = None.
Proof.
  intros Hlt. destruct (settled st !! started st) as [o|] eqn:Hs; [|reflexivity].
  assert (started st < started st) by (apply Hlt; rewrite Hs; eauto). lia.
Qed.

Lemma step_in_order ev st : in_order st -> in_order (step ev st).
Proof.
  intros [Hord Hlt]. destruct ev as [throws|promise failure]; cbn [step].
  - unfold call. destruct (initialized st) eqn:Hinit.
    + split; [|exact Hlt]. cbn. destruct (initializationPromise st) as [k|]; [|exact Hord].
      destruct Hord as [Hfalse _]. congruence.
    + destruct (initializationPromise st) as [k|] eqn:Hk.
      * destruct Hord as (_ & Hsk & [(Hnone & waiting & Hj & Hne)|(Hrej & Hj)]).
        -- rewrite hand_pending by exact Hnone. split; [|exact Hlt]. cbn.
           split; [first [exact Hinit|reflexivity]|]. split; [exact Hsk|]. left.
           split; [exact Hnone|]. exists (waiting ++ [callers st]).
           rewrite Hj, lookup_singleton_eq. cbn.
           split; [apply insert_singleton_eq|]. destruct waiting; discriminate.
        -- rewrite (hand_settled _ _ _ (Rejected init_error)) by exact Hrej. split; [|exact Hlt]. cbn.
           split; [first [exact Hinit|reflexivity]|]. split; [exact Hsk|]. right.
           split; assumption.
      * pose proof (fresh_promise st Hlt) as Hfresh. destruct throws.
        -- rewrite (hand_settled _ _ _ (Rejected init_error)) by (cbn; apply lookup_insert_eq).
           split; cbn.
           ++ split; [first [exact Hinit|reflexivity]|]. split; [reflexivity|]. right.
              split; [apply lookup_insert_eq|exact Hord].
           ++ intros p [o Hp]. apply lookup_insert_Some in Hp as [[<- _]|[_ Hp]]; [lia|].
              assert (p < started st) by (apply Hlt; eauto). lia.
        -- rewrite hand_pending by exact Hfresh. split; cbn.
           ++ split; [first [exact Hinit|reflexivity]|]. split; [reflexivity|]. left.
              split; [exact Hfresh|]. exists [callers st]. rewrite Hord.
              split; [apply insert_empty|discriminate].
           ++ intros p Hp. assert (p < started st) by (apply Hlt, Hp). lia.
  - unfold settle. destruct (settled st !! promise) as [o|] eqn:Hs; [split; assumption|].
    destruct (joined st !! promise) as [waiting|] eqn:Hw; [|split; assumption].
    split; cbn.
    + destruct (initializationPromise st) as [k|].
      * destruct Hord as (_ & _ & [(_ & waiting' & Hj & _)|(_ & Hj)]).
        -- rewrite Hj in Hw |- *. apply lookup_singleton_Some in Hw as [<- _].
           apply delete_singleton_eq.
        -- rewrite Hj, lookup_empty in Hw. discriminate.
      * rewrite Hord, lookup_empty in Hw. discriminate.
    + intros p [o Hp]. apply lookup_insert_Some in Hp as [[<- _]|[_ Hp]]; [|apply Hlt; eauto].
      destruct (initializationPromise st) as [k|].
      * destruct Hord as (_ & Hsk & [(_ & waiting' & Hj & _)|(_ & Hj)]).
        -- rewrite Hj in Hw. apply lookup_singleton_Some in Hw as [<- _]. lia.
        -- rewrite Hj, lookup_empty in Hw. discriminate.
      * rewrite Hord, lookup_empty in Hw. discriminate.
Qed.

Lemma constructor_in_order : in_order constructor.
Proof.
  split; [reflexivity|]. intros p [o Hp]. cbn in Hp. rewrite lookup_empty in Hp.
  discriminate.
Qed.

Lemma run_in_order evs : forall st, in_order st -> in_order (run evs st).
Proof.
  induction evs as [|ev evs IH]; intros st Hord; [exact Hord|].
  apply IH, step_in_order, Hord.
Qed.

(** What a call does to the counters. *)
Lemma call_counters throws st :
  in_order st ->
  initialized (call throws st) = initialized st /\
  (initializationPromise (call throws st)
   = if initialized st then initializationPromise st
     else Some (default (started st) (initializationPromise st))) /\
  (started (call throws st)
   = if initialized st then started st
     else match initializationPromise st with
          | Some _ => started st
          | None => S (started st)
          end).
Proof.
  intros [Hord Hlt]. unfold call, hand. destruct (initialized st); cbn.
  - repeat split.
  - destruct (initializationPromise st) as [k|]; cbn.
    + destruct (settled st !! k); cbn; repeat split.
    + destruct throws; cbn.
      * rewrite lookup_insert_eq. cbn. repeat split.
      * rewrite (fresh_promise st Hlt). cbn. repeat split.
Qed.

Lemma settle_counters promise failure st :
  in_order st ->
  settle promise failure st = st \/
  (initializationPromise st = Some promise /\ initialized st = false /\
   settled st !! promise = None /\
   initializationPromise (settle promise failure st) = None /\
   started (settle promise failure st) = started st /\
   initialized (settle promise failure st)
   = match failure with None => true | Some _ => false end).
Proof.
  intros [Hord Hlt]. unfold settle.
  destruct (settled st !! promise) as [o|] eqn:Hs; [left; reflexivity|].
  destruct (joined st !! promise) as [waiting|] eqn:Hw; [|left; reflexivity].
  right. destruct (initializationPromise st) as [k|].
  - destruct Hord as (Hinit & _ & [(_ & waiting' & Hj & _)|(_ & Hj)]).
    + rewrite Hj in Hw. apply lookup_singleton_Some in Hw as [<- _]. cbn.
      rewrite Hinit. destruct failure; repeat split.
    + rewrite Hj, lookup_empty in Hw. discriminate.
  - rewrite Hord, lookup_empty in Hw. discriminate.
Qed.

Lemma rejections_cons ev evs : rejections (ev :: evs) = rejections [ev] + rejections evs.
Proof. unfold rejections. cbn. destruct ev as [[|]|p [m|]]; cbn; lia. Qed.

Lemma run_started evs : forall st n,
  in_order st ->
  started st + (if initialized st then 0 else 1)
    <= n + match initializationPromise st with Some _ => 1 | None => 0 end + 1 ->
  started (run evs st) + (if initialized (run evs st) then 0 else 1)
    <= n + rejections evs
       + match initializationPromise (run evs st) with Some _ => 1 | None => 0 end + 1.
Proof.
  induction evs as [|ev evs IH]; intros st n Hord Hle.
  - cbn. unfold rejections. cbn. lia.
  - change (run (ev :: evs) st) with (run evs (step ev st)).
    rewrite rejections_cons.
    assert (Hstep : started (step ev st) + (if initialized (step ev st) then 0 else 1)
                    <= n + rejections [ev]
                       + match initializationPromise (step ev st) with
                         | Some _ => 1 | None => 0 end + 1).
    { destruct ev as [throws|promise failure]; cbn [step].
      - destruct (call_counters throws st Hord) as (-> & -> & ->).
        unfold rejections. destruct (initialized st); [cbn; lia|].
        destruct (initializationPromise st); cbn; lia.
      - destruct (settle_counters promise failure st Hord)
          as [->|(Hp & Hi & _ & -> & -> & ->)].
        + unfold rejections. destruct failure; cbn; lia.
        + rewrite Hp, Hi in Hle. unfold rejections. destruct failure; cbn; lia. }
    pose proof (IH (step ev st) (n + rejections [ev]) (step_in_order ev st Hord) Hstep).
    lia.
Qed.

Lemma settle_all_outcome outcome waiting : forall outcomes caller,
  caller ∈ waiting -> settle_all outcome waiting outcomes !! caller = Some outcome.
Proof.
  assert (Hkeep : forall waiting outcomes caller,
            outcomes !! caller = Some outcome ->
            settle_all outcome waiting outcomes !! caller = Some outcome).
  { clear waiting. induction waiting as [|w waiting IH]; intros outcomes caller Hc;
      [exact Hc|].
    cbn. apply IH. destruct (decide (w = caller)) as [->|Hne].
    - apply lookup_insert_eq.
    - rewrite lookup_insert_ne by exact Hne. exact Hc. }
  induction waiting as [|w waiting IH]; intros outcomes caller Hin.
  - apply elem_of_nil in Hin. destruct Hin.
  - cbn. apply elem_of_cons in Hin as [->|Hin].
    + apply Hkeep, lookup_insert_eq.
    + apply IH, Hin.
Qed.

Lemma initialized_stays evs : forall st,
  in_order st -> initialized st = true ->
  initialized (run evs st) = true /\ started (run evs st) = started st.
Proof.
  induction evs as [|ev evs IH]; intros st Hord Hinit; [split; [exact Hinit|reflexivity]|].
  change (run (ev :: evs) st) with (run evs (step ev st)).
  assert (Hstep : initialized (step ev st) = true /\ started (step ev st) = started st).
  { destruct ev as [throws|promise failure]; cbn [step].
    - destruct (call_counters throws st Hord) as (-> & _ & ->). rewrite Hinit.
      split; reflexivity.
    - destruct (settle_counters promise failure st Hord) as [->|(_ & Hfalse & _)];
        [split; [exact Hinit|reflexivity]|congruence]. }
  destruct Hstep as [Hi Hs].
  destruct (IH (step ev st) (step_in_order ev st Hord) Hi) as (H1 & H2).
  split; [exact H1|congruence].
Qed.

Lemma held_calls throws_list : forall st,
  in_order st -> is_Some (initializationPromise st) ->
  started (run (map Call throws_list) st) = started st.
Proof.
  induction throws_list as [|throws throws_list IH]; intros st Hord [k Hk]; [reflexivity|].
  change (run (map Call (throws :: throws_list)) st)
    with (run (map Call throws_list) (call throws st)).
  pose proof Hord as [Hshape _]. rewrite Hk in Hshape. destruct Hshape as (Hinit & _).
  destruct (call_counters throws st Hord) as (_ & Hp & Hs).
  rewrite Hinit, Hk in Hp, Hs. cbn in Hp. rewrite <- Hs.
  apply IH; [apply (step_in_order (Call throws) st Hord)|rewrite Hp; eauto].
Qed.

(** X28. Callers of [initializeModels] share one initialization: while
    the manager holds a promise the callers are handed that promise and
    the local manager's [initialize] is not called again, and when the
    promise settles they all get its outcome.  The local manager is
    initialized at most once more than initializations have failed, and
    never again once one has succeeded. *)
Theorem initializeModels_is_shared evs :
  let st := run evs constructor in
  started st <= S (rejections evs) /\
  (forall promise waiting failure caller,
     joined st !! promise = Some waiting -> caller ∈ waiting ->
     initializationPromise st = Some promise /\
     outcomes (step (Settled promise failure) st) !! caller
       = Some match failure with
              | None => Resolved tt
              | Some _ => Rejected init_error
              end) /\
  (forall throws_list, is_Some (initializationPromise st) ->
     started (run (map Call throws_list) st) = started st) /\
  (forall evs', initialized st = true ->
     initialized (run evs' st) = true /\ started (run evs' st) = started st).
Proof.
  intros st.
  assert (Hord : in_order st) by apply run_in_order, constructor_in_order.
  split; [|split; [|split]].
  - pose proof (run_started evs constructor 0 constructor_in_order) as H.
    cbn in H. specialize (H ltac:(lia)). fold st in H.
    destruct Hord as [Hshape _].
    destruct (initializationPromise st) as [k|].
    + destruct Hshape as [Hinit _]. rewrite Hinit in H. lia.
    + destruct (initialized st); lia.
  - intros promise waiting failure caller Hw Hin.
    destruct Hord as [Hshape _].
    destruct (initializationPromise st) as [k|].
    + destruct Hshape as (_ & _ & [(Hnone & waiting' & Hj & _)|(_ & Hj)]).
      * rewrite Hj in Hw. pose proof Hw as Hw'.
        apply lookup_singleton_Some in Hw' as [<- _].
        split; [reflexivity|]. cbn. unfold settle. rewrite Hnone, Hj, Hw. cbn.
        apply settle_all_outcome, Hin.
      * rewrite Hj, lookup_empty in Hw. discriminate.
    + rewrite Hshape, lookup_empty in Hw. discriminate.
  - intros throws_list Hheld. apply held_calls; assumption.
  - intros evs' Hinit. apply initialized_stays; assumption.
Qed.

Lemma stuck_step ev st :
  in_order st -> stuck st ->
  stuck (step ev st) /\ initialized (step ev st) = false /\
  started (step ev st) = started st /\
  callers st <= callers (step ev st) /\
  (forall c, callers st <= c < callers (step ev st) ->
     outcomes (step ev st) !! c = Some (Rejected init_error)) /\
  (forall c, c < callers st -> outcomes (step ev st) !! c = outcomes st !! c).
Proof.
  intros [Hord Hlt] (k & Hk & Hrej). rewrite Hk in Hord.
  destruct Hord as (Hinit & Hsk & Hcases).
  assert (Hj : joined st = ∅).
  { destruct Hcases as [(Hnone & _)|(_ & Hj)]; [congruence|exact Hj]. }
  destruct ev as [throws|promise failure]; cbn [step].
  - unfold call. rewrite Hinit, Hk.
    rewrite (hand_settled _ _ _ (Rejected init_error)) by exact Hrej. cbn.
    split; [exists k; split; [reflexivity|exact Hrej]|]. split; [reflexivity|].
    split; [reflexivity|]. split; [lia|]. split.
    + intros c Hc. assert (c = callers st) as -> by lia. apply lookup_insert_eq.
    + intros c Hc. apply lookup_insert_ne. lia.
  - assert (Hsame : settle promise failure st = st).
    { unfold settle. rewrite Hj, lookup_empty. destruct (settled st !! promise); reflexivity. }
    rewrite Hsame. split; [exists k; split; assumption|]. split; [exact Hinit|].
    split; [reflexivity|]. split; [lia|]. split; [intros c Hc; lia|reflexivity].
Qed.

Lemma stuck_run evs : forall st,
  in_order st -> stuck st ->
  stuck (run evs st) /\ initialized (run evs st) = false /\
  started (run evs st) = started st /\
  callers st <= callers (run evs st) /\
  (forall c, callers st <= c < callers (run evs st) ->
     outcomes (run evs st) !! c = Some (Rejected init_error)).
Proof.
  induction evs as [|ev evs IH]; intros st Hord Hstuck.
  - cbn. split; [exact Hstuck|]. split.
    + destruct Hstuck as (k & Hk & _). destruct Hord as [Hshape _].
      rewrite Hk in Hshape. apply Hshape.
    + split; [reflexivity|]. split; [lia|]. intros c Hc. lia.
  - change (run (ev :: evs) st) with (run evs (step ev st)).
    destruct (stuck_step ev st Hord Hstuck) as (Hs1 & _ & Hst1 & Hc1 & Ho1 & _).
    destruct (IH (step ev st) (step_in_order ev st Hord) Hs1)
      as (Hs2 & Hi2 & Hst2 & Hc2 & Ho2).
    split; [exact Hs2|]. split; [exact Hi2|]. split; [congruence|]. split; [lia|].
    intros c Hc. destruct (decide (callers (step ev st) <= c)) as [Hge|Hlt'].
    + apply Ho2. lia.
    + assert (Hkeep : forall evs' st', in_order st' -> stuck st' -> c < callers st' ->
                outcomes (run evs' st') !! c = outcomes st' !! c).
      { clear. induction evs' as [|ev' evs' IH']; intros st' Hord' Hstuck' Hc';
          [reflexivity|].
        change (run (ev' :: evs') st') with (run evs' (step ev' st')).
        destruct (stuck_step ev' st' Hord' Hstuck') as (Hs & _ & _ & Hcs & _ & Hold).
        rewrite IH'; [apply Hold, Hc'|apply step_in_order, Hord'|exact Hs|lia]. }
      rewrite Hkeep; [apply Ho1; lia|apply step_in_order, Hord|exact Hs1|lia].
Qed.

Lemma call_true_stuck st :
  in_order st -> initialized st = false -> initializationPromise st = None ->
  stuck (call true st).
Proof.
  intros [_ Hlt] Hinit Hnone. unfold call. rewrite Hinit, Hnone.
  rewrite (hand_settled _ _ _ (Rejected init_error)) by (cbn; apply lookup_insert_eq).
  exists (started st). cbn. split; [reflexivity|apply lookup_insert_eq].
Qed.

(** X29. A call of [initializeModels] in which the local manager's
    [initialize] throws at once, made while the manager is not
    initialized and holds no promise, leaves the manager with a promise
    that has rejected: it is never initialized after that, [initialize]
    is never called again, and that call and every later call reject
    with the initialization error. *)
Theorem initializeModels_does_not_recover_from_a_throw evs evs' :
  let st := run evs constructor in
  initialized st = false -> initializationPromise st = None ->
  let st' := run evs' (step (Call true) st) in
  initialized st' = false /\
  started st' = S (started st) /\
  (forall caller, callers st <= caller < callers st' ->
     outcomes st' !! caller = Some (Rejected init_error)).
Proof.
  intros st Hinit Hnone st'.
  assert (Hord : in_order st) by apply run_in_order, constructor_in_order.
  pose proof (step_in_order (Call true) st Hord) as Hord1.
  pose proof (call_true_stuck st Hord Hinit Hnone) as Hstuck.
  destruct (stuck_run evs' (step (Call true) st) Hord1 Hstuck)
    as (_ & Hi & Hs & Hc & Ho).
  assert (Hcall : started (call true st) = S (started st)
                  /\ callers (call true st) = S (callers st)
                  /\ outcomes (call true st) !! callers st = Some (Rejected init_error)).
  { unfold call. rewrite Hinit, Hnone.
    rewrite (hand_settled _ _ _ (Rejected init_error)) by (cbn; apply lookup_insert_eq).
    cbn. split; [reflexivity|]. split; [reflexivity|apply lookup_insert_eq]. }
  destruct Hcall as (Hs0 & Hc0 & Ho0). cbn [step] in *.
  split; [exact Hi|]. split; [subst st'; congruence|].
  intros caller Hcaller. subst st'.
  destruct (decide (caller = callers st)) as [->|Hne]; [|apply Ho; lia].
  clear -Hord1 Hstuck Ho0 Hc0.
  assert (Hlt : callers st < callers (call true st)) by lia. clear Hc0.
  revert Hord1 Hstuck Ho0 Hlt. generalize (call true st) as s. 
  induction evs' as [|ev evs' IH]; intros s Hord1 Hstuck Ho0 Hlt; [exact Ho0|].
  change (run (ev :: evs') s) with (run evs' (step ev s)).
  destruct (stuck_step ev s Hord1 Hstuck) as (Hs & _ & _ & Hcs & _ & Hold).
  apply IH; [apply step_in_order, Hord1|exact Hs|rewrite Hold; [exact Ho0|exact Hlt]|lia].
Qed.

Lemma initializeModels_does_not_recover_from_a_throw_witness :
  let st := run [Call false; Settled 0 (Some "ENOENT"); Call true; Call false;
                 Settled 1 None; Call false] constructor in
  initialized st = false /\ started st = 2 /\
  outcomes st !! 1 = Some (Rejected init_error) /\
  outcomes st !! 3 = Some (Rejected init_error).
Proof.
  pose proof (initializeModels_does_not_recover_from_a_throw
                [Call false; Settled 0 (Some "ENOENT")]
                [Call false; Settled 1 None; Call false]
                eq_refl eq_refl) as (Hi & Hs & Ho).
  split; [exact Hi|]. split; [exact Hs|].
  split; apply Ho; vm_compute; lia.
Defined.

(** The first call's [initialize] settles late; two more callers join
    it and all three get its outcome, after which a call returns at
    once. *)
Example initializeModels_three_callers :
  let st := run [Call false; Call false; Call true; Settled 0 None; Call false]
                constructor in
  started st = 1 /\ initialized st = true /\
  outcomes st = {[0 := Resolved tt; 1 := Resolved tt; 2 := Resolved tt;
                  3 := Resolved tt]}.
Proof. vm_compute. repeat split. Qed.

End ModelManagerInitFacts.
